(** * cache-layer: the storage engine, its entries and its eviction policies

    A shallow embedding of [src/cache/CacheEntry.ts],
    [src/cache/EvictionPolicies.ts] and [src/cache/CacheEngine.ts], and of
    what sits around the engine: [src/utils/Config.ts],
    [src/workers/CleanupWorker.ts], [src/monitoring/StatsCollector.ts], the
    rate limiter of [src/api/middleware.ts] and the batch lookup of
    [src/api/controllers.ts].

    Conventions of the embedding.
    - [Date.now()] is an explicit argument [now] (milliseconds) of every
      operation that reads the clock; one operation reads one instant.
    - JavaScript numbers that hold times, counters, TTLs, sizes and cached
      numeric values are integers ([Z]), taken far below 2^53 in magnitude,
      where the integer arithmetic of doubles is exact; [Math.ceil] and
      [Math.round] of a quotient of two such integers are taken on the
      exact quotient. [increment] works on numbers the caller supplies and
      adds as doubles add ([Double.add_int]).
    - A number that is reported as a fraction (the memory ceiling, a ratio,
      a percentage, a figure in MB) is the rational its double denotes
      ([Q]); every division and multiplication that produces one in
      [getStats], [getPerformanceStats] and [getHealthStatus] rounds to the
      nearest double, ties to even ([Double.fl]). Results stay below the
      overflow threshold, and no divisor is zero.
    - A JavaScript string is a [string] whose characters are the code units
      U+0000..U+00FF, so [key.length] is [String.length] and the UTF-8 byte
      length counts two bytes for a code unit above U+007F.
    - A [Map] iterates in insertion order, which [LFUStrategy.selectVictim]
      and [keys] observe, so the store is an association list in that order.
    - [Logger] calls write no engine state and are left out. *)

From Stdlib Require Import ZArith QArith Qround Qabs Qpower Lia Lqa.
From Stdlib Require Import Floats.SpecFloat.
From stdpp Require Import base strings list gmap.

Local Open Scope Z_scope.

(** ** JavaScript values and strings *)

Inductive Value : Type :=
  | VUndefined
  | VNull
  | VBool (b : bool)
  | VNumber (n : Z)
  | VString (s : string)
  | VObject (json : option string).
  (* an object or array, given by what [JSON.stringify] makes of it;
     [None] when the serialization throws *)

(** [Buffer.byteLength(s, 'utf8')] *)
Fixpoint byteLength (s : string) : Z :=
  match s with
  | EmptyString => 0
  | String c rest =>
      (if (Ascii.nat_of_ascii c <? 128)%nat then 1 else 2) + byteLength rest
  end.

(** [Math.ceil(a / b)] for a positive divisor *)
Definition ceil_div (a b : Z) : Z := - ((- a) / b).

(** A number or [Infinity], for the running minima of the LFU scan. *)
Inductive ExtNum : Type :=
  | Fin (z : Z)
  | Infinity.

Definition lt_ext (a : Z) (b : ExtNum) : bool :=
  match b with
  | Fin z => a <? z
  | Infinity => true
  end.

Definition eq_ext (a : Z) (b : ExtNum) : bool :=
  match b with
  | Fin z => a =? z
  | Infinity => false
  end.

(** Truthiness of a value that is an object or [undefined]. *)
Definition defined {A} (o : option A) : bool :=
  match o with
  | Some _ => true
  | None => false
  end.

(** ** The built-in [Map], in insertion order *)

Module JsMap.

Definition t (V : Type) : Type := list (string * V).

Fixpoint get {V} (k : string) (m : t V) : option V :=
  match m with
  | [] => None
  | (k', v) :: rest => if String.eqb k k' then Some v else get k rest
  end.

Definition has {V} (k : string) (m : t V) : bool :=
  match get k m with
  | Some _ => true
  | None => false
  end.

(** [m.set(k, v)]: an existing key keeps its place, a new key goes last *)
Fixpoint set {V} (k : string) (v : V) (m : t V) : t V :=
  match m with
  | [] => [(k, v)]
  | (k', v') :: rest =>
      if String.eqb k k' then (k', v) :: rest else (k', v') :: set k v rest
  end.

(** [m.delete(k)]: the map without the key *)
Fixpoint remove {V} (k : string) (m : t V) : t V :=
  match m with
  | [] => []
  | (k', v') :: rest =>
      if String.eqb k k' then remove k rest else (k', v') :: remove k rest
  end.

(** [m.delete(k)] with its result: whether the key was there *)
Definition delete {V} (k : string) (m : t V) : bool * t V :=
  (has k m, remove k m).

Definition size {V} (m : t V) : Z := Z.of_nat (List.length m).

Definition clear {V} (m : t V) : t V := [].

End JsMap.

(** ** Array helpers used by the order-keeping strategies *)

(** [i = a.indexOf(k); if (i > -1) a.splice(i, 1)] *)
Fixpoint remove_first (k : string) (a : list string) : list string :=
  match a with
  | [] => []
  | x :: rest => if String.eqb k x then rest else x :: remove_first k rest
  end.

(** ** CacheEntry.ts *)

Record CacheEntryOptions : Type := { ttl : option Z }.

Record CacheEntry : Type := mkEntry {
  key : string;
  value : Value;
  createdAt : Z;
  expiresAt : option Z;      (* [None] is [null]: never expires *)
  lastAccessedAt : Z;
  accessCount : Z
}.

Module Entry.

(** [new CacheEntry(key, value, options)] at the instant [now] *)
Definition create (k : string) (v : Value) (options : CacheEntryOptions)
    (now : Z) : CacheEntry :=
  {| key := k;
     value := v;
     createdAt := now;
     expiresAt :=
       match ttl options with
       | Some t => if 0 <? t then Some (now + t * 1000) else None
       | None => None
       end;
     lastAccessedAt := now;
     accessCount := 0 |}.

Definition isExpired (e : CacheEntry) (now : Z) : bool :=
  match expiresAt e with
  | None => false
  | Some at_ => at_ <? now
  end.

Definition markAccessed (e : CacheEntry) (now : Z) : CacheEntry :=
  {| key := key e;
     value := value e;
     createdAt := createdAt e;
     expiresAt := expiresAt e;
     lastAccessedAt := now;
     accessCount := accessCount e + 1 |}.

Definition getRemainingTTL (e : CacheEntry) (now : Z) : option Z :=
  match expiresAt e with
  | None => None
  | Some at_ => Some (ceil_div (Z.max 0 (at_ - now)) 1000)
  end.

Definition getAge (e : CacheEntry) (now : Z) : Z := now - createdAt e.

End Entry.


(** ** EvictionPolicies.ts *)

Inductive EvictionPolicy : Type :=
  | NONE
  | LRU
  | LFU
  | FIFO.

(** The interface [EvictionStrategy]: what the engine calls on a strategy.
    [selectVictim] also returns the strategy, because the order-keeping
    policies drop stale keys from their list while they look. *)
Class EvictionStrategyOps (S : Type) : Type := {
  strat_shouldEvict : S -> Z -> Q -> bool;
  strat_selectVictim : S -> JsMap.t CacheEntry -> option string * S;
  strat_onAccess : S -> string -> CacheEntry -> S;
  strat_onInsert : S -> string -> CacheEntry -> S;
  strat_onRemove : S -> string -> S
}.

(** [currentSize >= maxSize], the threshold rule of LRU, LFU and FIFO *)
Definition reached (currentSize : Z) (maxSize : Q) : bool :=
  Qle_bool maxSize (inject_Z currentSize).

(** The loop shared by [LRUStrategy.selectVictim] and
    [FIFOStrategy.selectVictim]: return the front key if the store has it,
    else [shift] it away and look again. *)
Fixpoint first_live (order : list string) (entries : JsMap.t CacheEntry)
    : option string * list string :=
  match order with
  | [] => (None, [])
  | oldestKey :: rest =>
      if JsMap.has oldestKey entries then (Some oldestKey, order)
      else first_live rest entries
  end.

Module LRUStrategy.

Record t : Type := { accessOrder : list string }.

Definition new : t := {| accessOrder := [] |}.

Definition shouldEvict (s : t) (currentSize : Z) (maxSize : Q) : bool :=
  reached currentSize maxSize.

Definition selectVictim (s : t) (entries : JsMap.t CacheEntry)
    : option string * t :=
  let (victim, order) := first_live (accessOrder s) entries in
  (victim, {| accessOrder := order |}).

Definition onAccess (s : t) (k : string) (e : CacheEntry) : t :=
  {| accessOrder := remove_first k (accessOrder s) ++ [k] |}.

Definition onInsert (s : t) (k : string) (e : CacheEntry) : t :=
  {| accessOrder := accessOrder s ++ [k] |}.

Definition onRemove (s : t) (k : string) : t :=
  {| accessOrder := remove_first k (accessOrder s) |}.

End LRUStrategy.

Module LFUStrategy.

Record t : Type := { frequencies : gmap string Z }.

Definition new : t := {| frequencies := ∅ |}.

Definition shouldEvict (s : t) (currentSize : Z) (maxSize : Q) : bool :=
  reached currentSize maxSize.

(** [this.frequencies.get(key) || 0] *)
Definition freqOf (s : t) (k : string) : Z :=
  match frequencies s !! k with
  | Some f => if f =? 0 then 0 else f
  | None => 0
  end.

(** The three locals of the scan: [minFreq], [victim], [oldestTime]. *)
Record scan : Type := {
  minFreq : ExtNum;
  victim : option string;
  oldestTime : ExtNum
}.

Definition scan_start : scan :=
  {| minFreq := Infinity; victim := None; oldestTime := Infinity |}.

(** The body of the [for (const [key, entry] of entries)] loop *)
Definition scan_step (s : t) (acc : scan) (ke : string * CacheEntry) : scan :=
  let (k, entry) := ke in
  let freq := freqOf s k in
  if lt_ext freq (minFreq acc)
     || (eq_ext freq (minFreq acc)
         && lt_ext (lastAccessedAt entry) (oldestTime acc))
  then {| minFreq := Fin freq;
          victim := Some k;
          oldestTime := Fin (lastAccessedAt entry) |}
  else acc.

Definition selectVictim (s : t) (entries : JsMap.t CacheEntry)
    : option string * t :=
  (victim (fold_left (scan_step s) entries scan_start), s).

Definition onAccess (s : t) (k : string) (e : CacheEntry) : t :=
  {| frequencies := <[k := freqOf s k + 1]> (frequencies s) |}.

Definition onInsert (s : t) (k : string) (e : CacheEntry) : t :=
  {| frequencies := <[k := 1]> (frequencies s) |}.

Definition onRemove (s : t) (k : string) : t :=
  {| frequencies := delete k (frequencies s) |}.

End LFUStrategy.

Module FIFOStrategy.

Record t : Type := { insertionOrder : list string }.

Definition new : t := {| insertionOrder := [] |}.

Definition shouldEvict (s : t) (currentSize : Z) (maxSize : Q) : bool :=
  reached currentSize maxSize.

Definition selectVictim (s : t) (entries : JsMap.t CacheEntry)
    : option string * t :=
  let (victim, order) := first_live (insertionOrder s) entries in
  (victim, {| insertionOrder := order |}).

Definition onAccess (s : t) (k : string) (e : CacheEntry) : t := s.

Definition onInsert (s : t) (k : string) (e : CacheEntry) : t :=
  {| insertionOrder := insertionOrder s ++ [k] |}.

Definition onRemove (s : t) (k : string) : t :=
  {| insertionOrder := remove_first k (insertionOrder s) |}.

End FIFOStrategy.

Module NoEvictionStrategy.

Definition t : Type := unit.

Definition new : t := tt.

Definition shouldEvict (s : t) (currentSize : Z) (maxSize : Q) : bool := false.

Definition selectVictim (s : t) (entries : JsMap.t CacheEntry)
    : option string * t := (None, s).

Definition onAccess (s : t) (k : string) (e : CacheEntry) : t := s.

Definition onInsert (s : t) (k : string) (e : CacheEntry) : t := s.

Definition onRemove (s : t) (k : string) : t := s.

End NoEvictionStrategy.

#[export] Instance LRU_ops : EvictionStrategyOps LRUStrategy.t := {|
  strat_shouldEvict := LRUStrategy.shouldEvict;
  strat_selectVictim := LRUStrategy.selectVictim;
  strat_onAccess := LRUStrategy.onAccess;
  strat_onInsert := LRUStrategy.onInsert;
  strat_onRemove := LRUStrategy.onRemove |}.

#[export] Instance LFU_ops : EvictionStrategyOps LFUStrategy.t := {|
  strat_shouldEvict := LFUStrategy.shouldEvict;
  strat_selectVictim := LFUStrategy.selectVictim;
  strat_onAccess := LFUStrategy.onAccess;
  strat_onInsert := LFUStrategy.onInsert;
  strat_onRemove := LFUStrategy.onRemove |}.

#[export] Instance FIFO_ops : EvictionStrategyOps FIFOStrategy.t := {|
  strat_shouldEvict := FIFOStrategy.shouldEvict;
  strat_selectVictim := FIFOStrategy.selectVictim;
  strat_onAccess := FIFOStrategy.onAccess;
  strat_onInsert := FIFOStrategy.onInsert;
  strat_onRemove := FIFOStrategy.onRemove |}.

#[export] Instance None_ops : EvictionStrategyOps NoEvictionStrategy.t := {|
  strat_shouldEvict := NoEvictionStrategy.shouldEvict;
  strat_selectVictim := NoEvictionStrategy.selectVictim;
  strat_onAccess := NoEvictionStrategy.onAccess;
  strat_onInsert := NoEvictionStrategy.onInsert;
  strat_onRemove := NoEvictionStrategy.onRemove |}.

(** The strategy object an engine holds: one of the four classes. *)
Inductive EvictionStrategy : Type :=
  | StratNone (s : NoEvictionStrategy.t)
  | StratLRU (s : LRUStrategy.t)
  | StratLFU (s : LFUStrategy.t)
  | StratFIFO (s : FIFOStrategy.t).

Module EvictionPolicyFactory.

Definition create (policy : EvictionPolicy) : EvictionStrategy :=
  match policy with
  | LRU => StratLRU LRUStrategy.new
  | LFU => StratLFU LFUStrategy.new
  | FIFO => StratFIFO FIFOStrategy.new
  | NONE => StratNone NoEvictionStrategy.new
  end.

End EvictionPolicyFactory.

(** Dynamic dispatch on the strategy object. *)
Definition shouldEvict_of (s : EvictionStrategy) (cur : Z) (max : Q) : bool :=
  match s with
  | StratNone s => strat_shouldEvict s cur max
  | StratLRU s => strat_shouldEvict s cur max
  | StratLFU s => strat_shouldEvict s cur max
  | StratFIFO s => strat_shouldEvict s cur max
  end.

Definition selectVictim (s : EvictionStrategy) (entries : JsMap.t CacheEntry)
    : option string * EvictionStrategy :=
  match s with
  | StratNone s => let (v, s') := strat_selectVictim s entries in (v, StratNone s')
  | StratLRU s => let (v, s') := strat_selectVictim s entries in (v, StratLRU s')
  | StratLFU s => let (v, s') := strat_selectVictim s entries in (v, StratLFU s')
  | StratFIFO s => let (v, s') := strat_selectVictim s entries in (v, StratFIFO s')
  end.

Definition onAccess (s : EvictionStrategy) (k : string) (e : CacheEntry)
    : EvictionStrategy :=
  match s with
  | StratNone s => StratNone (strat_onAccess s k e)
  | StratLRU s => StratLRU (strat_onAccess s k e)
  | StratLFU s => StratLFU (strat_onAccess s k e)
  | StratFIFO s => StratFIFO (strat_onAccess s k e)
  end.

Definition onInsert (s : EvictionStrategy) (k : string) (e : CacheEntry)
    : EvictionStrategy :=
  match s with
  | StratNone s => StratNone (strat_onInsert s k e)
  | StratLRU s => StratLRU (strat_onInsert s k e)
  | StratLFU s => StratLFU (strat_onInsert s k e)
  | StratFIFO s => StratFIFO (strat_onInsert s k e)
  end.

Definition onRemove (s : EvictionStrategy) (k : string) : EvictionStrategy :=
  match s with
  | StratNone s => StratNone (strat_onRemove s k)
  | StratLRU s => StratLRU (strat_onRemove s k)
  | StratLFU s => StratLFU (strat_onRemove s k)
  | StratFIFO s => StratFIFO (strat_onRemove s k)
  end.

(** The policy a strategy object implements. *)
Definition policy_of (s : EvictionStrategy) : EvictionPolicy :=
  match s with
  | StratNone _ => NONE
  | StratLRU _ => LRU
  | StratLFU _ => LFU
  | StratFIFO _ => FIFO
  end.

(** How often the auxiliary structure of a strategy mentions a key. *)
Definition occurrences (s : EvictionStrategy) (k : string) : nat :=
  match s with
  | StratNone _ => 0
  | StratLRU s => count_occ String.string_dec (LRUStrategy.accessOrder s) k
  | StratLFU s => if defined (LFUStrategy.frequencies s !! k) then 1 else 0
  | StratFIFO s => count_occ String.string_dec (FIFOStrategy.insertionOrder s) k
  end.

(** What a strategy keeps about a key: whether its auxiliary structure
    mentions the key at all. *)
Definition tracked (s : EvictionStrategy) (k : string) : Prop :=
  match s with
  | StratNone _ => False
  | StratLRU s => In k (LRUStrategy.accessOrder s)
  | StratLFU s => is_Some (LFUStrategy.frequencies s !! k)
  | StratFIFO s => In k (FIFOStrategy.insertionOrder s)
  end.

(** The auxiliary structure is empty. *)
Definition bookkeeping_empty (s : EvictionStrategy) : Prop :=
  match s with
  | StratNone _ => True
  | StratLRU s => LRUStrategy.accessOrder s = []
  | StratLFU s => LFUStrategy.frequencies s = ∅
  | StratFIFO s => FIFOStrategy.insertionOrder s = []
  end.


(** ** Config.ts: the part of the configuration the engine reads *)

Record CacheConfig : Type := {
  maxMemoryMB : Q;
  defaultTTL : Z;
  evictionPolicy : EvictionPolicy
}.

(** [Config.getMaxMemoryBytes()] *)
Definition getMaxMemoryBytes (c : CacheConfig) : Q :=
  (maxMemoryMB c * 1024 * 1024)%Q.

(** The configuration an empty environment gives. *)
Definition defaultConfig : CacheConfig :=
  {| maxMemoryMB := 100; defaultTTL := 3600; evictionPolicy := LRU |}.

(** ** Numbers: IEEE 754 binary64 *)

Module Double.

(** [2^e], also for a negative exponent *)
Definition pow2 (e : Z) : Q := (2 ^ e)%Q.

(** The nearest integer, a tie going to the even one. *)
Definition rne (x : Q) : Z :=
  let f := Qfloor x in
  match (x - inject_Z f ?= 1 # 2)%Q with
  | Lt => f
  | Gt => f + 1
  | Eq => if Z.even f then f else f + 1
  end.

(** [floor (log2 x)] for a positive rational. *)
Definition ilog2 (x : Q) : Z :=
  let l := Z.log2 (Qnum x) - Z.log2 (Zpos (Qden x)) in
  if Qle_bool (pow2 l) x then l else l - 1.

(** The double nearest to a rational: 53 significant bits, none below
    2^-1074 (the subnormal range), a tie going to the even significand.
    Overflow to [Infinity] is not modelled. *)
Definition fl (x : Q) : Q :=
  if Qeq_bool x 0 then 0%Q
  else
    let e := Z.max (ilog2 (Qabs x) - 52) (-1074) in
    (inject_Z (rne (x / pow2 e)) * pow2 e)%Q.

(** [x / y] and [x * y] on doubles *)
Definition div (x y : Q) : Q := fl (x / y).
Definition mul (x y : Q) : Q := fl (x * y).

(** [a + b] on two doubles that hold integers: the sum is an integer too. *)
Definition add_int (a b : Z) : Z := Qfloor (fl (inject_Z (a + b))).

(** The standard library's specification of binary floating point, to
    compare [fl] with it: an integer as a binary64 value, and the rational
    a finite value denotes. *)
Definition spec_of_Z (z : Z) : spec_float := binary_normalize 53 1024 z 0 false.

Definition of_spec (x : spec_float) : Q :=
  match x with
  | S754_finite s m e =>
      ((if s then -1 else 1) * inject_Z (Zpos m) * pow2 e)%Q
  | _ => 0%Q
  end.

End Double.

(** [Math.round]: the nearest integer, a half going up *)
Definition Math_round (q : Q) : Z := Qfloor (q + (1 # 2))%Q.

(** ** CacheEngine.ts *)

Module CacheStats.

Record t : Type := {
  totalKeys : Z;
  memoryUsageBytes : Z;
  memoryUsageMB : Q;
  hitCount : Z;
  missCount : Z;
  hitRate : Q;
  evictionCount : Z;
  expiredCount : Z;
  uptime : Z;
  maxMemoryBytes : Q;
  maxMemoryMB : Q
}.

End CacheStats.

Record CacheSetOptions : Type := {
  opt_ttl : option Z;          (* [options.ttl], [None] when left out *)
  overwrite : option bool      (* [options.overwrite], [None] when left out *)
}.

(** [set(key, value)] called without options: [options = {}] *)
Definition noOptions : CacheSetOptions :=
  {| opt_ttl := None; overwrite := None |}.

(** The private [stats] object of the engine. *)
Record Counters : Type := {
  hitCount : Z;
  missCount : Z;
  evictionCount : Z;
  expiredCount : Z;
  startTime : Z
}.

Module CacheEngine.

Record t : Type := {
  store : JsMap.t CacheEntry;
  evictionStrategy : EvictionStrategy;
  config : CacheConfig;
  stats : Counters
}.

Definition with_store (m : JsMap.t CacheEntry) (e : t) : t :=
  {| store := m; evictionStrategy := evictionStrategy e;
     config := config e; stats := stats e |}.

Definition with_strategy (s : EvictionStrategy) (e : t) : t :=
  {| store := store e; evictionStrategy := s;
     config := config e; stats := stats e |}.

Definition with_stats (c : Counters) (e : t) : t :=
  {| store := store e; evictionStrategy := evictionStrategy e;
     config := config e; stats := c |}.

Definition bump_hit (c : Counters) : Counters :=
  {| hitCount := hitCount c + 1; missCount := missCount c;
     evictionCount := evictionCount c; expiredCount := expiredCount c;
     startTime := startTime c |}.

Definition bump_miss (c : Counters) : Counters :=
  {| hitCount := hitCount c; missCount := missCount c + 1;
     evictionCount := evictionCount c; expiredCount := expiredCount c;
     startTime := startTime c |}.

Definition bump_eviction (c : Counters) : Counters :=
  {| hitCount := hitCount c; missCount := missCount c;
     evictionCount := evictionCount c + 1; expiredCount := expiredCount c;
     startTime := startTime c |}.

Definition add_expired (n : Z) (c : Counters) : Counters :=
  {| hitCount := hitCount c; missCount := missCount c;
     evictionCount := evictionCount c; expiredCount := expiredCount c + n;
     startTime := startTime c |}.

(** [new CacheEngine(evictionPolicy?)] at the instant [now] *)
Definition new (cfg : CacheConfig) (policy : option EvictionPolicy) (now : Z)
    : t :=
  {| store := [];
     evictionStrategy :=
       EvictionPolicyFactory.create
         (match policy with Some p => p | None => evictionPolicy cfg end);
     config := cfg;
     stats := {| hitCount := 0; missCount := 0; evictionCount := 0;
                 expiredCount := 0; startTime := now |} |}.

Definition isValidKey (k : string) : bool :=
  (0 <? Z.of_nat (String.length k)) && (Z.of_nat (String.length k) <=? 512).

Definition calculateValueSize (v : Value) : Z :=
  match v with
  | VNull | VUndefined => 8
  | VString s => byteLength s
  | VNumber _ => 8
  | VBool _ => 1
  | VObject (Some json) => byteLength json
  | VObject None => 100
  end.

Definition calculateMemoryUsage (e : t) : Z :=
  fold_left
    (fun totalBytes (ke : string * CacheEntry) =>
       totalBytes + byteLength (fst ke) + calculateValueSize (value (snd ke))
       + 64)
    (store e) 0.

Definition shouldEvict (e : t) : bool :=
  shouldEvict_of (evictionStrategy e) (calculateMemoryUsage e)
    (getMaxMemoryBytes (config e)).

Definition delete (k : string) (e : t) : bool * t :=
  let (existed, m) := JsMap.delete k (store e) in
  if existed
  then (true, with_strategy (onRemove (evictionStrategy e) k) (with_store m e))
  else (false, with_store m e).

(** The [while] loop of [evictEntries]. [fuel] bounds the number of
    iterations; [evictLoop_fuel] below shows that [maxEvictions] iterations
    are all the loop can make. *)
Fixpoint evictLoop (fuel : nat) (maxEvictions evicted : Z) (e : t) : Z * t :=
  match fuel with
  | O => (evicted, e)
  | S fuel' =>
      if (evicted <? maxEvictions) && shouldEvict e then
        let (victimKey, s) := selectVictim (evictionStrategy e) (store e) in
        let e1 := with_strategy s e in
        match victimKey with
        | None => (evicted, e1)
        | Some EmptyString => (evicted, e1)      (* [!victimKey] *)
        | Some k =>
            let (deleted, e2) := delete k e1 in
            if deleted
            then evictLoop fuel' maxEvictions (evicted + 1)
                   (with_stats (bump_eviction (stats e2)) e2)
            else evictLoop fuel' maxEvictions evicted e2
        end
      else (evicted, e)
  end.

Definition evictEntries (e : t) : bool * t :=
  let maxEvictions := ceil_div (JsMap.size (store e)) 10 in
  let (evicted, e') :=
    evictLoop (Z.to_nat maxEvictions) maxEvictions 0 e in
  ((0 <? evicted) || negb (shouldEvict e'), e').

Definition set (k : string) (v : Value) (options : CacheSetOptions) (now : Z)
    (e : t) : bool * t :=
  if negb (isValidKey k) then (false, e) else
  let existingEntry := JsMap.get k (store e) in
  if defined existingEntry
     && negb (match overwrite options with Some b => b | None => false end)
  then (false, e) else
  let e1 :=
    if defined existingEntry
    then with_strategy (onRemove (evictionStrategy e) k) e
    else e in
  let ttl :=
    match opt_ttl options with
    | Some t => t
    | None => defaultTTL (config e)
    end in
  let entry :=
    Entry.create k v {| ttl := if 0 <? ttl then Some ttl else None |} now in
  let (room, e2) := if shouldEvict e1 then evictEntries e1 else (true, e1) in
  if negb room then (false, e2) else
  let e3 := with_store (JsMap.set k entry (store e2)) e2 in
  (true, with_strategy (onInsert (evictionStrategy e3) k entry) e3).

(** The engine as [set] has it when it asks whether to evict: an existing
    key has been unregistered from the strategy, nothing else has changed. *)
Definition unregistered (k : string) (e : t) : t :=
  if defined (JsMap.get k (store e))
  then with_strategy (onRemove (evictionStrategy e) k) e
  else e.

(** [null] is the value [get] returns for a miss. *)
Definition get (k : string) (now : Z) (e : t) : Value * t :=
  match JsMap.get k (store e) with
  | None => (VNull, with_stats (bump_miss (stats e)) e)
  | Some entry =>
      if Entry.isExpired entry now then
        let (_, e1) := delete k e in
        (VNull, with_stats (add_expired 1 (bump_miss (stats e1))) e1)
      else
        let entry' := Entry.markAccessed entry now in
        let e1 := with_store (JsMap.set k entry' (store e)) e in
        let e2 := with_strategy (onAccess (evictionStrategy e1) k entry') e1 in
        (value entry', with_stats (bump_hit (stats e2)) e2)
  end.

Definition has (k : string) (now : Z) (e : t) : bool * t :=
  match JsMap.get k (store e) with
  | None => (false, e)
  | Some entry =>
      if Entry.isExpired entry now
      then let (_, e1) := delete k e in (false, e1)
      else (true, e)
  end.

Definition keys (now : Z) (e : t) : list string :=
  map fst (filter (fun ke => negb (Entry.isExpired (snd ke) now)) (store e)).

Definition clear (e : t) : t := with_store (JsMap.clear (store e)) e.

Definition size (e : t) : Z := JsMap.size (store e).

Definition cleanupExpired (now : Z) (e : t) : Z * t :=
  let keysToDelete :=
    map fst (filter (fun ke => Entry.isExpired (snd ke) now) (store e)) in
  let e1 := fold_left (fun acc k => snd (delete k acc)) keysToDelete e in
  let expiredCount := Z.of_nat (List.length keysToDelete) in
  if 0 <? expiredCount
  then (expiredCount, with_stats (add_expired expiredCount (stats e1)) e1)
  else (expiredCount, e1).

(** [getStats] assigns to nothing; the engine it returns is the engine it
    was called on. *)
Definition getStats (now : Z) (e : t) : CacheStats.t * t :=
  let memoryUsageBytes := calculateMemoryUsage e in
  let totalOperations := hitCount (stats e) + missCount (stats e) in
  let hitRate : Q :=
    if 0 <? totalOperations
    then Double.div (inject_Z (hitCount (stats e))) (inject_Z totalOperations)
    else 0%Q in
  ({| CacheStats.totalKeys := JsMap.size (store e);
      CacheStats.memoryUsageBytes := memoryUsageBytes;
      CacheStats.memoryUsageMB :=
        Double.div
          (inject_Z (Math_round
             (Double.mul
                (Double.div (inject_Z memoryUsageBytes) (1024 * 1024)) 100)))
          100;
      CacheStats.hitCount := hitCount (stats e);
      CacheStats.missCount := missCount (stats e);
      CacheStats.hitRate :=
        Double.div (inject_Z (Math_round (Double.mul hitRate 10000))) 100;
      CacheStats.evictionCount := evictionCount (stats e);
      CacheStats.expiredCount := expiredCount (stats e);
      CacheStats.uptime := now - startTime (stats e);
      CacheStats.maxMemoryBytes := getMaxMemoryBytes (config e);
      CacheStats.maxMemoryMB := maxMemoryMB (config e) |}, e).

Definition updateTTL (k : string) (newTtl : Z) (now : Z) (e : t) : bool * t :=
  match JsMap.get k (store e) with
  | None => (false, e)
  | Some entry =>
      if Entry.isExpired entry now then (false, e) else
      let newEntry :=
        Entry.create (key entry) (value entry) {| ttl := Some newTtl |} now in
      (true, with_store (JsMap.set k newEntry (store e)) e)
  end.

(** [null] is [None]; [delta] is the explicit second argument. *)
Definition increment (k : string) (delta : Z) (now : Z) (e : t)
    : option Z * t :=
  match JsMap.get k (store e) with
  | None => (None, e)
  | Some entry =>
      if Entry.isExpired entry now then (None, e) else
      match value entry with
      | VNumber currentValue =>
          let newValue := Double.add_int currentValue delta in
          let newEntry :=
            Entry.create k (VNumber newValue)
              {| ttl :=                (* [entry.getRemainingTTL() || undefined] *)
                   match Entry.getRemainingTTL entry now with
                   | Some r => if r =? 0 then None else Some r
                   | None => None
                   end |} now in
          let e1 := with_store (JsMap.set k newEntry (store e)) e in
          (Some newValue,
           with_strategy (onAccess (evictionStrategy e1) k newEntry) e1)
      | _ => (None, e)
      end
  end.

End CacheEngine.


(** ** Vocabulary of the LFU statements *)

(** [k] with entry [e] goes before [k'] with [e'] in LFU order: a lower
    frequency, or the same frequency and a last access that is not later. *)
Definition lfu_before (s : LFUStrategy.t) (k : string) (e : CacheEntry)
    (k' : string) (e' : CacheEntry) : Prop :=
  LFUStrategy.freqOf s k < LFUStrategy.freqOf s k'
  ∨ (LFUStrategy.freqOf s k = LFUStrategy.freqOf s k'
     ∧ lastAccessedAt e ≤ lastAccessedAt e').

(** What the locals of the LFU scan hold once the entries [seen] have been
    visited. *)
Definition scan_inv (s : LFUStrategy.t) (seen : JsMap.t CacheEntry)
    (acc : LFUStrategy.scan) : Prop :=
  match LFUStrategy.victim acc with
  | None =>
      seen = [] ∧ LFUStrategy.minFreq acc = Infinity
      ∧ LFUStrategy.oldestTime acc = Infinity
  | Some k =>
      ∃ e, In (k, e) seen
           ∧ LFUStrategy.minFreq acc = Fin (LFUStrategy.freqOf s k)
           ∧ LFUStrategy.oldestTime acc = Fin (lastAccessedAt e)
           ∧ ∀ k' e', In (k', e') seen → lfu_before s k e k' e'
  end.

(** ** Engines built by the operations, used in the examples below *)

Module Samples.

Local Open Scope string_scope.

(** [set(key, value, { overwrite: true })] *)
Definition overwriting : CacheSetOptions :=
  {| opt_ttl := None; overwrite := Some true |}.

(** [set(key, value, { ttl })] *)
Definition withTTL (t : Z) : CacheSetOptions :=
  {| opt_ttl := Some t; overwrite := None |}.

(** A fresh LRU engine under the default configuration, started at 1000 ms,
    with [set('key1', 'value1')] done. *)
Definition one_key : CacheEngine.t :=
  snd (CacheEngine.set "key1" (VString "value1") noOptions 1000
         (CacheEngine.new defaultConfig (Some LRU) 1000)).

(** A ceiling of 128 bytes: [maxMemoryMB = 1/8192]. *)
Definition tinyConfig : CacheConfig :=
  {| maxMemoryMB := 1 # 8192; defaultTTL := 3600; evictionPolicy := LRU |}.

Definition sixtyFour : string :=
  "0123456789abcdef0123456789abcdef0123456789abcdef0123456789abcdef".

(** An LRU engine under the 128-byte ceiling holding one entry of
    1 + 64 + 64 = 129 bytes. *)
Definition full : CacheEngine.t :=
  snd (CacheEngine.set "a" (VString sixtyFour) noOptions 1000
         (CacheEngine.new tinyConfig (Some LRU) 1000)).

(** [full] after [set('a', 'x', { overwrite: true })] at 2000 ms. *)
Definition after_refused_overwrite : CacheEngine.t :=
  snd (CacheEngine.set "a" (VString "x") overwriting 2000 full).

(** An LRU engine holding the number 10 under [counter] with a TTL of one
    second, set at 1000 ms: the entry expires after 2000 ms. *)
Definition short_lived : CacheEngine.t :=
  snd (CacheEngine.set "counter" (VNumber 10) (withTTL 1) 1000
         (CacheEngine.new defaultConfig (Some LRU) 1000)).

(** The strategy and the store of the test "should evict least frequently
    used item": three keys inserted, [key1] accessed twice, [key3] once. *)
Definition three_entries : JsMap.t CacheEntry :=
  [("key1", Entry.create "key1" (VString "value1") {| ttl := None |} 1000);
   ("key2", Entry.create "key2" (VString "value2") {| ttl := None |} 1000);
   ("key3", Entry.create "key3" (VString "value3") {| ttl := None |} 1000)].

Definition lfu_three : LFUStrategy.t :=
  let e := Entry.create "" VNull {| ttl := None |} 1000 in
  let s1 := LFUStrategy.onInsert LFUStrategy.new "key1" e in
  let s2 := LFUStrategy.onInsert s1 "key2" e in
  let s3 := LFUStrategy.onInsert s2 "key3" e in
  let s4 := LFUStrategy.onAccess s3 "key1" e in
  let s5 := LFUStrategy.onAccess s4 "key1" e in
  LFUStrategy.onAccess s5 "key3" e.

(** [Samples.one_key] after [get('key1')] twice and [get('nonexistent')]. *)
Definition two_hits_one_miss : CacheEngine.t :=
  snd (CacheEngine.get "nonexistent" 1003
         (snd (CacheEngine.get "key1" 1002
                 (snd (CacheEngine.get "key1" 1001 one_key))))).

(** An empty engine whose counters stand at [h] hits and [m] misses. *)
Definition counted (h m : Z) : CacheEngine.t :=
  CacheEngine.with_stats
    {| hitCount := h; missCount := m; evictionCount := 0; expiredCount := 0;
       startTime := 1000 |}
    (CacheEngine.new defaultConfig None 1000).

(** An LRU access order whose front key is stale. *)
Definition lru_stale_front : EvictionStrategy :=
  StratLRU {| LRUStrategy.accessOrder := ["gone"; "key2"; "key1"] |}.

End Samples.

(** ** Vocabulary of the store statements *)

(** What a [Map] filled by the engine satisfies: no key twice, and every
    entry carries the key it is stored under. *)
Definition store_wf (m : JsMap.t CacheEntry) : Prop :=
  List.NoDup (map fst m) ∧ Forall (λ ke, key (snd ke) = fst ke) m.

(** The entries of a store that are live at an instant, in store order. *)
Definition live_entries (now : Z) (m : JsMap.t CacheEntry)
    : JsMap.t CacheEntry :=
  filter (λ ke, negb (Entry.isExpired (snd ke) now)) m.

(** No counter of [c'] is below the one of [c]. *)
Definition counters_le (c c' : Counters) : Prop :=
  hitCount c ≤ hitCount c' ∧ missCount c ≤ missCount c'
  ∧ evictionCount c ≤ evictionCount c' ∧ expiredCount c ≤ expiredCount c'
  ∧ startTime c = startTime c'.

(** The bookkeeping of a strategy covers a key: the NONE policy keeps no
    bookkeeping, the others mention the key. *)
Definition covers (s : EvictionStrategy) (k : string) : Prop :=
  policy_of s = NONE ∨ tracked s k.

(** Store and strategy are in step: every stored key is a non-empty string
    that the bookkeeping covers. *)
Definition in_sync (e : CacheEngine.t) : Prop :=
  ∀ k, JsMap.has k (CacheEngine.store e) = true →
       k ≠ EmptyString ∧ covers (CacheEngine.evictionStrategy e) k.

(** ** api/middleware.ts: [rateLimiter] *)

Module RateLimiter.

(** The value kept per client in the [requests] map. *)
Record ClientWindow : Type := { count : Z; resetTime : Z }.

Definition WINDOW_MS : Z := 60000.
Definition MAX_REQUESTS : Z := 1000.

(** [next()] or the 429 response *)
Inductive Outcome : Type :=
  | Next
  | TooManyRequests.

(** [req.ip || 'unknown'] *)
Definition clientIdOf (ip : option string) : string :=
  match ip with
  | Some (String c rest) => String c rest
  | _ => "unknown"
  end.

(** One request through the middleware at the instant [now]. *)
Definition rateLimiter (ip : option string) (now : Z)
    (requests : gmap string ClientWindow)
    : Outcome * gmap string ClientWindow :=
  let clientId := clientIdOf ip in
  match requests !! clientId with
  | None =>
      (Next,
       <[clientId := {| count := 1; resetTime := now + WINDOW_MS |}]> requests)
  | Some client =>
      if resetTime client <? now then
        (Next,
         <[clientId := {| count := 1; resetTime := now + WINDOW_MS |}]>
           requests)
      else if MAX_REQUESTS <=? count client then (TooManyRequests, requests)
      else
        (Next,
         <[clientId := {| count := count client + 1;
                          resetTime := resetTime client |}]> requests)
  end.

(** How many requests of the client [id] a sequence of requests, each with
    the address it comes from and the instant it arrives, gets through. *)
Fixpoint passed (id : string) (reqs : list (option string * Z))
    (requests : gmap string ClientWindow) : Z :=
  match reqs with
  | [] => 0
  | (ip, now) :: rest =>
      let (outcome, requests') := rateLimiter ip now requests in
      (if String.eqb (clientIdOf ip) id
       then match outcome with Next => 1 | TooManyRequests => 0 end
       else 0)
      + passed id rest requests'
  end.

End RateLimiter.

(** ** utils/Config.ts: the configuration object, its check and its update *)

Module Config.

Record CacheConfig : Type := {
  maxMemoryMB : Q;
  defaultTTL : Z;
  cleanupIntervalMs : Z;
  evictionPolicy : string;       (* the environment may hold any string *)
  persistenceEnabled : bool;
  persistenceIntervalMs : Z;
  snapshotPath : string;
  aofPath : string;
  port : Z;
  host : string;
  clusterEnabled : bool;
  logLevel : string
}.

(** [Partial<CacheConfig>]: a field is [None] when the update leaves it out *)
Record Partial : Type := {
  p_maxMemoryMB : option Q;
  p_defaultTTL : option Z;
  p_cleanupIntervalMs : option Z;
  p_evictionPolicy : option string;
  p_persistenceEnabled : option bool;
  p_persistenceIntervalMs : option Z;
  p_snapshotPath : option string;
  p_aofPath : option string;
  p_port : option Z;
  p_host : option string;
  p_clusterEnabled : option bool;
  p_logLevel : option string
}.

Definition nothing : Partial :=
  {| p_maxMemoryMB := None; p_defaultTTL := None; p_cleanupIntervalMs := None;
     p_evictionPolicy := None; p_persistenceEnabled := None;
     p_persistenceIntervalMs := None; p_snapshotPath := None;
     p_aofPath := None; p_port := None; p_host := None;
     p_clusterEnabled := None; p_logLevel := None |}.

(** [{ ...this.config, ...updates }] *)
Definition merge (c : CacheConfig) (u : Partial) : CacheConfig :=
  {| maxMemoryMB := default (maxMemoryMB c) (p_maxMemoryMB u);
     defaultTTL := default (defaultTTL c) (p_defaultTTL u);
     cleanupIntervalMs := default (cleanupIntervalMs c) (p_cleanupIntervalMs u);
     evictionPolicy := default (evictionPolicy c) (p_evictionPolicy u);
     persistenceEnabled :=
       default (persistenceEnabled c) (p_persistenceEnabled u);
     persistenceIntervalMs :=
       default (persistenceIntervalMs c) (p_persistenceIntervalMs u);
     snapshotPath := default (snapshotPath c) (p_snapshotPath u);
     aofPath := default (aofPath c) (p_aofPath u);
     port := default (port c) (p_port u);
     host := default (host c) (p_host u);
     clusterEnabled := default (clusterEnabled c) (p_clusterEnabled u);
     logLevel := default (logLevel c) (p_logLevel u) |}.

(** [Object.values(EvictionPolicy).includes(policy)] *)
Definition knownPolicy (policy : string) : bool :=
  existsb (String.eqb policy) ["none"; "lru"; "lfu"; "fifo"].

(** [validateConfig]: [Some message] is the error it throws, [None] a
    normal return. *)
Definition validateConfig (c : CacheConfig) : option string :=
  if Qle_bool (maxMemoryMB c) 0 then Some "maxMemoryMB must be greater than 0"
  else if defaultTTL c <? 0 then Some "defaultTTL must be non-negative"
  else if cleanupIntervalMs c <=? 0
       then Some "cleanupIntervalMs must be greater than 0"
  else if negb (knownPolicy (evictionPolicy c))
       then Some (String.append "Invalid eviction policy: " (evictionPolicy c))
  else if (port c <? 1) || (65535 <? port c)
       then Some "Port must be between 1 and 65535"
  else None.

(** [update]: the merged object is assigned before it is checked. *)
Definition update (u : Partial) (c : CacheConfig) : option string * CacheConfig :=
  let c' := merge c u in
  (validateConfig c', c').

Definition getMaxMemoryBytes (c : CacheConfig) : Q :=
  (maxMemoryMB c * 1024 * 1024)%Q.

(** The values the constructor takes when the environment sets none. *)
Definition defaults : CacheConfig :=
  {| maxMemoryMB := 100; defaultTTL := 3600; cleanupIntervalMs := 60000;
     evictionPolicy := "lru"; persistenceEnabled := false;
     persistenceIntervalMs := 300000; snapshotPath := "./data/snapshot.json";
     aofPath := "./data/cache.aof"; port := 3000; host := "0.0.0.0";
     clusterEnabled := false; logLevel := "info" |}.

End Config.

(** ** workers/CleanupWorker.ts *)

(** The interval timers of the runtime: the handles that are running, each
    with its period, and the next handle [setInterval] hands out. *)
Record Timers : Type := { active : list (nat * Z); nextHandle : nat }.

Definition noTimers : Timers := {| active := []; nextHandle := 0 |}.

Definition setInterval (ms : Z) (tm : Timers) : nat * Timers :=
  (nextHandle tm,
   {| active := active tm ++ [(nextHandle tm, ms)];
      nextHandle := S (nextHandle tm) |}).

Definition clearInterval (h : nat) (tm : Timers) : Timers :=
  {| active := List.filter (λ t, negb (Nat.eqb (fst t) h)) (active tm);
     nextHandle := nextHandle tm |}.

Module CleanupWorker.

(** The private [stats] object of the worker. *)
Record Counters : Type := {
  totalRuns : Z;
  totalExpiredKeys : Z;
  lastRunTime : Z;
  averageRunDuration : Z
}.

Record CleanupResult : Type := {
  success : bool;
  expiredKeysRemoved : Z;
  duration : Z;
  timestamp : Z;
  error : option string
}.

Record CleanupStats : Type := {
  s_totalRuns : Z;
  s_totalExpiredKeys : Z;
  s_lastRunTime : Z;
  s_averageRunDuration : Z;
  s_isRunning : bool;
  s_cleanupInterval : Z;
  s_nextRunIn : Z
}.

(** The worker without the engine it points to: the engine is shared, so
    the operations that use it take it and give it back. *)
Record t : Type := {
  config : Config.CacheConfig;       (* the copy taken at construction *)
  intervalId : option nat;
  isRunning : bool;
  stats : Counters
}.

Definition new (cfg : Config.CacheConfig) : t :=
  {| config := cfg; intervalId := None; isRunning := false;
     stats := {| totalRuns := 0; totalExpiredKeys := 0; lastRunTime := 0;
                 averageRunDuration := 0 |} |}.

Definition start (w : t) (tm : Timers) : t * Timers :=
  if isRunning w then (w, tm) else
  let (h, tm') := setInterval (Config.cleanupIntervalMs (config w)) tm in
  ({| config := config w; intervalId := Some h; isRunning := true;
      stats := stats w |}, tm').

Definition stop (w : t) (tm : Timers) : t * Timers :=
  if negb (isRunning w) then (w, tm) else
  let tm' :=
    match intervalId w with
    | Some h => clearInterval h tm
    | None => tm
    end in
  ({| config := config w; intervalId := None; isRunning := false;
      stats := stats w |}, tm').

Definition isWorkerRunning (w : t) : bool := isRunning w.

Definition updateStats (expiredCount duration now : Z) (w : t) : t :=
  let runs := totalRuns (stats w) + 1 in
  {| config := config w; intervalId := intervalId w; isRunning := isRunning w;
     stats :=
       {| totalRuns := runs;
          totalExpiredKeys := totalExpiredKeys (stats w) + expiredCount;
          lastRunTime := now;
          averageRunDuration :=
            Math_round
              (inject_Z (averageRunDuration (stats w) * (runs - 1) + duration)
               / inject_Z runs) |} |}.

(** [performCleanup]: the clock reads [startTime] before and during the
    sweep and [endTime] after it. The sweep of the model throws nothing, so
    the [catch] branch is not taken. *)
Definition performCleanup (startTime endTime : Z) (engine : CacheEngine.t)
    (w : t) : CleanupResult * CacheEngine.t * t :=
  let (expiredCount, engine') := CacheEngine.cleanupExpired startTime engine in
  let duration := endTime - startTime in
  ({| success := true; expiredKeysRemoved := expiredCount;
      duration := duration; timestamp := startTime; error := None |},
   engine', updateStats expiredCount duration endTime w).

Definition forceCleanup := performCleanup.

Definition getNextRunTime (now : Z) (w : t) : Z :=
  if negb (isRunning w) || (lastRunTime (stats w) =? 0) then 0
  else Z.max 0
         (lastRunTime (stats w) + Config.cleanupIntervalMs (config w) - now).

Definition getStats (now : Z) (w : t) : CleanupStats :=
  {| s_totalRuns := totalRuns (stats w);
     s_totalExpiredKeys := totalExpiredKeys (stats w);
     s_lastRunTime := lastRunTime (stats w);
     s_averageRunDuration := averageRunDuration (stats w);
     s_isRunning := isRunning w;
     s_cleanupInterval := Config.cleanupIntervalMs (config w);
     s_nextRunIn := getNextRunTime now w |}.

(** [updateInterval]: the first component is the error thrown, if any;
    [global] is the configuration singleton. *)
Definition updateInterval (intervalMs : Z) (global : Config.CacheConfig)
    (w : t) (tm : Timers)
    : option string * Config.CacheConfig * t * Timers :=
  if intervalMs <=? 0
  then (Some "Cleanup interval must be greater than 0", global, w, tm) else
  let wasRunning := isRunning w in
  let (w1, tm1) := if wasRunning then stop w tm else (w, tm) in
  let (thrown, global') :=
    Config.update
      {| Config.p_maxMemoryMB := None; Config.p_defaultTTL := None;
         Config.p_cleanupIntervalMs := Some intervalMs;
         Config.p_evictionPolicy := None; Config.p_persistenceEnabled := None;
         Config.p_persistenceIntervalMs := None; Config.p_snapshotPath := None;
         Config.p_aofPath := None; Config.p_port := None;
         Config.p_host := None; Config.p_clusterEnabled := None;
         Config.p_logLevel := None |} global in
  match thrown with
  | Some message => (Some message, global', w1, tm1)
  | None =>
      let w2 := {| config := global'; intervalId := intervalId w1;
                   isRunning := isRunning w1; stats := stats w1 |} in
      let (w3, tm3) := if wasRunning then start w2 tm1 else (w2, tm1) in
      (None, global', w3, tm3)
  end.

(** The worker and the timer table agree: a running worker owns the one
    running timer, whose period is the configured interval; a stopped
    worker owns none. *)
Definition timers_agree (w : t) (tm : Timers) : Prop :=
  if isRunning w
  then ∃ h, intervalId w = Some h
            ∧ active tm = [(h, Config.cleanupIntervalMs (config w))]
  else intervalId w = None ∧ active tm = [].

End CleanupWorker.

(** ** monitoring/StatsCollector.ts *)

(** [x > y] and [x < y] on rationals *)
Definition Qgtb (x y : Q) : bool := negb (Qle_bool x y).
Definition Qltb (x y : Q) : bool := negb (Qle_bool y x).

(** [Math.max] on rationals *)
Definition Qmax_js (x y : Q) : Q := if Qle_bool x y then y else x.

(** [hay.includes(needle)] *)
Definition includes (needle hay : string) : bool :=
  defined (String.index 0 needle hay).

Module StatsCollector.

(** One element of [performanceHistory]. *)
Record Sample : Type := { timestamp : Z; operations : Z; memoryMB : Q }.

Definition HISTORY_LIMIT : nat := 60.

(** The collector without the engine and the worker it points to. *)
Record t : Type := {
  config : Config.CacheConfig;
  performanceHistory : list Sample;
  startTime : Z;
  peakMemoryUsage : Q;
  peakOpsPerSecond : Q
}.

Definition new (cfg : Config.CacheConfig) (now : Z) : t :=
  {| config := cfg; performanceHistory := []; startTime := now;
     peakMemoryUsage := 0; peakOpsPerSecond := 0 |}.

Record PerformanceStats : Type := {
  operationsPerSecond : Q;
  averageResponseTime : Q;
  p_peakMemoryUsage : Q;
  peakOperationsPerSecond : Q
}.

(** [process.memoryUsage()], the two fields the collector reads *)
Record MemoryUsage : Type := { heapUsed : Z; heapTotal : Z }.

Inductive Status : Type :=
  | healthy
  | warning
  | critical.

Record Metrics : Type := {
  cacheMemoryPercent : Q;
  systemMemoryPercent : Q;
  m_hitRate : Q;
  m_operationsPerSecond : Q
}.

Record HealthStatus : Type := {
  status : Status;
  uptime : Z;
  issues : list string;
  metrics : Metrics
}.

(** The callback of [startPerformanceTracking], run once a second. *)
Definition track (now : Z) (engine : CacheEngine.t) (c : t) : t :=
  let cacheStats := fst (CacheEngine.getStats now engine) in
  let totalOperations :=
    CacheStats.hitCount cacheStats + CacheStats.missCount cacheStats in
  let entry :=
    {| timestamp := now; operations := totalOperations;
       memoryMB := CacheStats.memoryUsageMB cacheStats |} in
  let pushed := performanceHistory c ++ [entry] in
  {| config := config c;
     performanceHistory :=
       if (HISTORY_LIMIT <? List.length pushed)%nat then tail pushed
       else pushed;
     startTime := startTime c;
     peakMemoryUsage := peakMemoryUsage c;
     peakOpsPerSecond := peakOpsPerSecond c |}.

(** [a.slice(-10)] *)
Definition last10 {A} (a : list A) : list A :=
  skipn (List.length a - 10) a.

Definition calculateAverageResponseTime (c : t) : Q := 1 # 2.

Definition getPerformanceStats (c : t) : PerformanceStats * t :=
  let recentHistory := last10 (performanceHistory c) in
  match recentHistory with
  | [] =>
      ({| operationsPerSecond := 0; averageResponseTime := 0;
          p_peakMemoryUsage := peakMemoryUsage c;
          peakOperationsPerSecond := peakOpsPerSecond c |}, c)
  | _ =>
      let totalOps :=
        fold_left (λ sum entry, sum + operations entry) recentHistory 0 in
      let timeSpanSeconds := Z.of_nat (List.length recentHistory) in
      let opsPerSecond :=
        Double.div (inject_Z totalOps) (inject_Z timeSpanSeconds) in
      let peak := Qmax_js (peakOpsPerSecond c) opsPerSecond in
      ({| operationsPerSecond :=
            Double.div (inject_Z (Math_round (Double.mul opsPerSecond 100)))
              100;
          averageResponseTime := calculateAverageResponseTime c;
          p_peakMemoryUsage := peakMemoryUsage c;
          peakOperationsPerSecond := peak |},
       {| config := config c; performanceHistory := performanceHistory c;
          startTime := startTime c; peakMemoryUsage := peakMemoryUsage c;
          peakOpsPerSecond := peak |})
  end.

Definition getHealthStatus (now : Z) (memoryUsage : MemoryUsage)
    (engine : CacheEngine.t) (c : t) : HealthStatus * t :=
  let cacheStats := fst (CacheEngine.getStats now engine) in
  let (performance, c') := getPerformanceStats c in
  let memoryUsagePercent :=
    Double.mul
      (Double.div (CacheStats.memoryUsageMB cacheStats)
         (Config.maxMemoryMB (config c)))
      100 in
  let systemMemoryPercent :=
    Double.mul
      (Double.div (inject_Z (heapUsed memoryUsage))
         (inject_Z (heapTotal memoryUsage)))
      100 in
  let issues0 : list string :=
    if Qgtb memoryUsagePercent 90
    then ["Cache memory usage critically high"]
    else if Qgtb memoryUsagePercent 75 then ["Cache memory usage high"]
    else [] in
  let issues1 :=
    if Qgtb systemMemoryPercent 85
    then issues0 ++ ["System memory usage high"] else issues0 in
  let issues2 :=
    if Qltb (CacheStats.hitRate cacheStats) 50
    then issues1 ++ ["Low cache hit rate"] else issues1 in
  let issues3 :=
    if Qltb (operationsPerSecond performance) 10
       && (100 <? CacheStats.hitCount cacheStats
                  + CacheStats.missCount cacheStats)
    then issues2 ++ ["Low operations per second"] else issues2 in
  ({| status :=
        match issues3 with
        | [] => healthy
        | _ => if existsb (includes "critically") issues3 then critical
               else warning
        end;
      uptime := now - startTime c;
      issues := issues3;
      metrics :=
        {| cacheMemoryPercent :=
             Double.div
               (inject_Z (Math_round (Double.mul memoryUsagePercent 100))) 100;
           systemMemoryPercent :=
             Double.div
               (inject_Z (Math_round (Double.mul systemMemoryPercent 100))) 100;
           m_hitRate := CacheStats.hitRate cacheStats;
           m_operationsPerSecond := operationsPerSecond performance |} |},
   c').

End StatsCollector.

(** ** api/controllers.ts: the batch lookup *)

Module CacheController.

(** One element of [results] in [batchGet]. *)
Record BatchGetResult : Type := {
  r_key : string;
  r_value : Value;
  found : bool
}.

(** The [data] of the response of [batchGet]. *)
Record BatchGetData : Type := {
  results : list BatchGetResult;
  total : Z;
  foundCount : Z;         (* the field [found] of the response *)
  missed : Z
}.

(** The [for (const key of keys)] loop: each key comes with the instant at
    which its lookup reads the clock. *)
Fixpoint lookupAll (keys : list (string * Z)) (engine : CacheEngine.t)
    : list BatchGetResult * CacheEngine.t :=
  match keys with
  | [] => ([], engine)
  | (k, now) :: rest =>
      let (v, engine1) := CacheEngine.get k now engine in
      let (results, engine2) := lookupAll rest engine1 in
      ({| r_key := k; r_value := v;
          found := match v with VNull => false | _ => true end |}   (* [value !== null] *)
       :: results, engine2)
  end.

(** [batchGet] for a request body whose [keys] is an array. *)
Definition batchGet (keys : list (string * Z)) (engine : CacheEngine.t)
    : BatchGetData * CacheEngine.t :=
  let (results, engine') := lookupAll keys engine in
  let foundCount := Z.of_nat (List.length (List.filter found results)) in
  ({| results := results;
      total := Z.of_nat (List.length keys);
      foundCount := foundCount;
      missed := Z.of_nat (List.length keys) - foundCount |}, engine').

End CacheController.

(** ** More engines for the examples *)

Module MoreSamples.

Local Open Scope string_scope.

(** An LRU engine with one entry that expires after 2000 ms and one that
    never expires. *)
Definition mixed : CacheEngine.t :=
  snd (CacheEngine.set "keep" (VString "k") (Samples.withTTL 0) 1000
         (snd (CacheEngine.set "temp" (VString "t") (Samples.withTTL 1) 1000
                 (CacheEngine.new defaultConfig (Some LRU) 1000)))).

(** A fresh engine without eviction. *)
Definition unbounded : CacheEngine.t :=
  CacheEngine.new defaultConfig (Some NONE) 1000.

End MoreSamples.

(** * Properties *)

(** ** Rounding to the nearest double *)

Section DoubleFacts.

Import Double.

Lemma pow2_pos e : (0 < pow2 e)%Q.
Proof. unfold pow2. by apply Qpower_0_lt. Qed.

Lemma pow2_add a b : (pow2 (a + b) == pow2 a * pow2 b)%Q.
Proof. unfold pow2. by apply Qpower_plus. Qed.

Lemma pow2_Z n : 0 ≤ n → (pow2 n == inject_Z (2 ^ n))%Q.
Proof. intros Hn. unfold pow2. symmetry. by apply (Zpower_Qpower 2). Qed.

Lemma pow2_ge_1 n : 0 ≤ n → (1 <= pow2 n)%Q.
Proof.
  intros Hn. rewrite (pow2_Z n Hn).
  change 1%Q with (inject_Z 1). rewrite <- Zle_Qle.
  pose proof (Z.pow_pos_nonneg 2 n). lia.
Qed.

Lemma pow2_le a b : a ≤ b → (pow2 a <= pow2 b)%Q.
Proof. intros Hab. unfold pow2. by apply Qpower_le_compat_l. Qed.

Lemma pow2_lt_inv a b : (pow2 a < pow2 b)%Q → a < b.
Proof. intros Hlt. by apply (Qpower_lt_compat_l_inv 2). Qed.

Lemma pow2_half e : ((1 # 2) * pow2 e == pow2 (e - 1))%Q.
Proof.
  replace e with ((e - 1) + 1) at 1 by lia. rewrite pow2_add.
  change (pow2 1) with 2%Q. field.
Qed.

Lemma rne_near x : (Qabs (inject_Z (rne x) - x) <= 1 # 2)%Q.
Proof.
  unfold rne.
  pose proof (Qfloor_le x) as Hle. pose proof (Qlt_floor x) as Hlt.
  rewrite inject_Z_plus in Hlt. change (inject_Z 1) with 1%Q in Hlt.
  destruct (Qcompare (x - inject_Z (Qfloor x)) (1 # 2)) eqn:Hc.
  - apply (proj2 (Qeq_alt _ _)) in Hc.
    destruct (Z.even (Qfloor x)); [|rewrite inject_Z_plus;
      change (inject_Z 1) with 1%Q]; apply Qabs_Qle_condition; split; lra.
  - apply (proj2 (Qlt_alt _ _)) in Hc. apply Qabs_Qle_condition; split; lra.
  - apply (proj2 (Qgt_alt _ _)) in Hc. rewrite inject_Z_plus. change (inject_Z 1) with 1%Q.
    apply Qabs_Qle_condition; split; lra.
Qed.

Lemma rne_comp x y : (x == y)%Q → rne x = rne y.
Proof.
  intros Heq. unfold rne. rewrite (Qfloor_comp _ _ Heq).
  assert ((x - inject_Z (Qfloor y) ?= 1 # 2)
          = (y - inject_Z (Qfloor y) ?= 1 # 2))%Q as ->; [|done].
  apply Qcompare_comp; [by rewrite Heq|done].
Qed.

Lemma rne_Z n : rne (inject_Z n) = n.
Proof.
  unfold rne. rewrite Qfloor_Z.
  assert (Qcompare (inject_Z n - inject_Z n) (1 # 2) = Lt) as ->; [|done].
  apply (proj1 (Qlt_alt _ _)).
  assert (inject_Z n - inject_Z n == 0)%Q as -> by ring. done.
Qed.

Lemma ilog2_lt x k : (0 < x)%Q → (x < pow2 k)%Q → ilog2 x < k.
Proof.
  intros Hpos Hlt. destruct x as [p q]. unfold ilog2. cbn [Qnum Qden].
  set (a := Z.log2 p). set (b := Z.log2 (Z.pos q)).
  destruct (Qle_bool (pow2 (a - b)) (p # q)) eqn:Hc.
  - apply Qle_bool_iff in Hc. apply pow2_lt_inv. lra.
  - destruct (Z_lt_le_dec (a - b - 1) k) as [|Hle]; [done|]. exfalso.
    apply pow2_le in Hle.
    assert (pow2 (a - b - 1) < p # q)%Q; [|lra].
    assert (0 < p) as Hp.
    { unfold Qlt in Hpos. simpl in Hpos. lia. }
    pose proof (Z.log2_spec p Hp) as [Ha1 Ha2].
    pose proof (Z.log2_spec (Z.pos q) (Pos2Z.is_pos q)) as [Hb1 Hb2].
    pose proof (Z.log2_nonneg p) as Ha0.
    pose proof (Z.log2_nonneg (Z.pos q)) as Hb0.
    fold a in Ha1, Ha2, Ha0. fold b in Hb1, Hb2, Hb0.
    assert (pow2 (a - b - 1) * pow2 (b + 1) == pow2 a)%Q as Hsplit.
    { rewrite <- pow2_add.
      replace (a - b - 1 + (b + 1)) with a by lia. reflexivity. }
    rewrite (pow2_Z a Ha0), (pow2_Z (b + 1)) in Hsplit by lia.
    pose proof (pow2_pos (a - b - 1)) as Hl0.
    assert (inject_Z (2 ^ a) <= inject_Z p)%Q as HA by by rewrite <- Zle_Qle.
    assert (inject_Z (Z.pos q) < inject_Z (2 ^ (b + 1)))%Q as HB.
    { rewrite <- Zlt_Qlt. unfold Z.succ in Hb2. lia. }
    assert (0 < inject_Z (Z.pos q))%Q as Hq0.
    { change 0%Q with (inject_Z 0). by rewrite <- Zlt_Qlt. }
    assert (p # q == inject_Z p / inject_Z (Z.pos q))%Q as -> by apply Qmake_Qdiv.
    apply Qlt_shift_div_l; [done|].
    nra.
Qed.

Lemma Qabs_pos_ne x : ¬ (x == 0)%Q → (0 < Qabs x)%Q.
Proof.
  intros Hne. destruct (Q_dec x 0) as [[Hlt|Hgt]|Heq]; [| |done].
  - rewrite Qabs_neg by lra. lra.
  - rewrite Qabs_pos by lra. lra.
Qed.

Lemma fl_0 x : (x == 0)%Q → fl x = 0%Q.
Proof.
  intros H. unfold fl.
  by destruct (Qeq_bool x 0) eqn:E; [|apply Qeq_bool_neq in E].
Qed.

(** The rounding error is at most half a unit in the last place. *)
Lemma fl_error x k :
  (Qabs x < pow2 k)%Q → -1021 ≤ k → (Qabs (fl x - x) <= pow2 (k - 54))%Q.
Proof.
  intros Hlt Hk. unfold fl.
  destruct (Qeq_bool x 0) eqn:E.
  - apply Qeq_bool_iff in E. rewrite E.
    pose proof (pow2_pos (k - 54)).
    apply Qabs_Qle_condition. split; lra.
  - apply Qeq_bool_neq in E.
    pose proof (Qabs_pos_ne x E) as Hpos.
    pose proof (ilog2_lt _ _ Hpos Hlt) as Hlog.
    set (e := Z.max (ilog2 (Qabs x) - 52) (-1074)).
    assert (e ≤ k - 53) as He by (unfold e; lia).
    pose proof (pow2_pos e) as He0.
    pose proof (rne_near (x / pow2 e)) as Hr.
    assert (inject_Z (rne (x / pow2 e)) * pow2 e - x
            == (inject_Z (rne (x / pow2 e)) - x / pow2 e) * pow2 e)%Q as ->.
    { field. lra. }
    rewrite Qabs_Qmult, (Qabs_pos (pow2 e)) by lra.
    assert (pow2 (e - 1) <= pow2 (k - 54))%Q as Hmono by (apply pow2_le; lia).
    rewrite <- pow2_half in Hmono.
    pose proof (Qabs_nonneg (inject_Z (rne (x / pow2 e)) - x / pow2 e)).
    nra.
Qed.

(** Integers below 2^53 in magnitude are doubles. *)
Lemma fl_int z : Z.abs z < 2 ^ 53 → (fl (inject_Z z) == inject_Z z)%Q.
Proof.
  intros Hz. unfold fl.
  destruct (Qeq_bool (inject_Z z) 0) eqn:E.
  - apply Qeq_bool_iff in E. by rewrite E.
  - apply Qeq_bool_neq in E.
    pose proof (Qabs_pos_ne _ E) as Hpos.
    assert (Qabs (inject_Z z) < pow2 53)%Q as Hlt.
    { rewrite (pow2_Z 53) by lia.
      assert (Qabs (inject_Z z) == inject_Z (Z.abs z))%Q as -> by done.
      by rewrite <- Zlt_Qlt. }
    pose proof (ilog2_lt _ _ Hpos Hlt) as Hlog.
    set (e := Z.max (ilog2 (Qabs (inject_Z z)) - 52) (-1074)).
    assert (e ≤ 0) as He by (unfold e; lia).
    assert (pow2 (- e) == / pow2 e)%Q as Hinv
      by (unfold pow2; apply Qpower_opp).
    pose proof (pow2_pos e) as He0.
    assert (inject_Z z / pow2 e == inject_Z (z * 2 ^ (- e)))%Q as Hint.
    { rewrite inject_Z_mult, <- (pow2_Z (- e)), Hinv by lia. reflexivity. }
    rewrite (rne_comp _ _ Hint), rne_Z, inject_Z_mult, <- (pow2_Z (- e)), Hinv
      by lia.
    field. lra.
Qed.

Lemma ilog2_le x : (0 < x)%Q → (pow2 (ilog2 x) <= x)%Q.
Proof.
  intros Hpos. destruct x as [p q]. unfold ilog2. cbn [Qnum Qden].
  set (a := Z.log2 p). set (b := Z.log2 (Z.pos q)).
  destruct (Qle_bool (pow2 (a - b)) (p # q)) eqn:Hc.
  - by apply Qle_bool_iff in Hc.
  - assert (0 < p) as Hp.
    { unfold Qlt in Hpos. simpl in Hpos. lia. }
    pose proof (Z.log2_spec p Hp) as [Ha1 Ha2].
    pose proof (Z.log2_spec (Z.pos q) (Pos2Z.is_pos q)) as [Hb1 Hb2].
    pose proof (Z.log2_nonneg p) as Ha0.
    pose proof (Z.log2_nonneg (Z.pos q)) as Hb0.
    fold a in Ha1, Ha2, Ha0. fold b in Hb1, Hb2, Hb0.
    assert (pow2 (a - b - 1) * pow2 (b + 1) == pow2 a)%Q as Hsplit.
    { rewrite <- pow2_add.
      replace (a - b - 1 + (b + 1)) with a by lia. reflexivity. }
    rewrite (pow2_Z a Ha0), (pow2_Z (b + 1)) in Hsplit by lia.
    pose proof (pow2_pos (a - b - 1)) as Hl0.
    assert (inject_Z (2 ^ a) <= inject_Z p)%Q as HA by by rewrite <- Zle_Qle.
    assert (inject_Z (Z.pos q) < inject_Z (2 ^ (b + 1)))%Q as HB.
    { rewrite <- Zlt_Qlt. unfold Z.succ in Hb2. lia. }
    assert (0 < inject_Z (Z.pos q))%Q as Hq0.
    { change 0%Q with (inject_Z 0). by rewrite <- Zlt_Qlt. }
    assert (p # q == inject_Z p / inject_Z (Z.pos q))%Q as -> by apply Qmake_Qdiv.
    apply Qle_shift_div_l; [done|].
    nra.
Qed.

Lemma ilog2_gt x : (0 < x)%Q → (x < pow2 (ilog2 x + 1))%Q.
Proof.
  intros Hpos. destruct x as [p q]. unfold ilog2. cbn [Qnum Qden].
  set (a := Z.log2 p). set (b := Z.log2 (Z.pos q)).
  destruct (Qle_bool (pow2 (a - b)) (p # q)) eqn:Hc.
  - assert (0 < p) as Hp.
    { unfold Qlt in Hpos. simpl in Hpos. lia. }
    pose proof (Z.log2_spec p Hp) as [Ha1 Ha2].
    pose proof (Z.log2_spec (Z.pos q) (Pos2Z.is_pos q)) as [Hb1 Hb2].
    pose proof (Z.log2_nonneg p) as Ha0.
    pose proof (Z.log2_nonneg (Z.pos q)) as Hb0.
    fold a in Ha1, Ha2, Ha0. fold b in Hb1, Hb2, Hb0.
    assert (pow2 (a - b + 1) * pow2 b == pow2 (a + 1))%Q as Hsplit.
    { rewrite <- pow2_add.
      replace (a - b + 1 + b) with (a + 1) by lia. reflexivity. }
    rewrite (pow2_Z (a + 1)), (pow2_Z b) in Hsplit by lia.
    pose proof (pow2_pos (a - b + 1)) as Hl0.
    assert (inject_Z p < inject_Z (2 ^ (a + 1)))%Q as HA.
    { rewrite <- Zlt_Qlt. unfold Z.succ in Ha2. lia. }
    assert (inject_Z (2 ^ b) <= inject_Z (Z.pos q))%Q as HB
      by by rewrite <- Zle_Qle.
    assert (0 < inject_Z (Z.pos q))%Q as Hq0.
    { change 0%Q with (inject_Z 0). by rewrite <- Zlt_Qlt. }
    assert (p # q == inject_Z p / inject_Z (Z.pos q))%Q as -> by apply Qmake_Qdiv.
    apply Qlt_shift_div_r; [done|].
    nra.
  - replace (a - b - 1 + 1) with (a - b) by lia.
    apply Qnot_le_lt. intros Hle. apply Qle_bool_iff in Hle. congruence.
Qed.

Lemma ilog2_comp x y : (0 < x)%Q → (x == y)%Q → ilog2 x = ilog2 y.
Proof.
  intros Hx Heq. assert (0 < y)%Q as Hy by by rewrite <- Heq.
  pose proof (ilog2_le x Hx) as H1. pose proof (ilog2_gt x Hx) as H2.
  pose proof (ilog2_le y Hy) as H3. pose proof (ilog2_gt y Hy) as H4.
  assert (ilog2 x < ilog2 y + 1) by (apply pow2_lt_inv; lra).
  assert (ilog2 y < ilog2 x + 1) by (apply pow2_lt_inv; lra).
  lia.
Qed.

(** [fl] is a function of the rational, not of the fraction that writes
    it. *)
Lemma fl_comp x y : (x == y)%Q → (fl x == fl y)%Q.
Proof.
  intros Heq. unfold fl.
  destruct (Qeq_bool x 0) eqn:Ex; destruct (Qeq_bool y 0) eqn:Ey.
  - reflexivity.
  - apply Qeq_bool_iff in Ex. apply Qeq_bool_neq in Ey.
    exfalso. apply Ey. by rewrite <- Heq.
  - apply Qeq_bool_iff in Ey. apply Qeq_bool_neq in Ex.
    exfalso. apply Ex. by rewrite Heq.
  - apply Qeq_bool_neq in Ex.
    assert (Qabs x == Qabs y)%Q as Habs by by rewrite Heq.
    rewrite (ilog2_comp _ _ (Qabs_pos_ne x Ex) Habs).
    set (e := Z.max (ilog2 (Qabs y) - 52) (-1074)).
    assert (x / pow2 e == y / pow2 e)%Q as Hdiv by by rewrite Heq.
    by rewrite (rne_comp _ _ Hdiv).
Qed.


End DoubleFacts.

(** [Double.fl] against the standard library's specification of binary64
    ([prec = 53], [emax = 1024]) at the quotients and products of the
    examples below. *)
Example fl_agrees_with_SpecFloat :
  let q := SFdiv 53 1024 (Double.spec_of_Z 57) (Double.spec_of_Z 800) in
  let big :=
    SFdiv 53 1024 (Double.spec_of_Z 494638043084)
      (Double.spec_of_Z (494638043084 + 13961044967)) in
  let mb := SFdiv 53 1024 (Double.spec_of_Z 26010) (Double.spec_of_Z 100) in
  (Double.of_spec q == Double.div 57 800
   ∧ Double.of_spec (SFmul 53 1024 q (Double.spec_of_Z 10000))
     == Double.mul (Double.div 57 800) 10000
   ∧ Double.of_spec (SFmul 53 1024 big (Double.spec_of_Z 10000))
     == Double.mul
          (Double.div 494638043084 (494638043084 + 13961044967)) 10000
   ∧ Double.of_spec
       (SFmul 53 1024 (SFdiv 53 1024 mb (Double.spec_of_Z 289))
          (Double.spec_of_Z 100))
     == Double.mul (Double.div (Double.div 26010 100) 289) 100
   ∧ Double.of_spec
       (SFadd 53 1024 (Double.spec_of_Z (2 ^ 53)) (Double.spec_of_Z 1))
     == inject_Z (Double.add_int (2 ^ 53) 1))%Q.
Proof. vm_compute. done. Qed.

(** ** The map *)

Section JsMapFacts.

Context {V : Type}.
Implicit Types (m : JsMap.t V) (k : string) (v : V).

Lemma get_remove_eq m k : JsMap.get k (JsMap.remove k m) = None.
Proof.
  induction m as [|[k' v'] m IH]; simpl; [done|].
  destruct (String.eqb k k') eqn:E; [done|]. simpl. by rewrite E.
Qed.

Lemma get_remove_ne m k k' :
  k ≠ k' → JsMap.get k' (JsMap.remove k m) = JsMap.get k' m.
Proof.
  intros Hne. induction m as [|[k0 v0] m IH]; simpl; [done|].
  destruct (String.eqb k k0) eqn:E.
  - apply String.eqb_eq in E. subst k0.
    destruct (String.eqb k' k) eqn:E'; [|done].
    apply String.eqb_eq in E'. congruence.
  - simpl. by rewrite IH.
Qed.

Lemma get_set_eq m k v : JsMap.get k (JsMap.set k v m) = Some v.
Proof.
  induction m as [|[k' v'] m IH]; simpl.
  - by rewrite String.eqb_refl.
  - destruct (String.eqb k k') eqn:E; simpl; by rewrite E.
Qed.

Lemma get_set_ne m k k' v :
  k ≠ k' → JsMap.get k' (JsMap.set k v m) = JsMap.get k' m.
Proof.
  intros Hne. induction m as [|[k0 v0] m IH]; simpl.
  - destruct (String.eqb k' k) eqn:E; [|done].
    apply String.eqb_eq in E. congruence.
  - destruct (String.eqb k k0) eqn:E; simpl; [|by rewrite IH].
    apply String.eqb_eq in E. subst k0.
    destruct (String.eqb k' k) eqn:E'; [|done].
    apply String.eqb_eq in E'. congruence.
Qed.

Lemma get_Some_In m k v : JsMap.get k m = Some v → In (k, v) m.
Proof.
  induction m as [|[k' v'] m IH]; simpl; [done|].
  destruct (String.eqb k k') eqn:E.
  - apply String.eqb_eq in E. intros [= ->]. subst. by left.
  - intros H. right. by apply IH.
Qed.

Lemma In_has m k v : In (k, v) m → JsMap.has k m = true.
Proof.
  unfold JsMap.has.
  induction m as [|[k' v'] m IH]; simpl; [done|].
  intros [[= -> ->]|Hin].
  - by rewrite String.eqb_refl.
  - destruct (String.eqb k k'); [done|]. by apply IH.
Qed.

Lemma has_remove m k : JsMap.has k (JsMap.remove k m) = false.
Proof. unfold JsMap.has. by rewrite get_remove_eq. Qed.

Lemma remove_absent m k : JsMap.get k m = None → JsMap.remove k m = m.
Proof.
  induction m as [|[k' v'] m IH]; simpl; [done|].
  destruct (String.eqb k k'); [done|]. intros H. by rewrite IH.
Qed.

End JsMapFacts.

(** The model keeps what a [Map] guarantees: no key twice. *)

Lemma keys_set {V} (m : JsMap.t V) k v k' :
  In k' (map fst (JsMap.set k v m)) ↔ k' = k ∨ In k' (map fst m).
Proof.
  induction m as [|[k0 v0] m IH]; simpl.
  - intuition (subst; auto; congruence).
  - destruct (String.eqb k k0) eqn:E; simpl.
    + apply String.eqb_eq in E. intuition (subst; auto; congruence).
    + rewrite IH. intuition (subst; auto; congruence).
Qed.

Lemma keys_remove {V} (m : JsMap.t V) k k' :
  In k' (map fst (JsMap.remove k m)) ↔ k' ≠ k ∧ In k' (map fst m).
Proof.
  induction m as [|[k0 v0] m IH]; simpl.
  - intuition (subst; auto; congruence).
  - destruct (String.eqb k k0) eqn:E; simpl.
    + apply String.eqb_eq in E. rewrite IH. intuition (subst; auto; congruence).
    + apply String.eqb_neq in E. rewrite IH. intuition (subst; auto; congruence).
Qed.

Lemma set_NoDup {V} (m : JsMap.t V) k v :
  List.NoDup (map fst m) → List.NoDup (map fst (JsMap.set k v m)).
Proof.
  induction m as [|[k0 v0] m IH]; simpl; intros Hnd.
  - constructor; [by intros []|constructor].
  - inversion Hnd as [|? ? Hnot Hnd']; subst.
    destruct (String.eqb k k0) eqn:E; simpl.
    + by constructor.
    + apply String.eqb_neq in E. constructor; [|by apply IH].
      rewrite keys_set. intuition (subst; auto; congruence).
Qed.

Lemma remove_NoDup {V} (m : JsMap.t V) k :
  List.NoDup (map fst m) → List.NoDup (map fst (JsMap.remove k m)).
Proof.
  induction m as [|[k0 v0] m IH]; simpl; intros Hnd; [constructor|].
  inversion Hnd as [|? ? Hnot Hnd']; subst.
  destruct (String.eqb k k0); simpl; [by apply IH|].
  constructor; [|by apply IH]. rewrite keys_remove. intuition (subst; auto; congruence).
Qed.

(** ** Victim selection only names keys of the store *)

Lemma first_live_has order entries k order' :
  first_live order entries = (Some k, order') → JsMap.has k entries = true.
Proof.
  revert order'. induction order as [|x rest IH]; intros order'; simpl.
  - discriminate.
  - destruct (JsMap.has x entries) eqn:Hx.
    + intros [= <- _]. exact Hx.
    + apply IH.
Qed.

(** No key the loop returns sits behind a key of the store: every key it
    shifted away was stale. *)
Lemma first_live_skips_stale order entries v order' :
  first_live order entries = (v, order') →
  ∃ stale, order = stale ++ order'
           ∧ Forall (λ k, JsMap.has k entries = false) stale.
Proof.
  revert order'. induction order as [|x rest IH]; intros order'; simpl.
  - intros [= _ <-]. by exists [].
  - destruct (JsMap.has x entries) eqn:Hx.
    + intros [= _ <-]. by exists [].
    + intros H. destruct (IH _ H) as (stale & -> & Hst).
      exists (x :: stale). split; [done|]. by constructor.
Qed.

Lemma lfu_scan_victim_in (s : LFUStrategy.t) entries acc k :
  LFUStrategy.victim (fold_left (LFUStrategy.scan_step s) entries acc) = Some k →
  LFUStrategy.victim acc = Some k ∨ ∃ e, In (k, e) entries.
Proof.
  revert acc. induction entries as [|[k' e'] entries IH]; intros acc; simpl.
  - by left.
  - intros H. apply IH in H as [H|[e H]].
    + unfold LFUStrategy.scan_step in H.
      destruct (_ || _) in H; simpl in H.
      * injection H as ->. right. exists e'. by left.
      * by left.
    + right. exists e. by right.
Qed.

Lemma selectVictim_in_store s entries k s' :
  selectVictim s entries = (Some k, s') → JsMap.has k entries = true.
Proof.
  destruct s as [s|s|s|s]; simpl.
  - discriminate.
  - unfold LRUStrategy.selectVictim.
    destruct (first_live _ _) as [v o] eqn:E. intros [= -> _].
    by eapply first_live_has.
  - unfold LFUStrategy.selectVictim. intros [= H _].
    apply lfu_scan_victim_in in H as [H|[e H]]; [discriminate|].
    by eapply In_has.
  - unfold FIFOStrategy.selectVictim.
    destruct (first_live _ _) as [v o] eqn:E. intros [= -> _].
    by eapply first_live_has.
Qed.

(** ** The policy of a strategy object never changes *)

Lemma shouldEvict_of_policy s cur max :
  shouldEvict_of s cur max =
  match policy_of s with
  | NONE => false
  | _ => reached cur max
  end.
Proof. by destruct s. Qed.

Lemma policy_selectVictim s entries :
  policy_of (snd (selectVictim s entries)) = policy_of s.
Proof.
  destruct s as [s|s|s|s]; simpl; try done.
  - unfold LRUStrategy.selectVictim. by destruct (first_live _ _).
  - unfold FIFOStrategy.selectVictim. by destruct (first_live _ _).
Qed.

Lemma policy_onRemove s k : policy_of (onRemove s k) = policy_of s.
Proof. by destruct s. Qed.

Lemma policy_onInsert s k e : policy_of (onInsert s k e) = policy_of s.
Proof. by destruct s. Qed.

Lemma policy_onAccess s k e : policy_of (onAccess s k e) = policy_of s.
Proof. by destruct s. Qed.

(** ** How often the bookkeeping of a strategy mentions a key *)

Lemma count_occ_remove_first k a :
  count_occ String.string_dec (remove_first k a) k = pred (count_occ String.string_dec a k).
Proof.
  induction a as [|x a IH]; simpl; [done|].
  destruct (String.eqb k x) eqn:E.
  - apply String.eqb_eq in E. subst x. by destruct (String.string_dec k k).
  - simpl. destruct (String.string_dec x k) as [->|Hne]; [|done].
    by rewrite String.eqb_refl in E.
Qed.

(** [onRemove] takes one mention of the key out of the bookkeeping. *)
Lemma occurrences_onRemove s k :
  occurrences (onRemove s k) k = pred (occurrences s k).
Proof.
  destruct s as [s|s|s|s]; simpl; try done.
  - apply count_occ_remove_first.
  - rewrite lookup_delete_eq. by destruct (_ !! _).
  - apply count_occ_remove_first.
Qed.

Lemma tracked_occurrences s k : tracked s k ↔ (0 < occurrences s k)%nat.
Proof.
  destruct s as [s|s|s|s]; simpl.
  - split; [done|lia].
  - apply count_occ_In.
  - destruct (_ !! _) eqn:E; simpl.
    + split; [lia | by eexists].
    + split; [by intros [? ?] | lia].
  - apply count_occ_In.
Qed.

(** ** The engine: [delete] and the eviction loop *)

Section EngineFacts.

Import CacheEngine.

Lemma delete_present k entry e :
  JsMap.get k (store e) = Some entry →
  delete k e =
  (true, with_strategy (onRemove (evictionStrategy e) k)
           (with_store (JsMap.remove k (store e)) e)).
Proof. intros H. unfold delete, JsMap.delete, JsMap.has. by rewrite H. Qed.

Lemma delete_absent k e :
  JsMap.get k (store e) = None → delete k e = (false, e).
Proof.
  intros H. unfold delete, JsMap.delete, JsMap.has. rewrite H.
  rewrite remove_absent by done. by destruct e.
Qed.

Lemma delete_victim e k s :
  selectVictim (evictionStrategy e) (store e) = (Some k, s) →
  fst (delete k (with_strategy s e)) = true.
Proof.
  intros H. apply selectVictim_in_store in H.
  unfold delete, JsMap.delete. simpl. by rewrite H.
Qed.

(** The loop makes at most [maxEvictions - evicted] iterations: every
    victim the strategy names is in the store, so every iteration that does
    not leave the loop evicts. More fuel changes nothing. *)
Lemma evictLoop_fuel fuel fuel' maxEvictions evicted e :
  (Z.to_nat (maxEvictions - evicted) ≤ fuel)%nat →
  (Z.to_nat (maxEvictions - evicted) ≤ fuel')%nat →
  evictLoop fuel maxEvictions evicted e = evictLoop fuel' maxEvictions evicted e.
Proof.
  revert fuel' evicted e.
  induction fuel as [|fuel IH]; intros [|fuel'] evicted e H1 H2; simpl; try done.
  - assert ((evicted <? maxEvictions) = false) as -> by lia. done.
  - assert ((evicted <? maxEvictions) = false) as -> by lia. done.
  - destruct (evicted <? maxEvictions) eqn:Hlt; simpl; [|done].
    destruct (shouldEvict e); [|done].
    destruct (selectVictim _ _) as [[k|] s] eqn:Hsel; [|done].
    destruct k as [|c k]; [done|].
    pose proof (delete_victim _ _ _ Hsel) as Hdel.
    destruct (delete _ _) as [deleted e2]. simpl in Hdel. subst deleted.
    apply IH; lia.
Qed.

End EngineFacts.

(** ** C9 *)

(** C9. For each of the four policies and every store: a key that
    [selectVictim] returns is a key of the store at that moment, and a key
    the store does not hold (a stale bookkeeping key) is never the result. *)
Theorem selectVictim_never_stale (s : EvictionStrategy)
    (entries : JsMap.t CacheEntry) :
  (∀ k s', selectVictim s entries = (Some k, s') → JsMap.has k entries = true)
  ∧ (∀ k, JsMap.has k entries = false → fst (selectVictim s entries) ≠ Some k).
Proof.
  split.
  - intros k s'. apply selectVictim_in_store.
  - intros k Hk Hv. destruct (selectVictim s entries) as [v s'] eqn:E.
    simpl in Hv. subst v. apply selectVictim_in_store in E. congruence.
Qed.

(** ** [set] and the eviction gate *)

Section SetFacts.

Import CacheEngine.

Lemma shouldEvict_with_strategy s e :
  policy_of s = policy_of (evictionStrategy e) →
  shouldEvict (with_strategy s e) = shouldEvict e.
Proof.
  intros H. unfold shouldEvict. rewrite !shouldEvict_of_policy. simpl.
  by rewrite H.
Qed.

(** A pass in which the strategy names no victim at its first request, with
    the ceiling reached, evicts nothing and reports failure. *)
Lemma evictEntries_no_victim e :
  shouldEvict e = true →
  fst (selectVictim (evictionStrategy e) (store e)) = None →
  fst (evictEntries e) = false
  ∧ store (snd (evictEntries e)) = store e
  ∧ stats (snd (evictEntries e)) = stats e
  ∧ config (snd (evictEntries e)) = config e.
Proof.
  intros Hev Hsel. unfold evictEntries.
  destruct (Z.to_nat _) as [|fuel]; simpl.
  - by rewrite Hev.
  - rewrite Hev.
    pose proof (policy_selectVictim (evictionStrategy e) (store e)) as Hpol.
    destruct (selectVictim _ _) as [victimKey s]. simpl in *. subst victimKey.
    destruct (0 <? _); simpl.
    + by rewrite shouldEvict_with_strategy, Hev.
    + by rewrite Hev.
Qed.

Lemma set_unfold k v options now e :
  isValidKey k = true →
  (JsMap.get k (store e) = None ∨ overwrite options = Some true) →
  set k v options now e =
  let e1 := unregistered k e in
  let entry :=
    Entry.create k v
      {| ttl := let t := match opt_ttl options with
                         | Some t => t
                         | None => defaultTTL (config e)
                         end in
                if 0 <? t then Some t else None |} now in
  let (room, e2) := if shouldEvict e1 then evictEntries e1 else (true, e1) in
  if negb room then (false, e2) else
  let e3 := with_store (JsMap.set k entry (store e2)) e2 in
  (true, with_strategy (onInsert (evictionStrategy e3) k entry) e3).
Proof.
  intros Hk Hov. unfold set, unregistered. rewrite Hk. simpl.
  destruct Hov as [-> | ->]; simpl; [done|].
  by rewrite andb_false_r.
Qed.

End SetFacts.

(** ** C1 *)

(** C1 (as the code has it). Let [set] be called with a valid key that
    passes the overwrite check, and let the strategy report that the ceiling
    is reached. If the strategy then names no victim at its first request,
    [set] returns [false] and inserts nothing: the store and the counters
    are as before the call. If instead the eviction pass reports success (it
    evicted at least one entry, or the ceiling is no longer reached), [set]
    inserts the new entry and returns [true]. *)
Theorem set_surfaces_eviction_exhaustion (k : string) (v : Value)
    (options : CacheSetOptions) (now : Z) (e : CacheEngine.t) :
  CacheEngine.isValidKey k = true →
  (JsMap.get k (CacheEngine.store e) = None ∨ overwrite options = Some true) →
  CacheEngine.shouldEvict (CacheEngine.unregistered k e) = true →
  (fst (selectVictim
          (CacheEngine.evictionStrategy (CacheEngine.unregistered k e))
          (CacheEngine.store (CacheEngine.unregistered k e))) = None →
   fst (CacheEngine.set k v options now e) = false
   ∧ CacheEngine.store (snd (CacheEngine.set k v options now e))
     = CacheEngine.store e
   ∧ CacheEngine.stats (snd (CacheEngine.set k v options now e))
     = CacheEngine.stats e)
  ∧ (fst (CacheEngine.evictEntries (CacheEngine.unregistered k e)) = true →
     fst (CacheEngine.set k v options now e) = true
     ∧ ∃ entry,
         JsMap.get k (CacheEngine.store (snd (CacheEngine.set k v options now e)))
         = Some entry
         ∧ value entry = v).
Proof.
  intros Hk Hov Hev.
  rewrite (set_unfold k v options now e Hk Hov). cbv zeta. rewrite Hev.
  split.
  - intros Hsel.
    destruct (evictEntries_no_victim _ Hev Hsel) as (Hf & Hst & Hcnt & _).
    destruct (CacheEngine.evictEntries _) as [room e2]. simpl in *.
    subst room. simpl. split; [done|]. rewrite Hst, Hcnt.
    unfold CacheEngine.unregistered. by destruct (defined _).
  - intros Hroom.
    destruct (CacheEngine.evictEntries _) as [room e2]. simpl in *.
    subst room. simpl. split; [done|].
    eexists. split; [apply get_set_eq|done].
Qed.

(** At [Samples.full] the strategy reports the ceiling reached and, once
    the key is unregistered, names no victim; [set] then returns [false]
    and the store still holds the old entry, not the new value. *)
Lemma set_exhaustion_refused :
  CacheEngine.shouldEvict (CacheEngine.unregistered "a" Samples.full) = true
  ∧ fst (selectVictim
           (CacheEngine.evictionStrategy
              (CacheEngine.unregistered "a" Samples.full))
           (CacheEngine.store (CacheEngine.unregistered "a" Samples.full)))
    = None
  ∧ fst (CacheEngine.set "a" (VString "x") Samples.overwriting 2000
           Samples.full) = false
  ∧ value <$> JsMap.get "a" (CacheEngine.store Samples.after_refused_overwrite)
    = Some (VString Samples.sixtyFour)
  ∧ CacheEngine.shouldEvict Samples.after_refused_overwrite = true.
Proof. vm_compute. by repeat split. Qed.

Lemma set_surfaces_eviction_exhaustion_witness :
  fst (CacheEngine.set "a" (VString "x") Samples.overwriting 2000
         Samples.full) = false.
Proof.
  refine (proj1 (proj1
    (set_surfaces_eviction_exhaustion "a" (VString "x") Samples.overwriting
       2000 Samples.full _ _ _) _)).
  - vm_compute. reflexivity.
  - right. reflexivity.
  - vm_compute. reflexivity.
  - vm_compute. reflexivity.
Defined.

(** ** C2 *)

(** C2 (what the code does at the claim's input). When the key is in the
    store, [set] returns [false] and changes nothing unless [overwrite] was
    passed as [true]: an omitted [overwrite] counts as [false]. *)
Theorem set_rejects_existing_key_unless_overwrite_true (k : string)
    (v : Value) (options : CacheSetOptions) (now : Z) (e : CacheEngine.t)
    (entry : CacheEntry) :
  JsMap.get k (CacheEngine.store e) = Some entry →
  overwrite options ≠ Some true →
  CacheEngine.set k v options now e = (false, e).
Proof.
  intros Hget Hov. unfold CacheEngine.set.
  destruct (negb (CacheEngine.isValidKey k)); [done|].
  rewrite Hget. simpl.
  destruct (overwrite options) as [[|]|]; simpl; congruence.
Qed.

(** The test "should overwrite by default": after [set('key1', 'value1')],
    [set('key1', 'value2')] returns [false] and [get('key1')] still
    gives ['value1']. *)
Lemma set_rejects_existing_key_unless_overwrite_true_witness :
  CacheEngine.set "key1" (VString "value2") noOptions 1002 Samples.one_key
  = (false, Samples.one_key)
  ∧ fst (CacheEngine.get "key1" 1003 Samples.one_key) = VString "value1".
Proof.
  split.
  - eapply (set_rejects_existing_key_unless_overwrite_true "key1"
              (VString "value2") noOptions 1002 Samples.one_key).
    + vm_compute. reflexivity.
    + vm_compute. discriminate.
  - vm_compute. reflexivity.
Defined.

(** ** C3 *)

(** After [set('key1', 'value1')] and [clear()] the access-order list of the
    LRU strategy still holds [key1]. *)
Lemma clear_leaves_bookkeeping :
  ¬ bookkeeping_empty
      (CacheEngine.evictionStrategy (CacheEngine.clear Samples.one_key))
  ∧ tracked (CacheEngine.evictionStrategy (CacheEngine.clear Samples.one_key))
      "key1".
Proof. vm_compute. split; [discriminate|by left]. Qed.

Lemma first_live_empty_store order :
  first_live order [] = (None, []).
Proof. induction order as [|x rest IH]; simpl; done. Qed.

Lemma selectVictim_empty_store s :
  fst (selectVictim s []) = None
  ∧ (policy_of s ≠ LFU → bookkeeping_empty (snd (selectVictim s []))).
Proof.
  destruct s as [s|s|s|s]; simpl; try done.
  - unfold LRUStrategy.selectVictim. by rewrite first_live_empty_store.
  - unfold FIFOStrategy.selectVictim. by rewrite first_live_empty_store.
Qed.

(** What [clear()] does on every engine: the store is empty, so [keys()]
    is the empty list and [getStats().totalKeys] is 0, while the strategy
    object, with its bookkeeping, and the counters are the ones from before
    the call; every key the strategy still holds is stale. *)
Lemma clear_empties_the_store_only (now : Z) (e : CacheEngine.t) :
  CacheEngine.store (CacheEngine.clear e) = []
  ∧ CacheEngine.keys now (CacheEngine.clear e) = []
  ∧ CacheStats.totalKeys (fst (CacheEngine.getStats now (CacheEngine.clear e)))
    = 0
  ∧ CacheEngine.evictionStrategy (CacheEngine.clear e)
    = CacheEngine.evictionStrategy e
  ∧ CacheEngine.stats (CacheEngine.clear e) = CacheEngine.stats e
  ∧ fst (selectVictim (CacheEngine.evictionStrategy (CacheEngine.clear e))
           (CacheEngine.store (CacheEngine.clear e))) = None.
Proof.
  repeat split; try done. apply selectVictim_empty_store.
Qed.

(** C3 (the code at the failing input). An LRU engine holds [a] and [b].
    Emptied by [clear()], the store is empty but the access order is still
    [a, b]; emptied by [delete('a'); delete('b')], the order is empty too,
    since [delete] tells the strategy. Then [b] and [a] are set again, [a]
    last. After [clear()] the order is [a, b, b, a] and the next victim is
    [a], the key used last; after the two deletes the order is [b, a] and
    the victim is [b]. *)
Theorem clear_skips_the_strategy :
  let filled :=
    snd (CacheEngine.set "b" (VString "2") noOptions 1001
           (snd (CacheEngine.set "a" (VString "1") noOptions 1000
                   (CacheEngine.new defaultConfig (Some LRU) 1000)))) in
  let cleared := CacheEngine.clear filled in
  let deleted :=
    snd (CacheEngine.delete "b" (snd (CacheEngine.delete "a" filled))) in
  let refill e :=
    snd (CacheEngine.set "a" (VString "4") noOptions 1003
           (snd (CacheEngine.set "b" (VString "3") noOptions 1002 e))) in
  (CacheEngine.store cleared = []
   ∧ CacheEngine.evictionStrategy cleared
     = StratLRU {| LRUStrategy.accessOrder := ["a"; "b"] |})
  ∧ (CacheEngine.store deleted = []
     ∧ CacheEngine.evictionStrategy deleted
       = StratLRU {| LRUStrategy.accessOrder := [] |})
  ∧ (map fst (CacheEngine.store (refill cleared)) = ["b"; "a"]
     ∧ CacheEngine.evictionStrategy (refill cleared)
       = StratLRU {| LRUStrategy.accessOrder := ["a"; "b"; "b"; "a"] |}
     ∧ fst (selectVictim (CacheEngine.evictionStrategy (refill cleared))
              (CacheEngine.store (refill cleared))) = Some "a")
  ∧ (map fst (CacheEngine.store (refill deleted)) = ["b"; "a"]
     ∧ CacheEngine.evictionStrategy (refill deleted)
       = StratLRU {| LRUStrategy.accessOrder := ["b"; "a"] |}
     ∧ fst (selectVictim (CacheEngine.evictionStrategy (refill deleted))
              (CacheEngine.store (refill deleted))) = Some "b").
Proof. vm_compute. by repeat split. Qed.

(** ** C4 and C10: operations on a key that is present but expired *)

Section ExpiredKey.

Import CacheEngine.

Variables (k : string) (now : Z) (e : CacheEngine.t) (entry : CacheEntry).
Hypothesis Hpresent : JsMap.get k (store e) = Some entry.
Hypothesis Hexpired : Entry.isExpired entry now = true.

Lemma delete_expired :
  fst (delete k e) = true
  ∧ JsMap.get k (store (snd (delete k e))) = None
  ∧ evictionStrategy (snd (delete k e)) = onRemove (evictionStrategy e) k
  ∧ stats (snd (delete k e)) = stats e.
Proof.
  rewrite (delete_present _ _ _ Hpresent). simpl.
  by rewrite get_remove_eq.
Qed.

Lemma get_expired :
  fst (get k now e) = VNull
  ∧ snd (get k now e)
    = with_stats (add_expired 1 (bump_miss (stats e))) (snd (delete k e)).
Proof.
  unfold get. rewrite Hpresent, Hexpired.
  by rewrite (delete_present _ _ _ Hpresent).
Qed.

Lemma has_expired :
  fst (has k now e) = false ∧ snd (has k now e) = snd (delete k e).
Proof.
  unfold has. rewrite Hpresent, Hexpired.
  by rewrite (delete_present _ _ _ Hpresent).
Qed.

Lemma updateTTL_expired newTtl : updateTTL k newTtl now e = (false, e).
Proof. unfold updateTTL. by rewrite Hpresent, Hexpired. Qed.

Lemma increment_expired delta : increment k delta now e = (None, e).
Proof. unfold increment. by rewrite Hpresent, Hexpired. Qed.

End ExpiredKey.

(** At 5000 ms the entry of [Samples.short_lived] is present and expired.
    [delete] returns [true], not the failure value; [updateTTL] and
    [increment] return their failure value and the entry is still in the
    store and in the access-order list afterwards. *)
Lemma expired_key_not_always_deleted :
  (λ en, Entry.isExpired en 5000)
    <$> JsMap.get "counter" (CacheEngine.store Samples.short_lived)
  = Some true
  ∧ fst (CacheEngine.delete "counter" Samples.short_lived) = true
  ∧ fst (CacheEngine.updateTTL "counter" 60 5000 Samples.short_lived) = false
  ∧ JsMap.has "counter"
      (CacheEngine.store
         (snd (CacheEngine.updateTTL "counter" 60 5000 Samples.short_lived)))
    = true
  ∧ fst (CacheEngine.increment "counter" 1 5000 Samples.short_lived) = None
  ∧ JsMap.has "counter"
      (CacheEngine.store
         (snd (CacheEngine.increment "counter" 1 5000 Samples.short_lived)))
    = true
  ∧ tracked
      (CacheEngine.evictionStrategy
         (snd (CacheEngine.increment "counter" 1 5000 Samples.short_lived)))
      "counter".
Proof. vm_compute. repeat split. by left. Qed.

(** C4 (as the code has it). On a key whose entry is present but expired:
    [get] returns [null] after deleting the entry from the store and
    unregistering it from the strategy; [delete] removes it from both as
    well and returns [true]; [updateTTL] and [increment] return their
    failure value and leave the engine, expired entry included, as it
    was. *)
Theorem expired_key_operations (k : string) (now : Z) (e : CacheEngine.t)
    (entry : CacheEntry) (newTtl delta : Z) :
  JsMap.get k (CacheEngine.store e) = Some entry →
  Entry.isExpired entry now = true →
  (fst (CacheEngine.get k now e) = VNull
   ∧ JsMap.get k (CacheEngine.store (snd (CacheEngine.get k now e))) = None
   ∧ CacheEngine.evictionStrategy (snd (CacheEngine.get k now e))
     = onRemove (CacheEngine.evictionStrategy e) k)
  ∧ (fst (CacheEngine.delete k e) = true
     ∧ JsMap.get k (CacheEngine.store (snd (CacheEngine.delete k e))) = None
     ∧ CacheEngine.evictionStrategy (snd (CacheEngine.delete k e))
       = onRemove (CacheEngine.evictionStrategy e) k)
  ∧ CacheEngine.updateTTL k newTtl now e = (false, e)
  ∧ CacheEngine.increment k delta now e = (None, e).
Proof.
  intros Hp Hx.
  destruct (delete_expired k e entry Hp) as (Hd1 & Hd2 & Hd3 & _).
  destruct (get_expired k now e entry Hp Hx) as [Hg1 Hg2].
  repeat split; try done.
  - by rewrite Hg2.
  - by rewrite Hg2.
  - by apply (updateTTL_expired k now e entry).
  - by apply (increment_expired k now e entry).
Qed.

Lemma expired_key_operations_witness :
  CacheEngine.updateTTL "counter" 60 5000 Samples.short_lived
  = (false, Samples.short_lived).
Proof.
  refine (proj1 (proj2 (proj2
    (expired_key_operations "counter" 5000 Samples.short_lived
       (mkEntry "counter" (VNumber 10) 1000 (Some 2000) 1000 0) 60 1 _ _)))).
  - vm_compute. reflexivity.
  - vm_compute. reflexivity.
Defined.

(** ** C10 *)

(** C10. On a key whose entry is present but expired, [has] returns
    [false], the entry is gone from the store, the key has been
    unregistered from the strategy (one mention less in its bookkeeping),
    and the counters are exactly as before. The same lookup through [get]
    leaves the same store and strategy but adds one to the miss counter and
    one to the expired counter, the hit counter staying as it was. *)
Theorem has_expired_leaves_counters (k : string) (now : Z)
    (e : CacheEngine.t) (entry : CacheEntry) :
  JsMap.get k (CacheEngine.store e) = Some entry →
  Entry.isExpired entry now = true →
  let e_has := snd (CacheEngine.has k now e) in
  let e_get := snd (CacheEngine.get k now e) in
  fst (CacheEngine.has k now e) = false
  ∧ JsMap.get k (CacheEngine.store e_has) = None
  ∧ CacheEngine.evictionStrategy e_has
    = onRemove (CacheEngine.evictionStrategy e) k
  ∧ occurrences (CacheEngine.evictionStrategy e_has) k
    = pred (occurrences (CacheEngine.evictionStrategy e) k)
  ∧ CacheEngine.stats e_has = CacheEngine.stats e
  ∧ CacheEngine.store e_get = CacheEngine.store e_has
  ∧ CacheEngine.evictionStrategy e_get = CacheEngine.evictionStrategy e_has
  ∧ missCount (CacheEngine.stats e_get) = missCount (CacheEngine.stats e) + 1
  ∧ expiredCount (CacheEngine.stats e_get)
    = expiredCount (CacheEngine.stats e) + 1
  ∧ hitCount (CacheEngine.stats e_get) = hitCount (CacheEngine.stats e).
Proof.
  intros Hp Hx e_has e_get. subst e_has e_get.
  destruct (delete_expired k e entry Hp) as (_ & Hd2 & Hd3 & Hd4).
  destruct (get_expired k now e entry Hp Hx) as [_ Hg].
  destruct (has_expired k now e entry Hp Hx) as [Hh1 Hh2].
  rewrite Hg, Hh2. simpl. rewrite Hd3, Hd4.
  repeat split; try done.
  apply occurrences_onRemove.
Qed.

Lemma has_expired_leaves_counters_witness :
  fst (CacheEngine.has "counter" 5000 Samples.short_lived) = false.
Proof.
  refine (proj1
    (has_expired_leaves_counters "counter" 5000 Samples.short_lived
       (mkEntry "counter" (VNumber 10) 1000 (Some 2000) 1000 0) _ _)).
  - vm_compute. reflexivity.
  - vm_compute. reflexivity.
Defined.

(** ** C5: [increment] *)



Section Increment.

Import CacheEngine.

Variables (k : string) (delta now : Z) (e : CacheEngine.t) (entry : CacheEntry).
Hypothesis Hpresent : JsMap.get k (store e) = Some entry.
Hypothesis Hlive : Entry.isExpired entry now = false.


(** On a live entry that holds no number: failure, nothing changes. *)
Lemma increment_non_numeric :
  (∀ n, value entry ≠ VNumber n) → increment k delta now e = (None, e).
Proof.
  intros Hv. unfold increment. rewrite Hpresent, Hlive.
  destruct (value entry); try done. by destruct (Hv n).
Qed.

End Increment.

(** C5 (the code at the failing input). [counter] holds 10 with a TTL of one
    second set at 1000 ms. At 2000 ms, the last instant at which the entry
    is live, its remaining TTL is the finite value 0; [increment] returns 11
    and stores a replacement that never expires, so the key is still served
    a million seconds later. *)
Theorem increment_at_expiry_instant_makes_entry_immortal :
  let e' := snd (CacheEngine.increment "counter" 1 2000 Samples.short_lived) in
  (λ en, (Entry.isExpired en 2000, Entry.getRemainingTTL en 2000))
    <$> JsMap.get "counter" (CacheEngine.store Samples.short_lived)
  = Some (false, Some 0)
  ∧ fst (CacheEngine.increment "counter" 1 2000 Samples.short_lived) = Some 11
  ∧ expiresAt <$> JsMap.get "counter" (CacheEngine.store e') = Some None
  ∧ fst (CacheEngine.get "counter" 1000000000 e') = VNumber 11
  ∧ fst (CacheEngine.get "counter" 1000000000 Samples.short_lived) = VNull.
Proof. vm_compute. by repeat split. Qed.

(** ** C6: [set] then [get] *)

Lemma create_isExpired k v t now at_ :
  Entry.isExpired
    (Entry.create k v {| ttl := if 0 <? t then Some t else None |} now) at_
  = true →
  0 < t ∧ now < at_.
Proof.
  unfold Entry.isExpired, Entry.create. cbn [expiresAt ttl].
  destruct (Z.ltb_spec 0 t) as [Ht|Ht]; [|done].
  destruct (Z.ltb_spec 0 t) as [_|?]; [|lia].
  intros Hat. lia.
Qed.

(** After the refused overwrite of [Samples.full] the strategy has no key
    left to offer; [set('b', 1)] on a key that is not in the store returns
    [false] and [get('b')] at the same instant returns [null]. *)
Lemma set_get_refused_by_eviction :
  CacheEngine.isValidKey "b" = true
  ∧ fst (CacheEngine.set "b" (VNumber 1) noOptions 3000
           Samples.after_refused_overwrite) = false
  ∧ fst (CacheEngine.get "b" 3000
           (snd (CacheEngine.set "b" (VNumber 1) noOptions 3000
                   Samples.after_refused_overwrite))) = VNull.
Proof. vm_compute. by repeat split. Qed.

(** C6 (as the code has it). For a valid key that is not in the store, or
    with [overwrite] passed as [true], and with the eviction gate open (the
    strategy does not ask for eviction, or the eviction pass reports
    success): [set] returns [true] and [get] at the same instant returns the
    value. If the resolved TTL is zero or negative the stored entry has no
    expiry, and [get] returns the value at every instant. *)
Theorem set_then_get (k : string) (v : Value) (options : CacheSetOptions)
    (now : Z) (e : CacheEngine.t) :
  CacheEngine.isValidKey k = true →
  (JsMap.get k (CacheEngine.store e) = None ∨ overwrite options = Some true) →
  (CacheEngine.shouldEvict (CacheEngine.unregistered k e) = false
   ∨ fst (CacheEngine.evictEntries (CacheEngine.unregistered k e)) = true) →
  let e' := snd (CacheEngine.set k v options now e) in
  fst (CacheEngine.set k v options now e) = true
  ∧ fst (CacheEngine.get k now e') = v
  ∧ (match opt_ttl options with
     | Some t => t
     | None => defaultTTL (CacheEngine.config e)
     end ≤ 0 →
     expiresAt <$> JsMap.get k (CacheEngine.store e') = Some None
     ∧ ∀ later, fst (CacheEngine.get k later e') = v).
Proof.
  intros Hk Hov Hgate e'. subst e'.
  rewrite (set_unfold k v options now e Hk Hov). cbv zeta.
  set (t := match opt_ttl options with
            | Some t => t
            | None => defaultTTL (CacheEngine.config e)
            end).
  set (entry := Entry.create k v _ now).
  assert (∃ e2,
    (if CacheEngine.shouldEvict (CacheEngine.unregistered k e)
     then CacheEngine.evictEntries (CacheEngine.unregistered k e)
     else (true, CacheEngine.unregistered k e)) = (true, e2)) as [e2 ->].
  { destruct (CacheEngine.shouldEvict _) eqn:Hev.
    - destruct Hgate as [?|Hroom]; [done|].
      destruct (CacheEngine.evictEntries _) as [room e2]. simpl in Hroom.
      subst room. by eexists.
    - by eexists. }
  simpl. split; [done|].
  assert (∀ at_, Entry.isExpired entry at_ = true → 0 < t ∧ now < at_) as Hexp.
  { intros at_. apply create_isExpired. }
  assert (∀ at_, Entry.isExpired entry at_ = false →
          fst (CacheEngine.get k at_
                 (CacheEngine.with_strategy
                    (onInsert (CacheEngine.evictionStrategy e2) k entry)
                    (CacheEngine.with_store
                       (JsMap.set k entry (CacheEngine.store e2)) e2))) = v)
    as Hget.
  { intros at_ Hat. unfold CacheEngine.get. simpl.
    by rewrite get_set_eq, Hat. }
  split.
  - apply Hget. destruct (Entry.isExpired entry now) eqn:E; [|done].
    apply Hexp in E. lia.
  - intros Ht. split.
    + rewrite get_set_eq. simpl. fold t.
      by destruct (0 <? t) eqn:E; [lia|].
    + intros later. apply Hget.
      destruct (Entry.isExpired entry later) eqn:E; [|done].
      apply Hexp in E. lia.
Qed.

(** The test "should set and get values", and a set with TTL 0. *)
Lemma set_then_get_witness :
  fst (CacheEngine.get "key1" 1000
         (snd (CacheEngine.set "key1" (VString "value1") (Samples.withTTL 0)
                 1000 (CacheEngine.new defaultConfig (Some LRU) 1000))))
  = VString "value1".
Proof.
  refine (proj1 (proj2
    (set_then_get "key1" (VString "value1") (Samples.withTTL 0) 1000
       (CacheEngine.new defaultConfig (Some LRU) 1000) _ _ _))).
  - vm_compute. reflexivity.
  - left. vm_compute. reflexivity.
  - left. vm_compute. reflexivity.
Defined.

(** ** C7: the LFU policy *)

Section LFU.

Variable s : LFUStrategy.t.

Lemma scan_step_inv seen acc k e :
  scan_inv s seen acc →
  scan_inv s (seen ++ [(k, e)]) (LFUStrategy.scan_step s acc (k, e)).
Proof.
  unfold scan_inv, LFUStrategy.scan_step.
  destruct (LFUStrategy.victim acc) as [k0|] eqn:Hv.
  - intros (e0 & Hin & Hmf & Hot & Hmin). rewrite Hmf, Hot. simpl.
    destruct (_ || _) eqn:Hc; simpl.
    + exists e. split; [apply in_or_app; right; by left|].
      split; [reflexivity|]. split; [reflexivity|].
      intros k' e' [Hin'|[[= <- <-]|[]]]%in_app_or.
      * specialize (Hmin _ _ Hin'). unfold lfu_before in *. lia.
      * unfold lfu_before. lia.
    + rewrite Hv. exists e0. split; [apply in_or_app; by left|].
      split; [done|]. split; [done|].
      intros k' e' [Hin'|[[= <- <-]|[]]]%in_app_or.
      * by apply Hmin.
      * unfold lfu_before. lia.
  - intros (-> & -> & ->). simpl.
    exists e. split; [by left|]. split; [reflexivity|]. split; [reflexivity|].
    intros k' e' [[= <- <-]|[]]. unfold lfu_before. lia.
Qed.

Lemma scan_inv_fold entries seen acc :
  scan_inv s seen acc →
  scan_inv s (seen ++ entries)
    (fold_left (LFUStrategy.scan_step s) entries acc).
Proof.
  revert seen acc.
  induction entries as [|[k e] entries IH]; intros seen acc Hinv; simpl.
  - by rewrite app_nil_r.
  - replace (seen ++ (k, e) :: entries) with ((seen ++ [(k, e)]) ++ entries)
      by (by rewrite <- app_assoc).
    apply IH. by apply scan_step_inv.
Qed.

Lemma lfu_selectVictim_min entries :
  entries ≠ [] →
  ∃ k e,
    LFUStrategy.selectVictim s entries = (Some k, s)
    ∧ In (k, e) entries
    ∧ ∀ k' e', In (k', e') entries → lfu_before s k e k' e'.
Proof.
  intros Hne.
  assert (scan_inv s [] LFUStrategy.scan_start) as H0 by done.
  apply (scan_inv_fold entries) in H0. simpl in H0.
  unfold LFUStrategy.selectVictim, scan_inv in *.
  destruct (LFUStrategy.victim _) as [k|].
  - destruct H0 as (e & Hin & _ & _ & Hmin). by exists k, e.
  - by destruct H0 as (? & _).
Qed.

End LFU.

Lemma lfu_freq_onInsert s k e : LFUStrategy.freqOf (LFUStrategy.onInsert s k e) k = 1.
Proof. unfold LFUStrategy.freqOf. simpl. by rewrite lookup_insert_eq. Qed.

Lemma lfu_freq_onAccess s k e :
  LFUStrategy.freqOf (LFUStrategy.onAccess s k e) k = LFUStrategy.freqOf s k + 1.
Proof.
  unfold LFUStrategy.freqOf at 1. simpl. rewrite lookup_insert_eq.
  destruct (Z.eqb_spec (LFUStrategy.freqOf s k + 1) 0); lia.
Qed.

Lemma lfu_freq_other s k k' e :
  k ≠ k' →
  LFUStrategy.freqOf (LFUStrategy.onInsert s k e) k' = LFUStrategy.freqOf s k'
  ∧ LFUStrategy.freqOf (LFUStrategy.onAccess s k e) k' = LFUStrategy.freqOf s k'.
Proof.
  intros Hne. unfold LFUStrategy.freqOf. simpl.
  by rewrite !lookup_insert_ne.
Qed.

(** C7. Under LFU, [onInsert] sets the frequency of the key to 1 and
    [onAccess] adds exactly 1 to it; on a non-empty store [selectVictim]
    returns a key of the store whose frequency is the least of all entries
    and whose [lastAccessedAt] is the least among the entries of that
    frequency. *)
Theorem lfu_frequency_and_victim (s : LFUStrategy.t) :
  (∀ k e, LFUStrategy.freqOf (LFUStrategy.onInsert s k e) k = 1)
  ∧ (∀ k e,
       LFUStrategy.freqOf (LFUStrategy.onAccess s k e) k
       = LFUStrategy.freqOf s k + 1)
  ∧ (∀ entries : JsMap.t CacheEntry,
       entries ≠ [] →
       ∃ k e,
         LFUStrategy.selectVictim s entries = (Some k, s)
         ∧ In (k, e) entries
         ∧ ∀ k' e',
             In (k', e') entries →
             LFUStrategy.freqOf s k ≤ LFUStrategy.freqOf s k'
             ∧ (LFUStrategy.freqOf s k = LFUStrategy.freqOf s k' →
                lastAccessedAt e ≤ lastAccessedAt e')).
Proof.
  split; [intros; apply lfu_freq_onInsert|].
  split; [intros; apply lfu_freq_onAccess|].
  intros entries Hne.
  destruct (lfu_selectVictim_min s entries Hne) as (k & e & Hsel & Hin & Hmin).
  exists k, e. split; [done|]. split; [done|].
  intros k' e' Hin'. specialize (Hmin _ _ Hin'). unfold lfu_before in Hmin. lia.
Qed.

Lemma lfu_frequency_and_victim_witness :
  ∃ k e,
    LFUStrategy.selectVictim Samples.lfu_three Samples.three_entries
    = (Some k, Samples.lfu_three)
    ∧ In (k, e) Samples.three_entries
    ∧ ∀ k' e',
        In (k', e') Samples.three_entries →
        LFUStrategy.freqOf Samples.lfu_three k
        ≤ LFUStrategy.freqOf Samples.lfu_three k'
        ∧ (LFUStrategy.freqOf Samples.lfu_three k
           = LFUStrategy.freqOf Samples.lfu_three k' →
           lastAccessedAt e ≤ lastAccessedAt e').
Proof.
  apply (proj2 (proj2 (lfu_frequency_and_victim Samples.lfu_three))).
  discriminate.
Defined.

(** The two LFU unit tests. *)
Example lfu_evicts_least_frequent :
  fst (LFUStrategy.selectVictim Samples.lfu_three Samples.three_entries)
  = Some "key2"
  ∧ map (LFUStrategy.freqOf Samples.lfu_three) ["key1"; "key2"; "key3"]
    = [3; 1; 2].
Proof. vm_compute. done. Qed.

Example lfu_tie_goes_to_first :
  fst (LFUStrategy.selectVictim
         (LFUStrategy.onInsert
            (LFUStrategy.onInsert LFUStrategy.new "key1"
               (Entry.create "key1" VNull {| ttl := None |} 1000))
            "key2" (Entry.create "key2" VNull {| ttl := None |} 1000))
         (firstn 2 Samples.three_entries))
  = Some "key1".
Proof. vm_compute. done. Qed.

(** ** C9: witness and the LRU and FIFO unit tests *)

Lemma selectVictim_never_stale_witness :
  JsMap.has "key2" Samples.three_entries = true.
Proof.
  refine (proj1 (selectVictim_never_stale Samples.lru_stale_front
                   Samples.three_entries) "key2"
            (StratLRU {| LRUStrategy.accessOrder := ["key2"; "key1"] |}) _).
  vm_compute. reflexivity.
Defined.

(** The LRU and FIFO unit tests of [eviction.test.ts]. *)
Example lru_evicts_least_recently_used :
  let e := Entry.create "" VNull {| ttl := None |} 1000 in
  let s := foldl (λ s k, LRUStrategy.onInsert s k e) LRUStrategy.new
             ["key1"; "key2"; "key3"] in
  let s := LRUStrategy.onAccess (LRUStrategy.onAccess s "key1" e) "key3" e in
  fst (LRUStrategy.selectVictim s Samples.three_entries) = Some "key2".
Proof. vm_compute. done. Qed.

Example fifo_ignores_access :
  let e := Entry.create "" VNull {| ttl := None |} 1000 in
  let s := foldl (λ s k, FIFOStrategy.onInsert s k e) FIFOStrategy.new
             ["key1"; "key2"] in
  let s := FIFOStrategy.onAccess (FIFOStrategy.onAccess s "key1" e) "key1" e in
  fst (FIFOStrategy.selectVictim s Samples.three_entries) = Some "key1".
Proof. vm_compute. done. Qed.

Example stale_front_is_skipped :
  selectVictim Samples.lru_stale_front Samples.three_entries
  = (Some "key2", StratLRU {| LRUStrategy.accessOrder := ["key2"; "key1"] |}).
Proof. vm_compute. done. Qed.

(** ** C8: [getStats] *)

Lemma Math_round_near (x : Q) :
  (x - (1 # 2) < inject_Z (Math_round x) ∧ inject_Z (Math_round x) <= x + (1 # 2))%Q.
Proof.
  unfold Math_round.
  pose proof (Qfloor_le (x + (1 # 2))) as Hle.
  pose proof (Qlt_floor (x + (1 # 2))) as Hlt.
  rewrite inject_Z_plus in Hlt. change (inject_Z 1) with 1%Q in Hlt.
  split; lra.
Qed.

(** The steps of [Math.round(x * scale) / 100] on doubles, for a double
    [x] near an exact value [p]: each step adds its rounding error. *)
Lemma scaled_round_near (x p scale : Q) (k : Z) (err : Q) :
  (Qabs (x - p) <= err)%Q →
  (Qabs (x * scale) < Double.pow2 k)%Q → -1021 ≤ k →
  (0 <= scale)%Q →
  (Qabs (inject_Z (Math_round (Double.mul x scale)) - p * scale)
   <= (1 # 2) + err * scale + Double.pow2 (k - 54))%Q.
Proof.
  intros Herr Hlt Hk Hscale. unfold Double.mul.
  pose proof (fl_error (x * scale) k Hlt Hk) as Hfl.
  destruct (Math_round_near (Double.fl (x * scale))) as [H1 H2].
  apply Qabs_Qle_condition in Herr as [He1 He2].
  apply Qabs_Qle_condition in Hfl as [Hf1 Hf2].
  apply Qabs_Qle_condition. split; nra.
Qed.

(** C8 (as the code computes it). With counters that doubles hold exactly,
    at least one operation counted: [getStats().hitRate] is the double
    nearest to [r / 100] for a whole number [r] of hundredths between 0 and
    10000, where [r] is [Math.round] of the double product
    [(hitCount / total) * 10000]; [r] is within 1/2 + 10^-11 of the exact
    [hitCount / total * 10000], and the reported rate is within
    0.005 + 10^-13 of the exact percentage. It is 0 when no hit and no miss
    has been counted. [getStats] reports the two counters as they are and
    returns the engine unchanged. *)
Theorem getStats_hitRate (now : Z) (e : CacheEngine.t) :
  let s := fst (CacheEngine.getStats now e) in
  let h := hitCount (CacheEngine.stats e) in
  let m := missCount (CacheEngine.stats e) in
  (0 ≤ h → 0 ≤ m → 0 < h + m → h + m < 2 ^ 53 →
   ∃ r : Z,
     0 ≤ r ≤ 10000
     ∧ r = Math_round
             (Double.mul (Double.div (inject_Z h) (inject_Z (h + m))) 10000)
     ∧ CacheStats.hitRate s = Double.div (inject_Z r) 100
     ∧ (Qabs (inject_Z r - inject_Z h / inject_Z (h + m) * 10000)
        <= (1 # 2) + (1 # 100000000000))%Q
     ∧ (Qabs (CacheStats.hitRate s - inject_Z h / inject_Z (h + m) * 100)
        <= (1 # 200) + (1 # 10000000000000))%Q)
  ∧ (h + m = 0 → (CacheStats.hitRate s == 0)%Q)
  ∧ CacheStats.hitCount s = h
  ∧ CacheStats.missCount s = m
  ∧ snd (CacheEngine.getStats now e) = e.
Proof.
  intros s h m. subst s. unfold CacheEngine.getStats.
  cbn [fst snd CacheStats.hitRate CacheStats.hitCount CacheStats.missCount].
  fold h m.
  split; [|split; [|done]].
  - intros Hh Hm Hpos Hsafe. destruct (Z.ltb_spec 0 (h + m)); [|lia].
    set (p := (inject_Z h / inject_Z (h + m))%Q).
    assert (0 < inject_Z (h + m))%Q as Ht.
    { change 0%Q with (inject_Z 0). by rewrite <- Zlt_Qlt. }
    assert (0 <= p)%Q as Hp0.
    { apply Qle_shift_div_l; [done|]. rewrite Qmult_0_l.
      change 0%Q with (inject_Z 0). by rewrite <- Zle_Qle. }
    assert (p <= 1)%Q as Hp1.
    { apply Qle_shift_div_r; [done|]. rewrite Qmult_1_l, <- Zle_Qle. lia. }
    assert (Double.pow2 1 == 2)%Q as P1 by reflexivity.
    assert (Double.pow2 (-53) == 1 # 9007199254740992)%Q as P53 by reflexivity.
    assert (Double.pow2 14 == 16384)%Q as P14 by reflexivity.
    assert (Double.pow2 (-40) == 1 # 1099511627776)%Q as P40 by reflexivity.
    assert (Double.pow2 7 == 128)%Q as P7 by reflexivity.
    assert (Double.pow2 (-47) == 1 # 140737488355328)%Q as P47 by reflexivity.
    assert (Qabs (Double.div (inject_Z h) (inject_Z (h + m)) - p)
            <= 1 # 9007199254740992)%Q as Hd.
    { rewrite <- P53. apply (fl_error p 1); [|lia].
      rewrite P1, Qabs_pos by done. lra. }
    set (d := Double.div (inject_Z h) (inject_Z (h + m))) in *.
    pose proof Hd as Hd'. apply Qabs_Qle_condition in Hd' as [Hd1 Hd2].
    assert (Qabs (inject_Z (Math_round (Double.mul d 10000)) - p * 10000)
            <= (1 # 2) + (1 # 9007199254740992) * 10000 + Double.pow2 (14 - 54))%Q
      as Hr.
    { apply scaled_round_near; [done| |lia|done].
      rewrite P14. apply Qabs_Qlt_condition. split; lra. }
    change (14 - 54) with (-40) in Hr. rewrite P40 in Hr.
    set (r := Math_round (Double.mul d 10000)) in *.
    pose proof Hr as Hr'. apply Qabs_Qle_condition in Hr' as [Hr1 Hr2].
    assert (0 ≤ r ≤ 10000) as Hrange.
    { split.
      - destruct (Z_le_gt_dec 0 r) as [|Hneg]; [done|].
        assert (r ≤ -1) as Hle by lia.
        rewrite Zle_Qle in Hle. change (inject_Z (-1)) with (-1)%Q in Hle. lra.
      - destruct (Z_le_gt_dec r 10000) as [|Hbig]; [done|].
        assert (10001 ≤ r) as Hle by lia.
        rewrite Zle_Qle in Hle. change (inject_Z 10001) with 10001%Q in Hle.
        lra. }
    exists r. split; [done|]. split; [done|]. split; [done|].
    split; [apply Qabs_Qle_condition; split; lra|].
    assert (Qabs (Double.div (inject_Z r) 100 - inject_Z r / 100)
            <= 1 # 140737488355328)%Q as Hout.
    { rewrite <- P47. apply (fl_error (inject_Z r / 100) 7); [|lia].
      rewrite P7.
      assert (0 <= inject_Z r <= 10000)%Q as [Hr0 Hr10].
      { change 0%Q with (inject_Z 0). change 10000%Q with (inject_Z 10000).
        rewrite <- !Zle_Qle. lia. }
      assert (inject_Z r / 100 == inject_Z r * (1 # 100))%Q as -> by reflexivity.
      apply Qabs_Qlt_condition. split; lra. }
    apply Qabs_Qle_condition in Hout as [Ho1 Ho2].
    assert (inject_Z r / 100 == inject_Z r * (1 # 100))%Q as Hdiv by reflexivity.
    rewrite Hdiv in Ho1, Ho2.
    apply Qabs_Qle_condition. split; lra.
  - intros H0. rewrite H0. reflexivity.
Qed.

(** The test "should track hit and miss counts": two hits and one miss. *)
Lemma getStats_hitRate_witness :
  (Qabs (CacheStats.hitRate
           (fst (CacheEngine.getStats 2000 Samples.two_hits_one_miss))
         - inject_Z 2 / inject_Z (2 + 1) * 100)
   <= (1 # 200) + (1 # 10000000000000))%Q.
Proof.
  destruct (proj1 (getStats_hitRate 2000 Samples.two_hits_one_miss)
              ltac:(by vm_compute) ltac:(by vm_compute)
              ltac:(by vm_compute) ltac:(by vm_compute))
    as (r & _ & _ & _ & _ & H).
  exact H.
Defined.

(** C8 (as the claim states it) fails. After 57 hits and 743 misses the
    exact percentage is 7.125 and [Math.round] of the exact
    [57 / 800 * 10000] is 713, yet the double product is below 712.5 and
    the report is the double 7.12. After 494638043084 hits and 13961044967
    misses the report is the double 97.26, more than 0.005 above the exact
    percentage: no rounding of that percentage to two decimals gives it. *)
Lemma getStats_hitRate_not_exactly_rounded :
  (CacheStats.hitRate (fst (CacheEngine.getStats 2000 (Samples.counted 57 743)))
   == Double.fl 7.12
   ∧ inject_Z (Math_round (inject_Z 57 / inject_Z (57 + 743) * 10000)) / 100
     == 7.13
   ∧ Double.fl 7.12 < inject_Z 57 / inject_Z (57 + 743) * 100)%Q
  ∧ (CacheStats.hitRate
       (fst (CacheEngine.getStats 2000
               (Samples.counted 494638043084 13961044967)))
     == Double.fl 97.26)%Q
  ∧ ¬ (Qabs (CacheStats.hitRate
               (fst (CacheEngine.getStats 2000
                       (Samples.counted 494638043084 13961044967)))
             - inject_Z 494638043084
               / inject_Z (494638043084 + 13961044967) * 100)
       <= 1 # 200)%Q.
Proof.
  split; [|split].
  - split; [|split]; vm_compute; reflexivity.
  - vm_compute. reflexivity.
  - intros H. apply Qle_bool_iff in H. vm_compute in H. discriminate H.
Qed.

Example hitRate_two_of_three :
  CacheStats.hitRate (fst (CacheEngine.getStats 2000 Samples.two_hits_one_miss))
  = Double.fl 66.67
  ∧ CacheStats.hitRate
      (fst (CacheEngine.getStats 2000
              (CacheEngine.new defaultConfig None 1000)))
    = Double.fl 0.
Proof. vm_compute. done. Qed.

(** * Further properties of the engine *)

(** ** [CacheEntry]: expiry and remaining TTL *)

(** X1. For an entry that has an expiry instant: once isExpired() is true,
    getRemainingTTL() is 0; strictly before the expiry instant the entry
    is not expired and getRemainingTTL() is the time left in whole
    seconds, rounded up, so at least 1; and an entry that is expired at
    one instant is expired at every later instant. *)
Theorem remaining_ttl_matches_expiry (e : CacheEntry) (at_ now : Z) :
  expiresAt e = Some at_ →
  (Entry.isExpired e now = true → Entry.getRemainingTTL e now = Some 0)
  ∧ (now < at_ →
     Entry.isExpired e now = false
     ∧ ∃ r, Entry.getRemainingTTL e now = Some r
            ∧ 1 ≤ r ∧ 1000 * (r - 1) < at_ - now ≤ 1000 * r)
  ∧ (∀ later, now ≤ later → Entry.isExpired e now = true →
       Entry.isExpired e later = true).
Proof.
  intros Hat. unfold Entry.isExpired, Entry.getRemainingTTL. rewrite Hat.
  split; [|split].
  - intros H. f_equal. rewrite Z.max_l by lia. done.
  - intros Hlt. split; [lia|]. eexists. split; [done|].
    rewrite Z.max_r by lia. unfold ceil_div.
    pose proof (Z.div_mod (- (at_ - now)) 1000 ltac:(lia)).
    pose proof (Z.mod_pos_bound (- (at_ - now)) 1000 ltac:(lia)). lia.
  - intros later Hle H. lia.
Qed.

(** ** The order-keeping strategies: what [selectVictim] returns and drops *)

Lemma first_live_spec order entries :
  ∃ stale,
    order = stale ++ snd (first_live order entries)
    ∧ Forall (λ k, JsMap.has k entries = false) stale
    ∧ match fst (first_live order entries) with
      | Some k =>
          ∃ rest, snd (first_live order entries) = k :: rest
                  ∧ JsMap.has k entries = true
      | None => snd (first_live order entries) = []
      end.
Proof.
  induction order as [|x rest IH]; simpl.
  - by exists [].
  - destruct (JsMap.has x entries) eqn:Hx; simpl.
    + exists []. split; [done|]. split; [done|]. by exists rest.
    + destruct IH as (stale & Heq & Hst & Hv).
      exists (x :: stale). split; [by rewrite Heq at 1|].
      split; [by constructor|done].
Qed.

(** X2. LRUStrategy.selectVictim and FIFOStrategy.selectVictim drop from the
    front of their order exactly a run of keys the store does not hold.
    The victim is the first key of the order that the store holds, and it
    stays at the front of the order; when the order has no such key the
    result is null and the order is left empty. *)
Theorem lru_fifo_victim_is_first_live (lru : LRUStrategy.t)
    (fifo : FIFOStrategy.t) (entries : JsMap.t CacheEntry) :
  (∃ stale,
     LRUStrategy.accessOrder lru
     = stale ++ LRUStrategy.accessOrder
                  (snd (LRUStrategy.selectVictim lru entries))
     ∧ Forall (λ k, JsMap.has k entries = false) stale
     ∧ match fst (LRUStrategy.selectVictim lru entries) with
       | Some k =>
           ∃ rest,
             LRUStrategy.accessOrder
               (snd (LRUStrategy.selectVictim lru entries)) = k :: rest
             ∧ JsMap.has k entries = true
       | None =>
           LRUStrategy.accessOrder
             (snd (LRUStrategy.selectVictim lru entries)) = []
       end)
  ∧ (∃ stale,
       FIFOStrategy.insertionOrder fifo
       = stale ++ FIFOStrategy.insertionOrder
                    (snd (FIFOStrategy.selectVictim fifo entries))
       ∧ Forall (λ k, JsMap.has k entries = false) stale
       ∧ match fst (FIFOStrategy.selectVictim fifo entries) with
         | Some k =>
             ∃ rest,
               FIFOStrategy.insertionOrder
                 (snd (FIFOStrategy.selectVictim fifo entries)) = k :: rest
               ∧ JsMap.has k entries = true
         | None =>
             FIFOStrategy.insertionOrder
               (snd (FIFOStrategy.selectVictim fifo entries)) = []
         end).
Proof.
  split.
  - unfold LRUStrategy.selectVictim.
    pose proof (first_live_spec (LRUStrategy.accessOrder lru) entries) as H.
    by destruct (first_live _ _).
  - unfold FIFOStrategy.selectVictim.
    pose proof (first_live_spec (FIFOStrategy.insertionOrder fifo) entries) as H.
    by destruct (first_live _ _).
Qed.

Lemma first_live_app_live l1 l2 entries :
  (∃ x, In x l1 ∧ JsMap.has x entries = true) →
  ∃ v, fst (first_live (l1 ++ l2) entries) = Some v ∧ In v l1.
Proof.
  induction l1 as [|y l1 IH]; simpl.
  - by intros (x & [] & _).
  - intros (x & [->|Hin] & Hx).
    + rewrite Hx. exists x. split; [done|by left].
    + destruct (JsMap.has y entries) eqn:Hy; simpl.
      * exists y. split; [done|by left].
      * destruct IH as (v & Hv & Hin'); [by exists x|].
        exists v. split; [done|by right].
Qed.

Lemma In_remove_first_ne k x a : In x a → x ≠ k → In x (remove_first k a).
Proof.
  induction a as [|y a IH]; simpl; [done|].
  intros [->|Hin] Hne.
  - destruct (String.eqb k x) eqn:E; [|by left].
    apply String.eqb_eq in E. congruence.
  - destruct (String.eqb k y); [done|]. right. by apply IH.
Qed.

(** X3. Under LRU, after onAccess(k) on an access order that mentions k at
    most once, the next victim is never k as long as some other key of the
    order is in the store: selectVictim then returns a key of the earlier
    order that differs from k. *)
Theorem lru_accessed_key_is_not_next_victim (s : LRUStrategy.t) (k k' : string)
    (e : CacheEntry) (entries : JsMap.t CacheEntry) :
  (count_occ String.string_dec (LRUStrategy.accessOrder s) k ≤ 1)%nat →
  k' ≠ k →
  In k' (LRUStrategy.accessOrder s) →
  JsMap.has k' entries = true →
  ∃ v,
    fst (LRUStrategy.selectVictim (LRUStrategy.onAccess s k e) entries) = Some v
    ∧ v ≠ k
    ∧ In v (LRUStrategy.accessOrder s).
Proof.
  intros Hcount Hne Hin Hlive.
  unfold LRUStrategy.selectVictim, LRUStrategy.onAccess. simpl.
  destruct (first_live_app_live
              (remove_first k (LRUStrategy.accessOrder s)) [k] entries)
    as (v & Hv & Hvin).
  { exists k'. split; [by apply In_remove_first_ne|done]. }
  destruct (first_live _ _) as [v0 o]. simpl in *. subst v0.
  exists v. split; [done|].
  pose proof (count_occ_remove_first k (LRUStrategy.accessOrder s)) as Hc.
  split.
  - intros ->. apply (count_occ_In String.string_dec) in Hvin. lia.
  - clear -Hvin. induction (LRUStrategy.accessOrder s) as [|y a IH];
      simpl in *; [done|].
    destruct (String.eqb k y); [by right|].
    destruct Hvin as [->|H]; [by left|right; by apply IH].
Qed.

Lemma lru_accessed_key_is_not_next_victim_witness :
  ∃ v,
    fst (LRUStrategy.selectVictim
           (LRUStrategy.onAccess
              {| LRUStrategy.accessOrder := ["key1"; "key2"] |} "key1"
              (Entry.create "key1" VNull {| ttl := None |} 1000))
           Samples.three_entries) = Some v
    ∧ v ≠ "key1"
    ∧ In v ["key1"; "key2"].
Proof.
  apply (lru_accessed_key_is_not_next_victim
           {| LRUStrategy.accessOrder := ["key1"; "key2"] |} "key1" "key2").
  - vm_compute. lia.
  - discriminate.
  - right. left. reflexivity.
  - vm_compute. reflexivity.
Defined.

(** ** More on the map *)

Section JsMapMore.

Context {V : Type}.
Implicit Types (m : JsMap.t V) (k : string) (v : V).

Lemma get_None_not_In m k : JsMap.get k m = None ↔ ¬ In k (map fst m).
Proof.
  induction m as [|[k' v'] m IH]; simpl; [tauto|].
  destruct (String.eqb k k') eqn:E.
  - apply String.eqb_eq in E. subst. split; [done|]. intros H. destruct H. by left.
  - apply String.eqb_neq in E. rewrite IH. intuition congruence.
Qed.

Lemma In_get_NoDup m k v :
  List.NoDup (map fst m) → In (k, v) m → JsMap.get k m = Some v.
Proof.
  induction m as [|[k' v'] m IH]; simpl; [done|].
  intros Hnd Hin. inversion Hnd as [|? ? Hnot Hnd']; subst.
  destruct Hin as [[= -> ->]|Hin].
  - by rewrite String.eqb_refl.
  - destruct (String.eqb k k') eqn:E; [|by apply IH].
    apply String.eqb_eq in E. subst k'. destruct Hnot.
    change k with (fst (k, v)). by apply in_map.
Qed.

Lemma get_remove_Some m k k' v :
  JsMap.get k' (JsMap.remove k m) = Some v → JsMap.get k' m = Some v ∧ k ≠ k'.
Proof.
  intros H. destruct (String.string_dec k k') as [->|Hne].
  - by rewrite get_remove_eq in H.
  - by rewrite get_remove_ne in H.
Qed.

Lemma length_remove m k :
  List.NoDup (map fst m) → JsMap.has k m = true →
  S (List.length (JsMap.remove k m)) = List.length m.
Proof.
  unfold JsMap.has.
  induction m as [|[k' v'] m IH]; simpl; [done|].
  intros Hnd Hhas. inversion Hnd as [|? ? Hnot Hnd']; subst.
  destruct (String.eqb k k') eqn:E.
  - apply String.eqb_eq in E. subst k'.
    rewrite remove_absent; [done|]. by apply get_None_not_In.
  - simpl. f_equal. by apply IH.
Qed.

Lemma keys_set_present m k v :
  JsMap.has k m = true → map fst (JsMap.set k v m) = map fst m.
Proof.
  unfold JsMap.has.
  induction m as [|[k' v'] m IH]; simpl; [done|].
  destruct (String.eqb k k') eqn:E; simpl; [done|].
  intros H. f_equal. by apply IH.
Qed.

Lemma keys_set_fresh m k v :
  JsMap.get k m = None → JsMap.set k v m = m ++ [(k, v)].
Proof.
  induction m as [|[k' v'] m IH]; simpl; [done|].
  destruct (String.eqb k k'); [done|]. intros H. f_equal. by apply IH.
Qed.

End JsMapMore.

Lemma store_wf_set m k entry :
  store_wf m → key entry = k → store_wf (JsMap.set k entry m).
Proof.
  intros [Hnd Hk] Hkey. split; [by apply set_NoDup|].
  clear Hnd. induction m as [|[k' v'] m IH]; simpl.
  - by constructor.
  - apply Forall_cons in Hk as [Hx Hl]. destruct (String.eqb k k') eqn:E.
    + apply String.eqb_eq in E. subst k'. by constructor.
    + constructor; [done|]. by apply IH.
Qed.

Lemma store_wf_remove m k : store_wf m → store_wf (JsMap.remove k m).
Proof.
  intros [Hnd Hk]. split; [by apply remove_NoDup|].
  clear Hnd. induction m as [|[k' v'] m IH]; simpl; [done|].
  apply Forall_cons in Hk as [Hx Hl]. destruct (String.eqb k k'); [by apply IH|].
  constructor; [done|]. by apply IH.
Qed.

Lemma store_wf_key m k entry :
  store_wf m → JsMap.get k m = Some entry → key entry = k.
Proof.
  intros [_ Hk] Hget. apply get_Some_In in Hget.
  rewrite Forall_forall in Hk. by apply (Hk (k, entry)), list_elem_of_In.
Qed.

(** ** The eviction pass *)

Section Eviction.

Import CacheEngine.

Lemma ceil_div_10_bounds n :
  0 ≤ n → 0 ≤ ceil_div n 10 ∧ 10 * (ceil_div n 10 - 1) < n ≤ 10 * ceil_div n 10.
Proof.
  intros Hn. unfold ceil_div.
  pose proof (Z.div_mod (- n) 10 ltac:(lia)).
  pose proof (Z.mod_pos_bound (- n) 10 ltac:(lia)). lia.
Qed.

(** What a run of the loop leaves: the counters differ in [evictionCount]
    only, by the number of evictions; the store lost that many entries and
    gained or changed none. *)
Lemma stats_eta (c : Counters) :
  c = {| hitCount := hitCount c; missCount := missCount c;
         evictionCount := evictionCount c + 0;
         expiredCount := expiredCount c; startTime := startTime c |}.
Proof. destruct c. simpl. by rewrite Z.add_0_r. Qed.

Lemma evictLoop_spec fuel maxEvictions evicted e :
  store_wf (store e) →
  let r := evictLoop fuel maxEvictions evicted e in
  evicted ≤ fst r
  ∧ (evicted ≤ maxEvictions → fst r ≤ maxEvictions)
  ∧ stats (snd r)
    = {| hitCount := hitCount (stats e);
         missCount := missCount (stats e);
         evictionCount := evictionCount (stats e) + (fst r - evicted);
         expiredCount := expiredCount (stats e);
         startTime := startTime (stats e) |}
  ∧ config (snd r) = config e
  ∧ policy_of (evictionStrategy (snd r)) = policy_of (evictionStrategy e)
  ∧ store_wf (store (snd r))
  ∧ JsMap.size (store (snd r)) = JsMap.size (store e) - (fst r - evicted)
  ∧ ∀ k entry,
      JsMap.get k (store (snd r)) = Some entry →
      JsMap.get k (store e) = Some entry.
Proof.
  revert evicted e. induction fuel as [|fuel IH]; intros evicted e Hwf.
  - simpl. replace (evicted - evicted) with 0 by lia.
    split; [lia|]. split; [done|]. split; [apply stats_eta|].
    split; [done|]. split; [done|]. split; [done|]. split; [lia|done].
  - assert (∀ s, policy_of s = policy_of (evictionStrategy e) →
            let r := (evicted, with_strategy s e) in
            evicted ≤ fst r
            ∧ (evicted ≤ maxEvictions → fst r ≤ maxEvictions)
            ∧ stats (snd r)
              = {| hitCount := hitCount (stats e);
                   missCount := missCount (stats e);
                   evictionCount := evictionCount (stats e) + (fst r - evicted);
                   expiredCount := expiredCount (stats e);
                   startTime := startTime (stats e) |}
            ∧ config (snd r) = config e
            ∧ policy_of (evictionStrategy (snd r))
              = policy_of (evictionStrategy e)
            ∧ store_wf (store (snd r))
            ∧ JsMap.size (store (snd r))
              = JsMap.size (store e) - (fst r - evicted)
            ∧ ∀ k entry,
                JsMap.get k (store (snd r)) = Some entry →
                JsMap.get k (store e) = Some entry) as Hstop.
    { intros s Hs. simpl. replace (evicted - evicted) with 0 by lia.
      split; [lia|]. split; [done|]. split; [apply stats_eta|].
      split; [done|]. split; [done|]. split; [done|]. split; [lia|done]. }
    assert (with_strategy (evictionStrategy e) e = e) as Hsame
      by (by destruct e).
    cbn [evictLoop].
    destruct (evicted <? maxEvictions) eqn:Hlt; simpl;
      [|rewrite <- Hsame at 1 2 3 4 5 6; by apply Hstop].
    destruct (shouldEvict e);
      [|rewrite <- Hsame at 1 2 3 4 5 6; by apply Hstop].
    pose proof (policy_selectVictim (evictionStrategy e) (store e)) as Hpol.
    destruct (selectVictim _ _) as [[k|] s] eqn:Hsel; simpl in Hpol;
      [|by apply Hstop].
    destruct k as [|c k]; [by apply Hstop|].
    set (kk := String c k) in *.
    pose proof (selectVictim_in_store _ _ _ _ Hsel) as Hin.
    unfold delete, JsMap.delete. simpl. rewrite Hin.
    match goal with |- context [evictLoop fuel maxEvictions (evicted + 1) ?e2] =>
      specialize (IH (evicted + 1) e2); set (r := evictLoop _ _ _ e2) in *
    end.
    simpl in IH.
    destruct IH as (H1 & H2 & H3 & H4 & H5 & H6 & H7 & H8);
      [by apply store_wf_remove|].
    split; [lia|]. split; [lia|].
    split; [rewrite H3; f_equal; lia|].
    split; [done|]. split; [by rewrite H5, policy_onRemove|].
    split; [done|].
    split.
    + rewrite H7. unfold JsMap.size.
      pose proof (length_remove (store e) kk (proj1 Hwf) Hin). lia.
    + intros k' entry Hget. apply H8 in Hget.
      by apply get_remove_Some in Hget as [? _].
Qed.

End Eviction.

(** X4. On a store as the engine builds it (no key twice, each entry under its
    own key), evictEntries removes n entries with 0 <= n <= ceil(size /
    10): evictionCount grows by n, the store shrinks by n, and every entry
    that remains is an entry of the store before, unchanged. When
    evictEntries returns false it has evicted nothing and the ceiling is
    still reached. *)
Theorem evictEntries_bounded (e : CacheEngine.t) :
  store_wf (CacheEngine.store e) →
  let e' := snd (CacheEngine.evictEntries e) in
  let n := evictionCount (CacheEngine.stats e')
           - evictionCount (CacheEngine.stats e) in
  0 ≤ n
  ∧ 10 * (n - 1) < JsMap.size (CacheEngine.store e)
  ∧ JsMap.size (CacheEngine.store e') = JsMap.size (CacheEngine.store e) - n
  ∧ (∀ k entry,
       JsMap.get k (CacheEngine.store e') = Some entry →
       JsMap.get k (CacheEngine.store e) = Some entry)
  ∧ (fst (CacheEngine.evictEntries e) = false →
     n = 0 ∧ CacheEngine.shouldEvict e' = true).
Proof.
  intros Hwf. unfold CacheEngine.evictEntries.
  set (maxEv := ceil_div (JsMap.size (CacheEngine.store e)) 10).
  pose proof (evictLoop_spec (Z.to_nat maxEv) maxEv 0 e Hwf) as H.
  destruct (CacheEngine.evictLoop _ _ _ _) as [evicted e']. simpl in *.
  destruct H as (H1 & H2 & H3 & _ & _ & _ & H7 & H8).
  rewrite H3. simpl.
  assert (0 ≤ JsMap.size (CacheEngine.store e)) as Hsz
    by (unfold JsMap.size; lia).
  destruct (ceil_div_10_bounds _ Hsz) as [Hc0 Hc].
  fold maxEv in Hc0, Hc. specialize (H2 Hc0).
  split; [lia|]. split; [lia|]. split; [rewrite H7; lia|]. split; [done|].
  intros Hfalse. apply orb_false_iff in Hfalse as [Hz Hs].
  split; [lia|]. by apply negb_false_iff.
Qed.

(** ** The expiry sweep *)

Section Sweep.

Import CacheEngine.

Lemma remove_filter (m : list (string * CacheEntry)) k :
  JsMap.remove k m = filter (λ ke, fst ke ≠ k) m.
Proof.
  induction m as [|[k' v'] m IH]; [done|].
  rewrite filter_cons. cbn [JsMap.remove fst].
  destruct (String.eqb k k') eqn:E.
  - apply String.eqb_eq in E. subst. by rewrite decide_False by (by intros []).
  - apply String.eqb_neq in E. rewrite decide_True by congruence. by f_equal.
Qed.

Lemma filter_ext_elem {A} (P1 P2 : A → Prop)
    `{!∀ x, Decision (P1 x), !∀ x, Decision (P2 x)} (l : list A) :
  (∀ x, x ∈ l → (P1 x ↔ P2 x)) → filter P1 l = filter P2 l.
Proof.
  induction l as [|a l IH]; intros Hext; [done|].
  rewrite !filter_cons.
  assert (P1 a ↔ P2 a) as Ha by (apply Hext; by left).
  rewrite IH by (intros x Hx; apply Hext; by right).
  destruct (decide (P1 a)), (decide (P2 a)); tauto.
Qed.

Lemma remove_all_filter ks (m : list (string * CacheEntry)) :
  fold_left (λ m k, JsMap.remove k m) ks m = filter (λ ke, fst ke ∉ ks) m.
Proof.
  revert m. induction ks as [|k ks IH]; intros m; simpl.
  - induction m as [|a m IHm]; [done|].
    rewrite filter_cons_True by apply not_elem_of_nil. by f_equal.
  - rewrite IH, remove_filter, list_filter_filter.
    apply list_filter_iff. intros [k' v']. simpl.
    rewrite not_elem_of_cons. tauto.
Qed.

Lemma expired_keys_removed now (m : list (string * CacheEntry)) :
  List.NoDup (map fst m) →
  fold_left (λ m k, JsMap.remove k m)
    (map fst (filter (λ ke, Entry.isExpired (snd ke) now) m)) m
  = live_entries now m.
Proof.
  intros Hnd. rewrite remove_all_filter. unfold live_entries, JsMap.t.
  apply filter_ext_elem. intros [k e] Hin. simpl.
  apply list_elem_of_In in Hin.
  destruct (Entry.isExpired e now) eqn:Hx; simpl; split; try done.
  - intros Hnot. apply Hnot. apply list_elem_of_In.
    change k with (fst (k, e)). apply in_map.
    apply list_elem_of_In, list_elem_of_filter. simpl. rewrite Hx.
    split; [done|by apply list_elem_of_In].
  - intros _ Hk. apply list_elem_of_In, in_map_iff in Hk as ([k' e'] & Hk & He').
    simpl in Hk. subst k'.
    apply list_elem_of_In, list_elem_of_filter in He' as [Hx' Hin'].
    simpl in Hx'. apply list_elem_of_In in Hin'.
    pose proof (In_get_NoDup _ _ _ Hnd Hin) as H1.
    pose proof (In_get_NoDup _ _ _ Hnd Hin') as H2.
    rewrite H1 in H2. injection H2 as <-. by rewrite Hx in Hx'.
Qed.

Lemma sweep_fold ks e :
  let e' := fold_left (λ acc k, snd (delete k acc)) ks e in
  store e' = fold_left (λ m k, JsMap.remove k m) ks (store e)
  ∧ stats e' = stats e
  ∧ config e' = config e
  ∧ policy_of (evictionStrategy e') = policy_of (evictionStrategy e).
Proof.
  revert e. induction ks as [|k ks IH]; intros e; simpl; [done|].
  specialize (IH (snd (delete k e))). simpl in IH.
  destruct IH as (H1 & H2 & H3 & H4).
  rewrite H1, H2, H3, H4. unfold delete, JsMap.delete.
  destruct (JsMap.has k (store e)); simpl; [|done].
  by rewrite policy_onRemove.
Qed.

Lemma live_of_live now (m : list (string * CacheEntry)) :
  live_entries now (live_entries now m) = live_entries now m.
Proof. unfold live_entries, JsMap.t. by apply list_filter_filter_l. Qed.

Lemma no_expired_in_live now (m : list (string * CacheEntry)) :
  filter (λ ke, Entry.isExpired (snd ke) now) (live_entries now m) = [].
Proof.
  unfold live_entries, JsMap.t. rewrite list_filter_filter.
  induction m as [|a m IH]; [done|].
  rewrite filter_cons_False; [done|].
  intros [H1 H2]. by destruct (Entry.isExpired _ _).
Qed.

Lemma length_expired_live now (m : list (string * CacheEntry)) :
  (List.length (filter (λ ke, Entry.isExpired (snd ke) now) m)
   + List.length (live_entries now m) = List.length m)%nat.
Proof.
  unfold live_entries, JsMap.t. induction m as [|a m IH]; [done|].
  rewrite !filter_cons.
  destruct (Entry.isExpired (snd a) now); simpl in *; lia.
Qed.

Lemma cleanup_store now e :
  store_wf (store e) →
  store (snd (cleanupExpired now e)) = live_entries now (store e).
Proof.
  intros [Hnd _]. unfold cleanupExpired.
  pose proof (sweep_fold
    (map fst (filter (λ ke, Entry.isExpired (snd ke) now) (store e))) e)
    as (Hst & _).
  destruct (0 <? _); simpl;
    (etrans; [exact Hst|exact (expired_keys_removed now _ Hnd)]).
Qed.

End Sweep.

(** X5. On a store as the engine builds it (no key twice, each entry under its
    own key), cleanupExpired leaves exactly the entries that are not
    expired, in their order, returns the number of entries it removed, and
    adds that number to expiredCount while no other counter changes.
    keys() lists the same keys before and after the sweep. *)
Theorem cleanupExpired_removes_exactly_the_expired (now : Z)
    (e : CacheEngine.t) :
  store_wf (CacheEngine.store e) →
  let r := CacheEngine.cleanupExpired now e in
  CacheEngine.store (snd r) = live_entries now (CacheEngine.store e)
  ∧ fst r = JsMap.size (CacheEngine.store e)
            - JsMap.size (CacheEngine.store (snd r))
  ∧ CacheEngine.stats (snd r)
    = CacheEngine.add_expired (fst r) (CacheEngine.stats e)
  ∧ CacheEngine.keys now (snd r) = CacheEngine.keys now e.
Proof.
  intros Hwf. pose proof (cleanup_store now e Hwf) as Hst.
  revert Hst. unfold CacheEngine.cleanupExpired.
  pose proof (sweep_fold
    (map fst (filter (λ ke, Entry.isExpired (snd ke) now) (CacheEngine.store e)))
    e) as (_ & Hcnt & _ & _).
  rewrite length_map.
  set (n := List.length (filter _ (CacheEngine.store e))) in *.
  assert (n + List.length (live_entries now (CacheEngine.store e))
          = List.length (CacheEngine.store e))%nat as Hlen
    by apply length_expired_live.
  assert (∀ e1 : CacheEngine.t,
            CacheEngine.store e1 = live_entries now (CacheEngine.store e) →
            CacheEngine.keys now e1 = CacheEngine.keys now e) as Hkeys.
  { intros e1 H1. unfold CacheEngine.keys. rewrite H1.
    change (map fst (live_entries now (live_entries now (CacheEngine.store e)))
            = map fst (live_entries now (CacheEngine.store e))).
    by rewrite live_of_live. }
  destruct (0 <? Z.of_nat n) eqn:Hn; simpl; intros Hst; rewrite Hst.
  - split; [done|]. split; [unfold JsMap.size; lia|].
    split; [by rewrite Hcnt|]. by apply Hkeys.
  - split; [done|]. split; [unfold JsMap.size; lia|].
    assert (n = 0%nat) as -> by lia. rewrite Hcnt. simpl.
    split; [|by apply Hkeys].
    destruct (CacheEngine.stats e). unfold CacheEngine.add_expired. simpl.
    by rewrite Z.add_0_r.
Qed.

(** X6. A second cleanupExpired at the same instant finds nothing to remove:
    it returns 0 and leaves the engine (store, bookkeeping and counters)
    as the first sweep left it. *)
Theorem cleanupExpired_twice (now : Z) (e : CacheEngine.t) :
  store_wf (CacheEngine.store e) →
  CacheEngine.cleanupExpired now (snd (CacheEngine.cleanupExpired now e))
  = (0, snd (CacheEngine.cleanupExpired now e)).
Proof.
  intros Hwf. pose proof (cleanup_store now e Hwf) as Hst.
  set (e1 := snd (CacheEngine.cleanupExpired now e)) in *.
  unfold CacheEngine.cleanupExpired at 1. rewrite Hst.
  by rewrite no_expired_in_live.
Qed.

(** ** What every operation keeps: the shape of the store, the counters *)

Section Invariants.

Import CacheEngine.

Variable e : CacheEngine.t.
Hypothesis Hwf : store_wf (store e).

Lemma evictEntries_spec :
  store_wf (store (snd (evictEntries e)))
  ∧ counters_le (stats e) (stats (snd (evictEntries e)))
  ∧ hitCount (stats (snd (evictEntries e))) = hitCount (stats e)
  ∧ missCount (stats (snd (evictEntries e))) = missCount (stats e)
  ∧ expiredCount (stats (snd (evictEntries e))) = expiredCount (stats e)
  ∧ config (snd (evictEntries e)) = config e
  ∧ policy_of (evictionStrategy (snd (evictEntries e)))
    = policy_of (evictionStrategy e).
Proof.
  unfold evictEntries.
  set (maxEv := ceil_div (JsMap.size (store e)) 10).
  pose proof (evictLoop_spec (Z.to_nat maxEv) maxEv 0 e Hwf) as H.
  destruct (evictLoop _ _ _ _) as [evicted e']. simpl in *.
  destruct H as (H1 & _ & H3 & H4 & H5 & H6 & _).
  split; [done|].
  rewrite H3. unfold counters_le. simpl. repeat split; try done; lia.
Qed.

Lemma unregistered_store k : store (unregistered k e) = store e.
Proof. unfold unregistered. by destruct (defined _). Qed.

Lemma unregistered_stats k : stats (unregistered k e) = stats e.
Proof. unfold unregistered. by destruct (defined _). Qed.

Lemma counters_le_refl c : counters_le c c.
Proof. unfold counters_le. repeat split; lia. Qed.

End Invariants.

Section InvariantsOps.

Import CacheEngine.

Variable e : CacheEngine.t.
Hypothesis Hwf : store_wf (store e).

Lemma set_keeps k v options now :
  store_wf (store (snd (set k v options now e)))
  ∧ counters_le (stats e) (stats (snd (set k v options now e))).
Proof.
  unfold set. destruct (negb (isValidKey k));
    [split; [done|apply counters_le_refl]|].
  destruct (defined (JsMap.get k (store e)) && _) eqn:Hov;
    [split; [done|apply counters_le_refl]|].
  change (if defined (JsMap.get k (store e))
          then with_strategy (onRemove (evictionStrategy e) k) e else e)
    with (unregistered k e).
  assert (store_wf (store (unregistered k e))) as Hwf1
    by (by rewrite unregistered_store).
  pose proof (evictEntries_spec (unregistered k e) Hwf1) as (H1 & H2 & _).
  rewrite unregistered_stats in H2.
  destruct (shouldEvict (unregistered k e)).
  - destruct (evictEntries (unregistered k e)) as [room e2]. simpl in *.
    destruct room; simpl; [|done].
    split; [|done]. by apply store_wf_set.
  - simpl. split; [|rewrite unregistered_stats; apply counters_le_refl].
    by apply store_wf_set.
Qed.

Lemma delete_keeps k :
  store_wf (store (snd (delete k e))) ∧ stats (snd (delete k e)) = stats e.
Proof.
  unfold delete, JsMap.delete.
  destruct (JsMap.has k (store e)); simpl; split; try done;
    by apply store_wf_remove.
Qed.

Lemma get_keeps k now :
  store_wf (store (snd (get k now e)))
  ∧ counters_le (stats e) (stats (snd (get k now e)))
  ∧ hitCount (stats (snd (get k now e))) + missCount (stats (snd (get k now e)))
    = hitCount (stats e) + missCount (stats e) + 1
  ∧ evictionCount (stats (snd (get k now e))) = evictionCount (stats e).
Proof.
  unfold get. destruct (JsMap.get k (store e)) as [entry|] eqn:Hget.
  - destruct (Entry.isExpired entry now).
    + destruct (delete_keeps k) as [H1 H2].
      destruct (delete k e) as [b e1]. simpl in *. rewrite H2.
      split; [done|].
      unfold counters_le. simpl. repeat split; try done; lia.
    + simpl. split.
      * apply store_wf_set; [done|]. simpl. by eapply store_wf_key.
      * unfold counters_le. simpl. repeat split; try done; lia.
  - simpl. split; [done|].
    unfold counters_le. simpl. repeat split; try done; lia.
Qed.

Lemma has_keeps k now :
  store_wf (store (snd (has k now e))) ∧ stats (snd (has k now e)) = stats e.
Proof.
  unfold has. destruct (JsMap.get k (store e)) as [entry|]; [|done].
  destruct (Entry.isExpired entry now); [|done].
  destruct (delete_keeps k) as [H1 H2]. by destruct (delete k e).
Qed.

Lemma updateTTL_keeps k newTtl now :
  store_wf (store (snd (updateTTL k newTtl now e)))
  ∧ stats (snd (updateTTL k newTtl now e)) = stats e
  ∧ evictionStrategy (snd (updateTTL k newTtl now e)) = evictionStrategy e.
Proof.
  unfold updateTTL. destruct (JsMap.get k (store e)) as [entry|] eqn:Hget;
    [|done].
  destruct (Entry.isExpired entry now); [done|]. simpl.
  split; [|done]. apply store_wf_set; [done|]. simpl. by eapply store_wf_key.
Qed.

Lemma increment_keeps k delta now :
  store_wf (store (snd (increment k delta now e)))
  ∧ stats (snd (increment k delta now e)) = stats e.
Proof.
  unfold increment. destruct (JsMap.get k (store e)) as [entry|] eqn:Hget;
    [|done].
  destruct (Entry.isExpired entry now); [done|].
  destruct (value entry); try done. simpl.
  split; [|done]. by apply store_wf_set.
Qed.

Lemma cleanupExpired_keeps now :
  store_wf (store (snd (cleanupExpired now e)))
  ∧ counters_le (stats e) (stats (snd (cleanupExpired now e))).
Proof.
  unfold cleanupExpired.
  set (ks := map fst _).
  assert (∀ e0, store_wf (store e0) →
            store_wf (store (fold_left (λ acc k, snd (delete k acc)) ks e0)))
    as Hfold.
  { induction ks as [|k ks' IH]; intros e0 H0; simpl; [done|].
    apply IH. unfold delete, JsMap.delete.
    destruct (JsMap.has k (store e0)); simpl; by apply store_wf_remove. }
  pose proof (sweep_fold ks e) as (_ & Hcnt & _).
  destruct (0 <? _) eqn:Hn; simpl.
  - split; [by apply Hfold|]. rewrite Hcnt. unfold counters_le. simpl.
    repeat split; lia.
  - split; [by apply Hfold|]. rewrite Hcnt. apply counters_le_refl.
Qed.

End InvariantsOps.

Lemma store_wf_nil : store_wf [].
Proof. split; constructor. Qed.

(** X7. The store of a new engine holds no key twice and every entry under the
    key it carries, and set, get, delete, has, clear, cleanupExpired,
    updateTTL and increment all keep it so. *)
Theorem store_shape_is_invariant :
  (∀ cfg policy now,
     store_wf (CacheEngine.store (CacheEngine.new cfg policy now)))
  ∧ ∀ e : CacheEngine.t,
      store_wf (CacheEngine.store e) →
      ∀ k v options now delta newTtl,
        store_wf (CacheEngine.store (snd (CacheEngine.set k v options now e)))
        ∧ store_wf (CacheEngine.store (snd (CacheEngine.get k now e)))
        ∧ store_wf (CacheEngine.store (snd (CacheEngine.delete k e)))
        ∧ store_wf (CacheEngine.store (snd (CacheEngine.has k now e)))
        ∧ store_wf (CacheEngine.store (CacheEngine.clear e))
        ∧ store_wf (CacheEngine.store (snd (CacheEngine.cleanupExpired now e)))
        ∧ store_wf
            (CacheEngine.store (snd (CacheEngine.updateTTL k newTtl now e)))
        ∧ store_wf
            (CacheEngine.store (snd (CacheEngine.increment k delta now e))).
Proof.
  split; [intros; apply store_wf_nil|].
  intros e Hwf k v options now delta newTtl.
  split; [apply (set_keeps e Hwf)|].
  split; [apply (get_keeps e Hwf)|].
  split; [apply (delete_keeps e Hwf)|].
  split; [apply (has_keeps e Hwf)|].
  split; [apply store_wf_nil|].
  split; [apply (cleanupExpired_keeps e Hwf)|].
  split; [apply (updateTTL_keeps e Hwf)|].
  apply (increment_keeps e Hwf).
Qed.

(** X8. No operation lowers a counter or changes startTime: set, get and
    cleanupExpired only raise counters, while delete, has, clear,
    updateTTL and increment leave all counters as they are. Every get adds
    exactly one to hitCount + missCount. *)
Theorem counters_never_decrease (e : CacheEngine.t) :
  store_wf (CacheEngine.store e) →
  ∀ k v options now delta newTtl,
    counters_le (CacheEngine.stats e)
      (CacheEngine.stats (snd (CacheEngine.set k v options now e)))
    ∧ counters_le (CacheEngine.stats e)
        (CacheEngine.stats (snd (CacheEngine.get k now e)))
    ∧ counters_le (CacheEngine.stats e)
        (CacheEngine.stats (snd (CacheEngine.cleanupExpired now e)))
    ∧ CacheEngine.stats (snd (CacheEngine.delete k e)) = CacheEngine.stats e
    ∧ CacheEngine.stats (snd (CacheEngine.has k now e)) = CacheEngine.stats e
    ∧ CacheEngine.stats (CacheEngine.clear e) = CacheEngine.stats e
    ∧ CacheEngine.stats (snd (CacheEngine.updateTTL k newTtl now e))
      = CacheEngine.stats e
    ∧ CacheEngine.stats (snd (CacheEngine.increment k delta now e))
      = CacheEngine.stats e
    ∧ hitCount (CacheEngine.stats (snd (CacheEngine.get k now e)))
      + missCount (CacheEngine.stats (snd (CacheEngine.get k now e)))
      = hitCount (CacheEngine.stats e) + missCount (CacheEngine.stats e) + 1.
Proof.
  intros Hwf k v options now delta newTtl.
  split; [apply (set_keeps e Hwf)|].
  split; [apply (get_keeps e Hwf)|].
  split; [apply (cleanupExpired_keeps e Hwf)|].
  split; [apply (delete_keeps e Hwf)|].
  split; [apply (has_keeps e Hwf)|].
  split; [done|].
  split; [apply (updateTTL_keeps e Hwf)|].
  split; [apply (increment_keeps e Hwf)|].
  apply (get_keeps e Hwf).
Qed.

(** ** Reads and writes of one key leave the other keys alone *)

Section Frame.

Import CacheEngine.

Lemma delete_other k k' e :
  k ≠ k' →
  JsMap.get k' (store (snd (delete k e))) = JsMap.get k' (store e).
Proof.
  intros Hne. unfold delete, JsMap.delete.
  destruct (JsMap.has k (store e)); simpl; by apply get_remove_ne.
Qed.

Lemma keys_set_any {V} (m : JsMap.t V) k v v' :
  map fst (JsMap.set k v m) = map fst (JsMap.set k v' m).
Proof.
  induction m as [|[k0 v0] m IH]; simpl; [done|].
  destruct (String.eqb k k0); simpl; [done|]. by f_equal.
Qed.

Lemma onInsert_any s k entry entry' : onInsert s k entry = onInsert s k entry'.
Proof. by destruct s. Qed.

End Frame.

(** X9. get(k) changes no entry stored under another key. On a live entry it
    returns the stored value, sets lastAccessedAt to the instant of the
    call, adds one to accessCount, keeps the order of the keys and counts
    one hit; on an absent key it returns null and only counts one miss. *)
Theorem get_touches_only_its_key (k : string) (now : Z) (e : CacheEngine.t) :
  (∀ k', k' ≠ k →
     JsMap.get k' (CacheEngine.store (snd (CacheEngine.get k now e)))
     = JsMap.get k' (CacheEngine.store e))
  ∧ (∀ entry,
       JsMap.get k (CacheEngine.store e) = Some entry →
       Entry.isExpired entry now = false →
       fst (CacheEngine.get k now e) = value entry
       ∧ JsMap.get k (CacheEngine.store (snd (CacheEngine.get k now e)))
         = Some {| key := key entry; value := value entry;
                   createdAt := createdAt entry;
                   expiresAt := expiresAt entry;
                   lastAccessedAt := now;
                   accessCount := accessCount entry + 1 |}
       ∧ map fst (CacheEngine.store (snd (CacheEngine.get k now e)))
         = map fst (CacheEngine.store e)
       ∧ CacheEngine.stats (snd (CacheEngine.get k now e))
         = CacheEngine.bump_hit (CacheEngine.stats e))
  ∧ (JsMap.get k (CacheEngine.store e) = None →
     CacheEngine.get k now e
     = (VNull,
        CacheEngine.with_stats (CacheEngine.bump_miss (CacheEngine.stats e)) e)).
Proof.
  split; [|split].
  - intros k' Hne. unfold CacheEngine.get.
    destruct (JsMap.get k (CacheEngine.store e)) as [entry|]; [|done].
    destruct (Entry.isExpired entry now).
    + pose proof (delete_other k k' e ltac:(congruence)) as H.
      by destruct (CacheEngine.delete k e).
    + simpl. apply get_set_ne. congruence.
  - intros entry Hget Hlive. unfold CacheEngine.get. rewrite Hget, Hlive.
    simpl. split; [done|]. split; [apply get_set_eq|]. split; [|done].
    apply keys_set_present. unfold JsMap.has. by rewrite Hget.
  - intros Hget. unfold CacheEngine.get. by rewrite Hget.
Qed.

Lemma get_touches_only_its_key_witness :
  fst (CacheEngine.get "key1" 1001 Samples.one_key) = VString "value1".
Proof.
  refine (proj1 (proj1 (proj2
    (get_touches_only_its_key "key1" 1001 Samples.one_key))
    (mkEntry "key1" (VString "value1") 1000 (Some 3601000) 1000 0) _ _)).
  - vm_compute. reflexivity.
  - vm_compute. reflexivity.
Defined.

(** X10. updateTTL on a live key returns true and replaces the entry by a new
    one with the same key and value, created at the instant of the call
    with access count 0, that expires ttl seconds later (never, when ttl
    <= 0). get still returns the value; the other entries, the order of
    the keys, the strategy bookkeeping and the counters are unchanged. *)
Theorem updateTTL_replaces_expiry_only (k : string) (newTtl now : Z)
    (e : CacheEngine.t) (entry : CacheEntry) :
  JsMap.get k (CacheEngine.store e) = Some entry →
  Entry.isExpired entry now = false →
  let e' := snd (CacheEngine.updateTTL k newTtl now e) in
  fst (CacheEngine.updateTTL k newTtl now e) = true
  ∧ JsMap.get k (CacheEngine.store e')
    = Some {| key := key entry; value := value entry;
              createdAt := now;
              expiresAt :=
                if 0 <? newTtl then Some (now + newTtl * 1000) else None;
              lastAccessedAt := now;
              accessCount := 0 |}
  ∧ fst (CacheEngine.get k now e') = value entry
  ∧ (∀ k', k' ≠ k →
       JsMap.get k' (CacheEngine.store e') = JsMap.get k' (CacheEngine.store e))
  ∧ map fst (CacheEngine.store e') = map fst (CacheEngine.store e)
  ∧ CacheEngine.evictionStrategy e' = CacheEngine.evictionStrategy e
  ∧ CacheEngine.stats e' = CacheEngine.stats e.
Proof.
  intros Hget Hlive e'. subst e'. unfold CacheEngine.updateTTL.
  rewrite Hget, Hlive. simpl.
  split; [done|]. split; [apply get_set_eq|].
  split.
  { unfold CacheEngine.get. simpl. rewrite get_set_eq.
    unfold Entry.isExpired, Entry.create. cbn [expiresAt ttl].
    destruct (Z.ltb_spec 0 newTtl); [|done].
    destruct (Z.ltb_spec (now + newTtl * 1000) now); [lia|done]. }
  split; [intros k' Hne; apply get_set_ne; congruence|].
  split; [|done]. apply keys_set_present. unfold JsMap.has. by rewrite Hget.
Qed.

Lemma updateTTL_replaces_expiry_only_witness :
  fst (CacheEngine.get "counter" 1500
         (snd (CacheEngine.updateTTL "counter" 0 1500 Samples.short_lived)))
  = VNumber 10.
Proof.
  refine (proj1 (proj2 (proj2
    (updateTTL_replaces_expiry_only "counter" 0 1500 Samples.short_lived
       (mkEntry "counter" (VNumber 10) 1000 (Some 2000) 1000 0) _ _)))).
  - vm_compute. reflexivity.
  - vm_compute. reflexivity.
Defined.

(** X11. delete(k) returns whether the store held k. Afterwards a second
    delete(k) returns false and changes nothing, has(k) returns false and
    changes nothing, and get(k) returns null; entries under other keys are
    untouched, and deleting an absent key changes nothing at all. *)
Theorem delete_removes_for_good (k : string) (e : CacheEngine.t) :
  let e' := snd (CacheEngine.delete k e) in
  fst (CacheEngine.delete k e) = JsMap.has k (CacheEngine.store e)
  ∧ CacheEngine.delete k e' = (false, e')
  ∧ (∀ now, CacheEngine.has k now e' = (false, e'))
  ∧ (∀ now, fst (CacheEngine.get k now e') = VNull)
  ∧ (∀ k', k' ≠ k →
       JsMap.get k' (CacheEngine.store e') = JsMap.get k' (CacheEngine.store e))
  ∧ (JsMap.has k (CacheEngine.store e) = false → e' = e).
Proof.
  intros e'. subst e'.
  assert (JsMap.get k (CacheEngine.store (snd (CacheEngine.delete k e))) = None)
    as Hgone.
  { unfold CacheEngine.delete, JsMap.delete.
    destruct (JsMap.has k _); simpl; apply get_remove_eq. }
  split.
  { unfold CacheEngine.delete, JsMap.delete. by destruct (JsMap.has k _). }
  split; [by apply delete_absent|].
  split; [intros now; unfold CacheEngine.has; by rewrite Hgone|].
  split; [intros now; unfold CacheEngine.get; by rewrite Hgone|].
  split; [intros k' Hne; apply delete_other; congruence|].
  intros Hno. unfold JsMap.has in Hno.
  destruct (JsMap.get k (CacheEngine.store e)) eqn:Hget; [done|].
  by rewrite delete_absent.
Qed.

Lemma delete_removes_for_good_witness :
  snd (CacheEngine.delete "nonexistent" Samples.one_key) = Samples.one_key.
Proof.
  refine (proj2 (proj2 (proj2 (proj2 (proj2
    (delete_removes_for_good "nonexistent" Samples.one_key))))) _).
  vm_compute. reflexivity.
Defined.

(** ** [set]: what decides success, and what a successful call changes *)

Section SetMore.

Import CacheEngine.

Lemma byteLength_nonneg s : 0 ≤ byteLength s.
Proof.
  induction s as [|c s IH]; simpl; [lia|].
  destruct (_ <? _)%nat; lia.
Qed.

Lemma calculateValueSize_nonneg v : 0 ≤ calculateValueSize v.
Proof.
  destruct v as [| | | |s|[json|]]; simpl; try lia; apply byteLength_nonneg.
Qed.

Lemma usage_fold (m : JsMap.t CacheEntry) acc :
  fold_left
    (λ totalBytes (ke : string * CacheEntry),
       totalBytes + byteLength (fst ke) + calculateValueSize (value (snd ke))
       + 64) m acc
  = acc
    + fold_left
        (λ totalBytes (ke : string * CacheEntry),
           totalBytes + byteLength (fst ke)
           + calculateValueSize (value (snd ke)) + 64) m 0.
Proof.
  revert acc. induction m as [|a m IH]; intros acc; simpl; [lia|].
  rewrite IH. rewrite (IH (0 + _ + _ + _)). lia.
Qed.

Lemma usage_lower_bound e : 64 * JsMap.size (store e) ≤ calculateMemoryUsage e.
Proof.
  unfold calculateMemoryUsage, JsMap.size.
  induction (store e) as [|[k entry] m IH]; simpl; [lia|].
  rewrite usage_fold.
  pose proof (byteLength_nonneg k).
  pose proof (calculateValueSize_nonneg (value entry)). simpl. lia.
Qed.

Lemma usage_with_store_app e k entry :
  calculateMemoryUsage (with_store (store e ++ [(k, entry)]) e)
  = calculateMemoryUsage e + byteLength k + calculateValueSize (value entry)
    + 64.
Proof. unfold calculateMemoryUsage. simpl. by rewrite fold_left_app. Qed.

Lemma usage_with_strategy s e :
  calculateMemoryUsage (with_strategy s e) = calculateMemoryUsage e.
Proof. done. Qed.

Lemma shouldEvict_empty e :
  store e = [] → (0 < maxMemoryMB (config e))%Q → shouldEvict e = false.
Proof.
  intros Hst Hmax. unfold shouldEvict, calculateMemoryUsage.
  rewrite Hst, shouldEvict_of_policy. simpl.
  assert (reached 0 (getMaxMemoryBytes (config e)) = false) as ->.
  { unfold reached, getMaxMemoryBytes.
    destruct (Qle_bool _ _) eqn:E; [|done].
    apply Qle_bool_iff in E. change (inject_Z 0) with 0%Q in E. lra. }
  by destruct (policy_of _).
Qed.

End SetMore.

(** X12. Under the NONE policy set never refuses a valid key that passes the
    overwrite check, whatever the memory usage: it returns true and stores
    the value, leaves every other key, the counters and the strategy as
    they were. *)
Theorem none_policy_never_refuses_for_memory (k : string) (v : Value)
    (options : CacheSetOptions) (now : Z) (e : CacheEngine.t) :
  policy_of (CacheEngine.evictionStrategy e) = NONE →
  CacheEngine.isValidKey k = true →
  (JsMap.get k (CacheEngine.store e) = None ∨ overwrite options = Some true) →
  let e' := snd (CacheEngine.set k v options now e) in
  fst (CacheEngine.set k v options now e) = true
  ∧ (value <$> JsMap.get k (CacheEngine.store e')) = Some v
  ∧ (∀ k', k' ≠ k →
       JsMap.get k' (CacheEngine.store e') = JsMap.get k' (CacheEngine.store e))
  ∧ CacheEngine.stats e' = CacheEngine.stats e
  ∧ CacheEngine.evictionStrategy e' = CacheEngine.evictionStrategy e.
Proof.
  intros Hpol Hk Hov e'. subst e'.
  rewrite (set_unfold k v options now e Hk Hov). cbv zeta.
  assert (CacheEngine.shouldEvict (CacheEngine.unregistered k e) = false)
    as ->.
  { unfold CacheEngine.shouldEvict. rewrite shouldEvict_of_policy.
    unfold CacheEngine.unregistered.
    destruct (defined _); simpl; by rewrite ?policy_onRemove, Hpol. }
  simpl. split; [done|]. split; [by rewrite get_set_eq|].
  split; [intros k' Hne; rewrite get_set_ne by congruence;
          by rewrite unregistered_store|].
  split; [apply unregistered_stats|].
  assert (CacheEngine.evictionStrategy e = StratNone tt) as Hs.
  { by destruct (CacheEngine.evictionStrategy e) as [[]| | |]. }
  unfold CacheEngine.unregistered.
  destruct (defined _); simpl; by rewrite Hs.
Qed.

(** X13. What set does apart from the stored entry does not depend on the
    value: for two values, set on the same engine with the same key and
    options returns the same result and leaves the same keys in the same
    order, the same counters and the same strategy bookkeeping. The size
    of the new value plays no part in the decision to evict or to refuse. *)
Theorem set_success_ignores_the_value (k : string) (v v' : Value)
    (options : CacheSetOptions) (now : Z) (e : CacheEngine.t) :
  fst (CacheEngine.set k v options now e)
  = fst (CacheEngine.set k v' options now e)
  ∧ map fst (CacheEngine.store (snd (CacheEngine.set k v options now e)))
    = map fst (CacheEngine.store (snd (CacheEngine.set k v' options now e)))
  ∧ CacheEngine.stats (snd (CacheEngine.set k v options now e))
    = CacheEngine.stats (snd (CacheEngine.set k v' options now e))
  ∧ CacheEngine.evictionStrategy (snd (CacheEngine.set k v options now e))
    = CacheEngine.evictionStrategy (snd (CacheEngine.set k v' options now e)).
Proof.
  unfold CacheEngine.set.
  destruct (negb (CacheEngine.isValidKey k)); [done|].
  destruct (defined _ && _); [done|].
  destruct (if CacheEngine.shouldEvict _ then _ else _) as [room e2].
  destruct room; simpl; [|done].
  split; [done|]. split; [apply keys_set_any|]. split; [done|].
  apply onInsert_any.
Qed.

(** X14. When set is called with a valid key that passes the overwrite check
    and the ceiling is not reached, entries under other keys and the
    counters are unchanged. A new key goes last and raises the computed
    memory usage by byteLength(key) + size(value) + 64; an existing key
    keeps its place. *)
Theorem set_without_eviction_changes_one_key (k : string) (v : Value)
    (options : CacheSetOptions) (now : Z) (e : CacheEngine.t) :
  CacheEngine.isValidKey k = true →
  (JsMap.get k (CacheEngine.store e) = None ∨ overwrite options = Some true) →
  CacheEngine.shouldEvict (CacheEngine.unregistered k e) = false →
  let e' := snd (CacheEngine.set k v options now e) in
  (∀ k', k' ≠ k →
     JsMap.get k' (CacheEngine.store e') = JsMap.get k' (CacheEngine.store e))
  ∧ (JsMap.get k (CacheEngine.store e) = None →
     map fst (CacheEngine.store e') = map fst (CacheEngine.store e) ++ [k]
     ∧ CacheEngine.calculateMemoryUsage e'
       = CacheEngine.calculateMemoryUsage e + byteLength k
         + CacheEngine.calculateValueSize v + 64)
  ∧ (JsMap.has k (CacheEngine.store e) = true →
     map fst (CacheEngine.store e') = map fst (CacheEngine.store e))
  ∧ CacheEngine.stats e' = CacheEngine.stats e.
Proof.
  intros Hk Hov Hev e'. subst e'.
  rewrite (set_unfold k v options now e Hk Hov). cbv zeta. rewrite Hev.
  simpl. rewrite unregistered_store.
  split; [intros k' Hne; apply get_set_ne; congruence|].
  split.
  { intros Hfresh. rewrite (keys_set_fresh _ _ _ Hfresh).
    split; [by rewrite map_app|].
    unfold CacheEngine.calculateMemoryUsage. simpl.
    by rewrite fold_left_app. }
  split; [intros Hhas; by apply keys_set_present|].
  apply unregistered_stats.
Qed.

(** X15. On an empty store with a positive ceiling, set accepts every valid
    key whatever the size of the value; the computed memory usage
    afterwards is byteLength(key) + size(value) + 64, which may exceed the
    ceiling. *)
Theorem first_set_always_fits (k : string) (v : Value)
    (options : CacheSetOptions) (now : Z) (e : CacheEngine.t) :
  CacheEngine.store e = [] →
  (0 < maxMemoryMB (CacheEngine.config e))%Q →
  CacheEngine.isValidKey k = true →
  fst (CacheEngine.set k v options now e) = true
  ∧ CacheEngine.calculateMemoryUsage (snd (CacheEngine.set k v options now e))
    = byteLength k + CacheEngine.calculateValueSize v + 64.
Proof.
  intros Hst Hmax Hk.
  assert (JsMap.get k (CacheEngine.store e) = None) as Hfresh
    by (by rewrite Hst).
  rewrite (set_unfold k v options now e Hk (or_introl Hfresh)). cbv zeta.
  assert (CacheEngine.unregistered k e = e) as ->
    by (unfold CacheEngine.unregistered; by rewrite Hfresh).
  rewrite (shouldEvict_empty e Hst Hmax). simpl.
  split; [done|]. unfold CacheEngine.calculateMemoryUsage. simpl.
  rewrite Hst. simpl. lia.
Qed.

(** * The rate limiter of the HTTP layer *)

Section RateLimit.

Import RateLimiter.

Lemma rateLimiter_other ip now (requests : gmap string ClientWindow) id :
  clientIdOf ip ≠ id →
  snd (rateLimiter ip now requests) !! id = requests !! id.
Proof.
  intros Hne. unfold rateLimiter.
  destruct (requests !! clientIdOf ip) as [client|]; simpl.
  - destruct (resetTime client <? now); simpl; [by rewrite lookup_insert_ne|].
    destruct (MAX_REQUESTS <=? count client); simpl; [done|].
    by rewrite lookup_insert_ne.
  - by rewrite lookup_insert_ne.
Qed.

Lemma passed_in_window id reqs :
  ∀ (requests : gmap string ClientWindow) w,
    requests !! id = Some w →
    (∀ ip now, In (ip, now) reqs → now ≤ resetTime w) →
    0 ≤ passed id reqs requests ≤ Z.max 0 (MAX_REQUESTS - count w).
Proof.
  induction reqs as [|[ip now] reqs IH]; intros requests w Hw Htimes; simpl.
  - lia.
  - assert (now ≤ resetTime w) as Hnow by (apply (Htimes ip); by left).
    assert (∀ ip' now', In (ip', now') reqs → now' ≤ resetTime w) as Hrest
      by (intros ip' now' Hin; apply (Htimes ip'); by right).
    destruct (String.eqb (clientIdOf ip) id) eqn:E.
    + apply String.eqb_eq in E. unfold rateLimiter. rewrite E, Hw.
      destruct (Z.ltb_spec (resetTime w) now); [lia|].
      destruct (Z.leb_spec MAX_REQUESTS (count w)).
      * specialize (IH requests w Hw Hrest). lia.
      * specialize (IH (<[id := {| count := count w + 1;
                                   resetTime := resetTime w |}]> requests)
                      {| count := count w + 1; resetTime := resetTime w |}).
        rewrite lookup_insert_eq in IH. specialize (IH eq_refl Hrest).
        simpl in IH. lia.
    + apply String.eqb_neq in E.
      pose proof (rateLimiter_other ip now requests id E) as Hsame.
      destruct (rateLimiter ip now requests) as [o requests']. simpl in *.
      rewrite Hw in Hsame. specialize (IH requests' w Hsame Hrest). lia.
Qed.

End RateLimit.

(** X16. A request of a client that has no window, or whose window has ended,
    is let through and opens a window of 60000 ms. Of the requests that
    arrive from any clients until that window ends, the rate limiter lets
    through at most 1000 of this client, the opening request included. *)
Theorem rate_limit_caps_a_window (id : string) (ip : option string) (t0 : Z)
    (reqs : list (option string * Z))
    (requests : gmap string RateLimiter.ClientWindow) :
  RateLimiter.clientIdOf ip = id →
  (∀ w, requests !! id = Some w → RateLimiter.resetTime w < t0) →
  (∀ ip' now, In (ip', now) reqs → now ≤ t0 + RateLimiter.WINDOW_MS) →
  fst (RateLimiter.rateLimiter ip t0 requests) = RateLimiter.Next
  ∧ 0 ≤ RateLimiter.passed id ((ip, t0) :: reqs) requests ≤ 1000.
Proof.
  intros Hid Hopen Htimes. cbn [RateLimiter.passed].
  assert (RateLimiter.rateLimiter ip t0 requests
          = (RateLimiter.Next,
             <[id := {| RateLimiter.count := 1;
                        RateLimiter.resetTime := t0 + RateLimiter.WINDOW_MS |}]>
               requests)) as ->.
  { unfold RateLimiter.rateLimiter. rewrite Hid.
    destruct (requests !! id) as [w|] eqn:Hw; [|done].
    specialize (Hopen w eq_refl).
    by destruct (Z.ltb_spec (RateLimiter.resetTime w) t0); [|lia]. }
  split; [done|].
  rewrite Hid, String.eqb_refl.
  pose proof (passed_in_window id reqs
    (<[id := {| RateLimiter.count := 1;
                RateLimiter.resetTime := t0 + RateLimiter.WINDOW_MS |}]>
       requests)
    {| RateLimiter.count := 1;
       RateLimiter.resetTime := t0 + RateLimiter.WINDOW_MS |}) as H.
  rewrite lookup_insert_eq in H. specialize (H eq_refl Htimes).
  unfold RateLimiter.MAX_REQUESTS in H. simpl in H. lia.
Qed.

Lemma rate_limit_caps_a_window_witness :
  0 ≤ RateLimiter.passed "10.0.0.1"
        [(Some "10.0.0.1", 5000); (Some "10.0.0.2", 5001);
         (Some "10.0.0.1", 5002)] ∅ ≤ 1000.
Proof.
  refine (proj2 (rate_limit_caps_a_window "10.0.0.1" (Some "10.0.0.1") 5000
                   [(Some "10.0.0.2", 5001); (Some "10.0.0.1", 5002)] ∅
                   _ _ _)).
  - reflexivity.
  - intros w Hw. rewrite lookup_empty in Hw. discriminate.
  - intros ip' now [[= <- <-]|[[= <- <-]|[]]]; vm_compute; discriminate.
Defined.

(** X17. One request through the rate limiter never touches the window of
    another client. It is answered with 429 exactly when the client has a
    window that has not ended and whose count has reached 1000, and then
    the map of windows is unchanged; a request let through inside a
    running window adds one to its count and keeps its reset time. *)
Theorem rate_limit_step (ip : option string) (now : Z)
    (requests : gmap string RateLimiter.ClientWindow) :
  let id := RateLimiter.clientIdOf ip in
  let r := RateLimiter.rateLimiter ip now requests in
  (∀ id', id' ≠ id → snd r !! id' = requests !! id')
  ∧ (fst r = RateLimiter.TooManyRequests ↔
     ∃ w, requests !! id = Some w ∧ now ≤ RateLimiter.resetTime w
          ∧ 1000 ≤ RateLimiter.count w)
  ∧ (fst r = RateLimiter.TooManyRequests → snd r = requests)
  ∧ (fst r = RateLimiter.Next →
     ∃ w', snd r !! id = Some w' ∧ now ≤ RateLimiter.resetTime w'
           ∧ ∀ w, requests !! id = Some w → now ≤ RateLimiter.resetTime w →
               RateLimiter.count w' = RateLimiter.count w + 1
               ∧ RateLimiter.resetTime w' = RateLimiter.resetTime w).
Proof.
  intros id r. subst id r.
  split; [intros id' Hne; by apply rateLimiter_other|].
  unfold RateLimiter.rateLimiter, RateLimiter.MAX_REQUESTS,
    RateLimiter.WINDOW_MS.
  destruct (requests !! RateLimiter.clientIdOf ip) as [w|] eqn:Hw; simpl.
  - destruct (Z.ltb_spec (RateLimiter.resetTime w) now); simpl.
    + split; [split; [done|intros (w0 & [= <-] & ? & ?); lia]|].
      split; [done|]. intros _. eexists. rewrite lookup_insert_eq.
      split; [done|]. simpl. split; [lia|].
      intros w0 [= <-] ?. lia.
    + destruct (Z.leb_spec 1000 (RateLimiter.count w)); simpl.
      * split; [split; [intros _; by exists w|done]|]. split; [done|]. done.
      * split; [split; [done|intros (w0 & [= <-] & ? & ?); lia]|].
        split; [done|]. intros _. eexists. rewrite lookup_insert_eq.
        split; [done|]. simpl. split; [lia|].
        by intros w0 [= <-] ?.
  - split; [split; [done|by intros (w0 & ? & _)]|]. split; [done|].
    intros _. eexists. rewrite lookup_insert_eq. split; [done|]. simpl.
    split; [lia|]. done.
Qed.

(** * The cleanup worker *)

Section Worker.

Import CleanupWorker.

Lemma clearInterval_own h ms next :
  clearInterval h {| active := [(h, ms)]; nextHandle := next |}
  = {| active := []; nextHandle := next |}.
Proof. unfold clearInterval. simpl. by rewrite Nat.eqb_refl. Qed.

Lemma start_agrees w tm :
  timers_agree w tm →
  timers_agree (fst (start w tm)) (snd (start w tm))
  ∧ isRunning (fst (start w tm)) = true
  ∧ config (fst (start w tm)) = config w
  ∧ stats (fst (start w tm)) = stats w.
Proof.
  unfold timers_agree, start. destruct (isRunning w) eqn:Hr; simpl.
  - intros H. by rewrite Hr.
  - intros [Hid Hact]. rewrite Hact. simpl. split; [|done]. by eexists.
Qed.

Lemma stop_agrees w tm :
  timers_agree w tm →
  timers_agree (fst (stop w tm)) (snd (stop w tm))
  ∧ isRunning (fst (stop w tm)) = false
  ∧ config (fst (stop w tm)) = config w
  ∧ stats (fst (stop w tm)) = stats w.
Proof.
  unfold timers_agree, stop. destruct (isRunning w) eqn:Hr; simpl.
  - intros (h & Hid & Hact). rewrite Hid. split; [|done]. split; [done|].
    unfold clearInterval. simpl. rewrite Hact. simpl. by rewrite Nat.eqb_refl.
  - intros H. by rewrite Hr.
Qed.

Lemma validate_interval_update ms (global : Config.CacheConfig) :
  0 < ms →
  Config.validateConfig global = None →
  Config.validateConfig
    (Config.merge global
       {| Config.p_maxMemoryMB := None; Config.p_defaultTTL := None;
          Config.p_cleanupIntervalMs := Some ms;
          Config.p_evictionPolicy := None; Config.p_persistenceEnabled := None;
          Config.p_persistenceIntervalMs := None;
          Config.p_snapshotPath := None; Config.p_aofPath := None;
          Config.p_port := None; Config.p_host := None;
          Config.p_clusterEnabled := None; Config.p_logLevel := None |})
  = None.
Proof.
  intros Hms. unfold Config.validateConfig, Config.merge. simpl.
  destruct (Qle_bool _ _); [done|].
  destruct (Config.defaultTTL global <? 0); [done|].
  destruct (Config.cleanupIntervalMs global <=? 0); [done|].
  destruct (negb _); [done|].
  destruct (_ || _); [done|]. intros _.
  by destruct (Z.leb_spec ms 0); [lia|].
Qed.

End Worker.

(** X18. In a runtime whose only interval timers are the worker's, a running
    CleanupWorker owns exactly one running timer, whose period is the
    configured cleanup interval, and a stopped one owns none: the
    constructor, start and stop keep it so. start on a running worker and
    stop on a stopped worker change nothing. *)
Theorem worker_owns_at_most_one_timer :
  (∀ cfg, CleanupWorker.timers_agree (CleanupWorker.new cfg) noTimers)
  ∧ ∀ w tm,
      CleanupWorker.timers_agree w tm →
      (CleanupWorker.timers_agree (fst (CleanupWorker.start w tm))
         (snd (CleanupWorker.start w tm))
       ∧ CleanupWorker.isRunning (fst (CleanupWorker.start w tm)) = true)
      ∧ (CleanupWorker.timers_agree (fst (CleanupWorker.stop w tm))
           (snd (CleanupWorker.stop w tm))
         ∧ CleanupWorker.isRunning (fst (CleanupWorker.stop w tm)) = false)
      ∧ CleanupWorker.start (fst (CleanupWorker.start w tm))
          (snd (CleanupWorker.start w tm))
        = CleanupWorker.start w tm
      ∧ CleanupWorker.stop (fst (CleanupWorker.stop w tm))
          (snd (CleanupWorker.stop w tm))
        = CleanupWorker.stop w tm.
Proof.
  split; [done|]. intros w tm Hag.
  destruct (start_agrees w tm Hag) as (Hs1 & Hs2 & _).
  destruct (stop_agrees w tm Hag) as (Ht1 & Ht2 & _).
  split; [done|]. split; [done|]. split.
  - unfold CleanupWorker.start at 1. rewrite Hs2.
    by destruct (CleanupWorker.start w tm).
  - unfold CleanupWorker.stop at 1. rewrite Ht2. simpl.
    by destruct (CleanupWorker.stop w tm).
Qed.

Lemma worker_owns_at_most_one_timer_witness :
  CleanupWorker.isRunning
    (fst (CleanupWorker.start (CleanupWorker.new Config.defaults) noTimers))
  = true.
Proof.
  refine (proj2 (proj1 (proj2 worker_owns_at_most_one_timer
    (CleanupWorker.new Config.defaults) noTimers _))).
  vm_compute. done.
Defined.

(** X19. updateInterval(ms) throws and changes nothing when ms <= 0. For ms >
    0 and a valid global configuration it returns normally, the worker
    runs exactly if it ran before, now with period ms, and its run
    statistics are kept. When the configuration update throws (another
    field of the global configuration is invalid), the worker is left
    stopped with its old copy of the configuration, although the global
    configuration already holds the new interval. *)
Theorem updateInterval_restarts_with_new_period (ms : Z)
    (global : Config.CacheConfig) (w : CleanupWorker.t) (tm : Timers) :
  CleanupWorker.timers_agree w tm →
  let r := CleanupWorker.updateInterval ms global w tm in
  let w' := snd (fst r) in
  CleanupWorker.timers_agree w' (snd r)
  ∧ (ms ≤ 0 → r = (Some "Cleanup interval must be greater than 0",
                    global, w, tm))
  ∧ (0 < ms → Config.validateConfig global = None →
     fst (fst (fst r)) = None
     ∧ CleanupWorker.isRunning w' = CleanupWorker.isRunning w
     ∧ Config.cleanupIntervalMs (CleanupWorker.config w') = ms
     ∧ Config.cleanupIntervalMs (snd (fst (fst r))) = ms
     ∧ CleanupWorker.stats w' = CleanupWorker.stats w)
  ∧ (0 < ms → fst (fst (fst r)) ≠ None →
     CleanupWorker.isRunning w' = false
     ∧ CleanupWorker.config w' = CleanupWorker.config w
     ∧ Config.cleanupIntervalMs (snd (fst (fst r))) = ms).
Proof.
  intros Hag r w'. subst r w'. unfold CleanupWorker.updateInterval.
  destruct (Z.leb_spec ms 0) as [Hle|Hgt].
  { simpl. split; [done|]. split; [done|]. split; intros; lia. }
  unfold Config.update.
  set (u := {| Config.p_maxMemoryMB := None; Config.p_defaultTTL := None;
               Config.p_cleanupIntervalMs := Some ms;
               Config.p_evictionPolicy := None;
               Config.p_persistenceEnabled := None;
               Config.p_persistenceIntervalMs := None;
               Config.p_snapshotPath := None; Config.p_aofPath := None;
               Config.p_port := None; Config.p_host := None;
               Config.p_clusterEnabled := None; Config.p_logLevel := None |}).
  pose proof (stop_agrees w tm Hag) as (Ht1 & Ht2 & Ht3 & Ht4).
  assert (∃ w1 tm1,
    (if CleanupWorker.isRunning w then CleanupWorker.stop w tm else (w, tm))
    = (w1, tm1)
    ∧ CleanupWorker.timers_agree w1 tm1
    ∧ CleanupWorker.isRunning w1 = false
    ∧ CleanupWorker.config w1 = CleanupWorker.config w
    ∧ CleanupWorker.stats w1 = CleanupWorker.stats w)
    as (w1 & tm1 & -> & Hag1 & Hr1 & Hc1 & Hst1).
  { destruct (CleanupWorker.isRunning w) eqn:Hr.
    - destruct (CleanupWorker.stop w tm) as [w1 tm1]. by exists w1, tm1.
    - by exists w, tm. }
  destruct (Config.validateConfig (Config.merge global u)) as [msg|] eqn:Hval.
  - simpl. split; [done|]. split; [lia|]. split; [|done].
    intros _ Hok. pose proof (validate_interval_update ms global Hgt Hok) as H.
    fold u in H. congruence.
  - set (w2 := {| CleanupWorker.config := Config.merge global u;
                  CleanupWorker.intervalId := CleanupWorker.intervalId w1;
                  CleanupWorker.isRunning := CleanupWorker.isRunning w1;
                  CleanupWorker.stats := CleanupWorker.stats w1 |}).
    assert (CleanupWorker.timers_agree w2 tm1) as Hag2.
    { unfold CleanupWorker.timers_agree in *. simpl. by rewrite Hr1 in *. }
    pose proof (start_agrees w2 tm1 Hag2) as (Hs1 & Hs2 & Hs3 & Hs4).
    destruct (CleanupWorker.isRunning w) eqn:Hr.
    + destruct (CleanupWorker.start w2 tm1) as [w3 tm3]. simpl in *.
      split; [done|]. split; [lia|]. split; [|done].
      intros _ _. rewrite Hs3, Hs4. by repeat split.
    + simpl. split; [done|]. split; [lia|]. split; [|done].
      intros _ _. by repeat split.
Qed.

Lemma updateInterval_restarts_with_new_period_witness :
  Config.cleanupIntervalMs
    (CleanupWorker.config
       (snd (fst (CleanupWorker.updateInterval 5000 Config.defaults
                    (fst (CleanupWorker.start
                            (CleanupWorker.new Config.defaults) noTimers))
                    (snd (CleanupWorker.start
                            (CleanupWorker.new Config.defaults) noTimers))))))
  = 5000.
Proof.
  refine (proj1 (proj2 (proj2 (proj1 (proj2 (proj2
    (updateInterval_restarts_with_new_period 5000 Config.defaults
       (fst (CleanupWorker.start (CleanupWorker.new Config.defaults) noTimers))
       (snd (CleanupWorker.start (CleanupWorker.new Config.defaults) noTimers))
       _))) _ _)))).
  - vm_compute. by eexists.
  - lia.
  - vm_compute. reflexivity.
Defined.

Section RunningAverage.

Lemma Math_round_between lo hi (x : Q) :
  (inject_Z lo <= x)%Q → (x <= inject_Z hi)%Q → lo ≤ Math_round x ≤ hi.
Proof.
  intros Hlo Hhi. destruct (Math_round_near x) as [H1 H2].
  split.
  - destruct (Z_le_gt_dec lo (Math_round x)) as [|Hgt]; [done|].
    assert (Math_round x + 1 ≤ lo) as Hle by lia.
    rewrite Zle_Qle, inject_Z_plus in Hle.
    change (inject_Z 1) with 1%Q in Hle. exfalso. lra.
  - destruct (Z_le_gt_dec (Math_round x) hi) as [|Hgt]; [done|].
    assert (hi + 1 ≤ Math_round x) as Hle by lia.
    rewrite Zle_Qle, inject_Z_plus in Hle.
    change (inject_Z 1) with 1%Q in Hle. exfalso. lra.
Qed.

Lemma mean_between lo hi a d n :
  1 ≤ n → lo ≤ a ≤ hi → lo ≤ d ≤ hi →
  (inject_Z lo <= inject_Z (a * (n - 1) + d) / inject_Z n)%Q
  ∧ (inject_Z (a * (n - 1) + d) / inject_Z n <= inject_Z hi)%Q.
Proof.
  intros Hn Ha Hd.
  assert (0 < inject_Z n)%Q as Hpos.
  { change 0%Q with (inject_Z 0). rewrite <- Zlt_Qlt. lia. }
  split.
  - apply Qle_shift_div_l; [done|].
    rewrite <- inject_Z_mult, <- Zle_Qle. nia.
  - apply Qle_shift_div_r; [done|].
    rewrite <- inject_Z_mult, <- Zle_Qle. nia.
Qed.

End RunningAverage.

(** X20. A cleanup run on a store as the engine builds it (no key twice, each
    entry under its own key) reports success, the duration and the number
    of expired entries removed, which is by how much the store shrank and
    by how much the engine's expiredCount and the worker's
    totalExpiredKeys grew. totalRuns grows by one, lastRunTime is the end
    of the run, and the new average duration lies between the old average
    and the duration of this run (it is that duration after the first
    run); whether the worker is running is unchanged. *)
Theorem performCleanup_accounts_for_the_run (startTime endTime : Z)
    (engine : CacheEngine.t) (w : CleanupWorker.t) :
  store_wf (CacheEngine.store engine) →
  0 ≤ CleanupWorker.totalRuns (CleanupWorker.stats w) →
  let r := CleanupWorker.performCleanup startTime endTime engine w in
  let result := fst (fst r) in
  let engine' := snd (fst r) in
  let w' := snd r in
  let d := endTime - startTime in
  let avg := CleanupWorker.averageRunDuration (CleanupWorker.stats w) in
  CleanupWorker.success result = true
  ∧ CleanupWorker.duration result = d
  ∧ CacheEngine.store engine' = live_entries startTime (CacheEngine.store engine)
  ∧ CleanupWorker.expiredKeysRemoved result
    = JsMap.size (CacheEngine.store engine)
      - JsMap.size (CacheEngine.store engine')
  ∧ expiredCount (CacheEngine.stats engine')
    = expiredCount (CacheEngine.stats engine)
      + CleanupWorker.expiredKeysRemoved result
  ∧ CleanupWorker.totalRuns (CleanupWorker.stats w')
    = CleanupWorker.totalRuns (CleanupWorker.stats w) + 1
  ∧ CleanupWorker.totalExpiredKeys (CleanupWorker.stats w')
    = CleanupWorker.totalExpiredKeys (CleanupWorker.stats w)
      + CleanupWorker.expiredKeysRemoved result
  ∧ CleanupWorker.lastRunTime (CleanupWorker.stats w') = endTime
  ∧ Z.min avg d ≤ CleanupWorker.averageRunDuration (CleanupWorker.stats w')
    ≤ Z.max avg d
  ∧ (CleanupWorker.totalRuns (CleanupWorker.stats w) = 0 →
     CleanupWorker.averageRunDuration (CleanupWorker.stats w') = d)
  ∧ CleanupWorker.isRunning w' = CleanupWorker.isRunning w
  ∧ CleanupWorker.intervalId w' = CleanupWorker.intervalId w.
Proof.
  intros Hwf Hruns r result engine' w' d avg.
  subst r result engine' w'. unfold CleanupWorker.performCleanup.
  pose proof (cleanup_store startTime engine Hwf) as Hst.
  assert (fst (CacheEngine.cleanupExpired startTime engine)
          = JsMap.size (CacheEngine.store engine)
            - JsMap.size
                (CacheEngine.store
                   (snd (CacheEngine.cleanupExpired startTime engine)))
          ∧ CacheEngine.stats
              (snd (CacheEngine.cleanupExpired startTime engine))
            = CacheEngine.add_expired
                (fst (CacheEngine.cleanupExpired startTime engine))
                (CacheEngine.stats engine)) as [Hn Hcnt].
  { revert Hst. unfold CacheEngine.cleanupExpired.
    pose proof (sweep_fold
      (map fst (filter (λ ke, Entry.isExpired (snd ke) startTime)
                  (CacheEngine.store engine))) engine) as (_ & Hc & _ & _).
    rewrite length_map.
    set (n := List.length (filter _ (CacheEngine.store engine))) in *.
    assert (n + List.length (live_entries startTime (CacheEngine.store engine))
            = List.length (CacheEngine.store engine))%nat as Hlen
      by apply length_expired_live.
    destruct (0 <? Z.of_nat n) eqn:Hn; simpl; intros Hst; rewrite Hst.
    - split; [unfold JsMap.size; lia|]. by rewrite Hc.
    - split; [unfold JsMap.size; lia|].
      assert (n = 0%nat) as -> by lia. rewrite Hc.
      destruct (CacheEngine.stats engine). unfold CacheEngine.add_expired.
      simpl. by rewrite Z.add_0_r. }
  destruct (CacheEngine.cleanupExpired startTime engine) as [n engine'].
  simpl in *. rewrite Hcnt. simpl.
  split; [done|]. split; [done|]. split; [done|]. split; [done|].
  split; [done|]. split; [done|]. split; [done|]. split; [done|].
  fold d avg.
  set (runs := CleanupWorker.totalRuns (CleanupWorker.stats w) + 1).
  split.
  - destruct (mean_between (Z.min avg d) (Z.max avg d) avg d runs)
      as [H1 H2]; [lia|lia|lia|].
    by apply Math_round_between.
  - split; [|done]. intros H0.
    assert (runs = 1) as -> by lia. replace (avg * (1 - 1) + d) with d by lia.
    assert (inject_Z d / inject_Z 1 == inject_Z d)%Q as Heq
      by (change (inject_Z 1) with 1%Q; field).
    destruct (Math_round_between d d (inject_Z d / inject_Z 1)) as [? ?];
      [rewrite Heq; apply Qle_refl|rewrite Heq; apply Qle_refl|lia].
Qed.

(** X21. With a non-negative cleanup interval and a clock that is not before
    the last run, getStats().nextRunIn lies between 0 and the cleanup
    interval. It is 0 whenever the worker is not running, and also
    whenever lastRunTime is 0, that is before the first run. *)
Theorem nextRunIn_is_within_one_interval (now : Z) (w : CleanupWorker.t) :
  0 ≤ Config.cleanupIntervalMs (CleanupWorker.config w) →
  CleanupWorker.lastRunTime (CleanupWorker.stats w) ≤ now →
  0 ≤ CleanupWorker.s_nextRunIn (CleanupWorker.getStats now w)
    ≤ Config.cleanupIntervalMs (CleanupWorker.config w)
  ∧ (CleanupWorker.isRunning w = false →
     CleanupWorker.s_nextRunIn (CleanupWorker.getStats now w) = 0)
  ∧ (CleanupWorker.lastRunTime (CleanupWorker.stats w) = 0 →
     CleanupWorker.s_nextRunIn (CleanupWorker.getStats now w) = 0).
Proof.
  intros Hint Hlast. unfold CleanupWorker.getStats, CleanupWorker.getNextRunTime.
  simpl. destruct (CleanupWorker.isRunning w); simpl.
  - destruct (Z.eqb_spec (CleanupWorker.lastRunTime (CleanupWorker.stats w)) 0).
    + split; [lia|]. done.
    + split; [lia|]. done.
  - split; [lia|]. done.
Qed.

(** * The statistics collector *)

Section Collector.

Import StatsCollector.

Lemma Qgtb_lt x y : Qgtb x y = true ↔ (y < x)%Q.
Proof.
  unfold Qgtb. rewrite negb_true_iff. split.
  - intros H. apply Qnot_le_lt. intros Hle. apply Qle_bool_iff in Hle.
    congruence.
  - intros H. destruct (Qle_bool x y) eqn:E; [|done].
    apply Qle_bool_iff in E. by apply Qlt_not_le in H.
Qed.

Lemma Qltb_lt x y : Qltb x y = true ↔ (x < y)%Q.
Proof. apply Qgtb_lt. Qed.

Lemma Qgtb_false x y : Qgtb x y = false ↔ (x <= y)%Q.
Proof.
  unfold Qgtb. rewrite negb_false_iff. apply Qle_bool_iff.
Qed.

Lemma Qmax_js_ge x y : (x <= Qmax_js x y)%Q.
Proof.
  unfold Qmax_js. destruct (Qle_bool x y) eqn:E; [|apply Qle_refl].
  by apply Qle_bool_iff.
Qed.

Lemma sum_constant T (l : list Sample) acc :
  Forall (λ s, operations s = T) l →
  fold_left (λ sum entry, sum + operations entry) l acc
  = acc + T * Z.of_nat (List.length l).
Proof.
  revert acc. induction l as [|s l IH]; intros acc Hall; simpl; [lia|].
  apply Forall_cons in Hall as [Hs Hl]. rewrite IH by done. lia.
Qed.

Lemma sum_fold (l : list Sample) acc :
  fold_left (λ sum entry, sum + operations entry) l acc
  = acc + foldr Z.add 0 (map operations l).
Proof.
  revert acc. induction l as [|s l IH]; intros acc; simpl; [lia|].
  rewrite IH. lia.
Qed.

Lemma sum_bounds B (l : list Sample) :
  Forall (λ s, 0 ≤ operations s < B) l →
  0 ≤ foldr Z.add 0 (map operations l) ≤ (B - 1) * Z.of_nat (List.length l).
Proof.
  induction l as [|s l IH]; intros Hall; simpl; [lia|].
  apply Forall_cons in Hall as [Hs Hl]. specialize (IH Hl). lia.
Qed.

Lemma last10_split (older recent : list Sample) :
  List.length recent = Nat.min 10 (List.length (older ++ recent)) →
  last10 (older ++ recent) = recent.
Proof.
  intros Hlen. unfold last10. rewrite length_app in *.
  replace (List.length older + List.length recent - 10)%nat
    with (List.length older) by lia.
  rewrite skipn_app, skipn_all, Nat.sub_diag. done.
Qed.

Lemma Math_round_comp x y : (x == y)%Q → Math_round x = Math_round y.
Proof.
  intros Heq. unfold Math_round. apply Qfloor_comp. by rewrite Heq.
Qed.

Lemma Math_round_Z n : Math_round (inject_Z n) = n.
Proof.
  destruct (Math_round_between n n (inject_Z n)) as [H1 H2];
    [apply Qle_refl..|lia].
Qed.

(** [Math.round(x * 100) / 100] of a double that holds an integer. *)
Lemma two_decimals_of_integer (d : Q) (T : Z) :
  (d == inject_Z T)%Q → Z.abs (T * 100) < 2 ^ 53 →
  (Double.div (inject_Z (Math_round (Double.mul d 100))) 100 == inject_Z T)%Q.
Proof.
  intros Hd HT. unfold Double.div, Double.mul.
  assert (d * 100 == inject_Z (T * 100))%Q as Hprod.
  { rewrite Hd, inject_Z_mult. reflexivity. }
  rewrite (Math_round_comp _ _ (Qeq_trans _ _ _ (fl_comp _ _ Hprod)
                                  (fl_int _ HT))), Math_round_Z.
  assert (inject_Z (T * 100) / 100 == inject_Z T)%Q as Hquot.
  { rewrite inject_Z_mult. change (inject_Z 100) with 100%Q. field. }
  rewrite (fl_comp _ _ Hquot). apply fl_int. lia.
Qed.

End Collector.

(** X22. The once-a-second tracking callback keeps at most 60 samples: below
    60 it appends the new sample (the instant, the cumulative hitCount +
    missCount, the memory usage), at 60 it also drops the oldest. It never
    changes the recorded peak of operations per second. *)
Theorem performance_history_is_bounded (now : Z) (engine : CacheEngine.t)
    (c : StatsCollector.t) :
  (List.length (StatsCollector.performanceHistory c) ≤ 60)%nat →
  let h := StatsCollector.performanceHistory c in
  let h' :=
    StatsCollector.performanceHistory (StatsCollector.track now engine c) in
  let entry :=
    {| StatsCollector.timestamp := now;
       StatsCollector.operations :=
         hitCount (CacheEngine.stats engine)
         + missCount (CacheEngine.stats engine);
       StatsCollector.memoryMB :=
         CacheStats.memoryUsageMB (fst (CacheEngine.getStats now engine)) |} in
  (List.length h' ≤ 60)%nat
  ∧ ((List.length h < 60)%nat → h' = h ++ [entry])
  ∧ (List.length h = 60%nat → h' = tail h ++ [entry])
  ∧ StatsCollector.peakOpsPerSecond (StatsCollector.track now engine c)
    = StatsCollector.peakOpsPerSecond c.
Proof.
  intros Hlen h h' entry. subst h h'. unfold StatsCollector.track. simpl.
  fold entry. rewrite length_app. simpl.
  unfold StatsCollector.HISTORY_LIMIT.
  destruct (Nat.ltb_spec 60
              (List.length (StatsCollector.performanceHistory c) + 1))
    as [Hfull|Hroom].
  - split.
    { destruct (StatsCollector.performanceHistory c) as [|s l]; simpl in *;
        [lia|]. rewrite length_app. simpl. lia. }
    split; [lia|]. split; [|done]. intros _.
    destruct (StatsCollector.performanceHistory c) as [|s l]; simpl in *;
      [lia|done].
  - split; [rewrite length_app; simpl; lia|].
    split; [done|]. split; [lia|done].
Qed.

Lemma performance_history_is_bounded_witness :
  (List.length
     (StatsCollector.performanceHistory
        (StatsCollector.track 2000 Samples.two_hits_one_miss
           (StatsCollector.new Config.defaults 1000))) ≤ 60)%nat.
Proof.
  refine (proj1 (performance_history_is_bounded 2000 Samples.two_hits_one_miss
                   (StatsCollector.new Config.defaults 1000) _)).
  vm_compute. lia.
Defined.

(** X23. getPerformanceStats reports 0 operations per second on an empty
    history. Otherwise it reports the mean of the cumulative operation
    totals held by the last ten samples (by all samples when there are
    fewer), rounded to two decimals in double arithmetic: with totals from
    0 to below 2^30 the report is within 0.005 + 10^-6 of that mean, and
    when these samples all hold the same total T (no request arrived in
    between) it is exactly T, not 0. The call never lowers the recorded
    peak and does not change the history. *)
Theorem operationsPerSecond_is_a_mean_of_totals (c : StatsCollector.t) :
  let r := StatsCollector.getPerformanceStats c in
  (StatsCollector.performanceHistory c = [] →
   StatsCollector.operationsPerSecond (fst r) = 0%Q ∧ snd r = c)
  ∧ (StatsCollector.peakOpsPerSecond c
     <= StatsCollector.peakOpsPerSecond (snd r))%Q
  ∧ StatsCollector.performanceHistory (snd r)
    = StatsCollector.performanceHistory c
  ∧ ∀ older recent : list StatsCollector.Sample,
      StatsCollector.performanceHistory c = older ++ recent →
      recent ≠ [] →
      List.length recent
      = Nat.min 10 (List.length (StatsCollector.performanceHistory c)) →
      Forall (λ s, 0 ≤ StatsCollector.operations s < 2 ^ 30) recent →
      (Qabs (StatsCollector.operationsPerSecond (fst r)
             - inject_Z
                 (foldr Z.add 0%Z (map StatsCollector.operations recent))
               / inject_Z (Z.of_nat (List.length recent)))
       <= (1 # 200) + (1 # 1000000))%Q
      ∧ ∀ T,
          Forall (λ s, StatsCollector.operations s = T) recent →
          (StatsCollector.operationsPerSecond (fst r) == inject_Z T)%Q.
Proof.
  intros r. subst r. unfold StatsCollector.getPerformanceStats.
  split; [intros ->; by simpl|].
  destruct (StatsCollector.last10 (StatsCollector.performanceHistory c))
    as [|s l] eqn:Hrecent.
  - simpl. split; [apply Qle_refl|]. split; [done|].
    intros older recent Hsplit Hne Hlen _. exfalso. apply Hne.
    rewrite Hsplit in Hrecent, Hlen.
    by rewrite (last10_split older recent Hlen) in Hrecent.
  - cbn [fst snd StatsCollector.operationsPerSecond
         StatsCollector.peakOpsPerSecond StatsCollector.performanceHistory].
    split; [apply Qmax_js_ge|]. split; [done|].
    intros older recent Hsplit Hne Hlen Hall.
    rewrite Hsplit in Hrecent, Hlen.
    rewrite (last10_split older recent Hlen) in Hrecent. rewrite <- Hrecent.
    clear Hrecent s l.
    rewrite sum_fold, Z.add_0_l.
    pose proof (sum_bounds (2 ^ 30) recent Hall) as HS.
    set (S := foldr Z.add 0 (map StatsCollector.operations recent)) in *.
    set (n := Z.of_nat (List.length recent)) in *.
    assert (1 ≤ n ≤ 10) as Hn.
    { subst n. clear HS Hall. rewrite length_app in Hlen.
      destruct recent as [|s0 l0]; [done|]. cbn [List.length] in *. lia. }
    assert (0 < inject_Z n)%Q as Hpos.
    { change 0%Q with (inject_Z 0). rewrite <- Zlt_Qlt. lia. }
    set (p := (inject_Z S / inject_Z n)%Q).
    split.
    + assert (0 <= p)%Q as Hp0.
      { apply Qle_shift_div_l; [done|]. rewrite Qmult_0_l.
        change 0%Q with (inject_Z 0). rewrite <- Zle_Qle. lia. }
      assert (p <= 1073741823)%Q as Hp1.
      { apply Qle_shift_div_r; [done|].
        change 1073741823%Q with (inject_Z (2 ^ 30 - 1)).
        rewrite <- inject_Z_mult, <- Zle_Qle. lia. }
      assert (Double.pow2 30 == 1073741824)%Q as P30 by reflexivity.
      assert (Double.pow2 (-24) == 1 # 16777216)%Q as P24 by reflexivity.
      assert (Double.pow2 37 == 137438953472)%Q as P37 by reflexivity.
      assert (Double.pow2 (-17) == 1 # 131072)%Q as P17 by reflexivity.
      assert (Double.pow2 31 == 2147483648)%Q as P31 by reflexivity.
      assert (Double.pow2 (-23) == 1 # 8388608)%Q as P23 by reflexivity.
      assert (Qabs (Double.div (inject_Z S) (inject_Z n) - p)
              <= 1 # 16777216)%Q as Hd.
      { rewrite <- P24. apply (fl_error p 30); [|lia].
        rewrite P30, Qabs_pos by done. lra. }
      set (d := Double.div (inject_Z S) (inject_Z n)) in *.
      pose proof Hd as Hd'. apply Qabs_Qle_condition in Hd' as [Hd1 Hd2].
      assert (Qabs (inject_Z (Math_round (Double.mul d 100)) - p * 100)
              <= (1 # 2) + (1 # 16777216) * 100 + Double.pow2 (37 - 54))%Q
        as Hr.
      { apply scaled_round_near; [done| |lia|done].
        rewrite P37. apply Qabs_Qlt_condition. split; lra. }
      change (37 - 54) with (-17) in Hr. rewrite P17 in Hr.
      set (q := Math_round (Double.mul d 100)) in *.
      apply Qabs_Qle_condition in Hr as [Hr1 Hr2].
      assert (Qabs (Double.div (inject_Z q) 100 - inject_Z q / 100)
              <= 1 # 8388608)%Q as Hout.
      { rewrite <- P23. apply (fl_error (inject_Z q / 100) 31); [|lia].
        rewrite P31.
        assert (inject_Z q / 100 == inject_Z q * (1 # 100))%Q as ->
          by reflexivity.
        apply Qabs_Qlt_condition. split; lra. }
      apply Qabs_Qle_condition in Hout as [Ho1 Ho2].
      assert (inject_Z q / 100 == inject_Z q * (1 # 100))%Q as Hdiv
        by reflexivity.
      rewrite Hdiv in Ho1, Ho2.
      apply Qabs_Qle_condition. split; lra.
    + intros T HT.
      pose proof (sum_constant T recent 0 HT) as Hsum.
      rewrite sum_fold, Z.add_0_l in Hsum. fold S n in Hsum.
      assert (0 ≤ T < 2 ^ 30) as HTb.
      { destruct recent as [|s0 l0]; [done|].
        apply Forall_cons in Hall as [H1 _].
        apply Forall_cons in HT as [H2 _]. lia. }
      apply two_decimals_of_integer; [|lia].
      unfold Double.div.
      assert (inject_Z S / inject_Z n == inject_Z T)%Q as Hq.
      { replace S with (T * n) by lia. rewrite inject_Z_mult. field. lra. }
      rewrite (fl_comp _ _ Hq). apply fl_int. lia.
Qed.

Lemma operationsPerSecond_is_a_mean_of_totals_witness :
  (StatsCollector.operationsPerSecond
     (fst (StatsCollector.getPerformanceStats
             (StatsCollector.track 3000 Samples.two_hits_one_miss
                (StatsCollector.track 2000 Samples.two_hits_one_miss
                   (StatsCollector.new Config.defaults 1000)))))
   == inject_Z 3)%Q.
Proof.
  pose proof (operationsPerSecond_is_a_mean_of_totals
                (StatsCollector.track 3000 Samples.two_hits_one_miss
                   (StatsCollector.track 2000 Samples.two_hits_one_miss
                      (StatsCollector.new Config.defaults 1000)))) as H.
  cbv zeta in H. destruct H as (_ & _ & _ & H).
  refine (proj2 (H [] _ _ _ _ _) 3 _).
  - reflexivity.
  - discriminate.
  - reflexivity.
  - apply List.Forall_forall. intros s Hs. vm_compute in Hs.
    destruct Hs as [<-|[<-|[]]]; vm_compute; (split; [discriminate|reflexivity]).
  - apply List.Forall_forall. intros s Hs. vm_compute in Hs.
    destruct Hs as [<-|[<-|[]]]; reflexivity.
Defined.

(** The percentage of [getHealthStatus] is a double: 260.1 MB under a
    ceiling of 289 MB is 90 percent in exact arithmetic and
    90.00000000000001, above 90, as the code computes it. *)
Example health_percentage_is_rounded :
  (inject_Z 26010 / 100 / 289 * 100 == 90
   ∧ 90 < Double.mul (Double.div (Double.div 26010 100) 289) 100)%Q
  ∧ Qgtb (Double.mul (Double.div (Double.div 26010 100) 289) 100) 90 = true.
Proof. vm_compute. done. Qed.

(** X24. With a positive memory ceiling and a positive heap total,
    getHealthStatus is critical exactly when the cache percentage it
    computes is above 90, and healthy exactly when it lists no issue: the
    cache percentage at most 75, the heap percentage at most 85, the
    hitRate of getStats at least 50, and not both fewer than 10 operations
    per second and more than 100 operations. The cache percentage is the
    memoryUsageMB figure of getStats (two decimals) divided by the
    collector's copy of maxMemoryMB, times 100, and the heap percentage is
    heapUsed / heapTotal times 100, each operation rounded as doubles
    round. An engine that has served no get yet has hit rate 0 and is
    therefore never reported healthy. *)
Theorem health_verdict (now : Z) (mem : StatsCollector.MemoryUsage)
    (engine : CacheEngine.t) (c : StatsCollector.t) :
  (0 < Config.maxMemoryMB (StatsCollector.config c))%Q →
  0 < StatsCollector.heapTotal mem →
  let h := fst (StatsCollector.getHealthStatus now mem engine c) in
  let cacheStats := fst (CacheEngine.getStats now engine) in
  let memoryPercent :=
    Double.mul
      (Double.div (CacheStats.memoryUsageMB cacheStats)
         (Config.maxMemoryMB (StatsCollector.config c)))
      100 in
  let systemPercent :=
    Double.mul
      (Double.div (inject_Z (StatsCollector.heapUsed mem))
         (inject_Z (StatsCollector.heapTotal mem)))
      100 in
  let slow :=
    (StatsCollector.operationsPerSecond
       (fst (StatsCollector.getPerformanceStats c)) < 10)%Q
    ∧ 100 < hitCount (CacheEngine.stats engine)
            + missCount (CacheEngine.stats engine) in
  (StatsCollector.status h = StatsCollector.critical ↔ (90 < memoryPercent)%Q)
  ∧ (StatsCollector.status h = StatsCollector.healthy ↔
     (memoryPercent <= 75)%Q ∧ (systemPercent <= 85)%Q
     ∧ (50 <= CacheStats.hitRate cacheStats)%Q ∧ ¬ slow)
  ∧ (StatsCollector.status h = StatsCollector.healthy ↔
     StatsCollector.issues h = [])
  ∧ (hitCount (CacheEngine.stats engine)
     + missCount (CacheEngine.stats engine) = 0 →
     StatsCollector.status h ≠ StatsCollector.healthy
     ∧ In "Low cache hit rate" (StatsCollector.issues h)).
Proof.
  intros Hmax Hheap h cacheStats memoryPercent systemPercent slow.
  subst h. unfold StatsCollector.getHealthStatus.
  destruct (StatsCollector.getPerformanceStats c) as [perf c'] eqn:Hperf.
  cbn [fst StatsCollector.status StatsCollector.issues].
  fold cacheStats memoryPercent systemPercent.
  change (CacheStats.hitCount cacheStats)
    with (hitCount (CacheEngine.stats engine)).
  change (CacheStats.missCount cacheStats)
    with (missCount (CacheEngine.stats engine)).
  assert (slow ↔
          Qltb (StatsCollector.operationsPerSecond perf) 10
          && (100 <? hitCount (CacheEngine.stats engine)
                     + missCount (CacheEngine.stats engine)) = true) as Hslow.
  { unfold slow. simpl. rewrite andb_true_iff, Qltb_lt, Z.ltb_lt. tauto. }
  assert (hitCount (CacheEngine.stats engine)
          + missCount (CacheEngine.stats engine) = 0 →
          Qltb (CacheStats.hitRate cacheStats) 50 = true) as Hfresh.
  { intros H0. unfold cacheStats, CacheEngine.getStats.
    cbn [fst CacheStats.hitRate]. rewrite H0. by vm_compute. }
  assert (Qgtb memoryPercent 90 = true → Qgtb memoryPercent 75 = true)
    as Himp.
  { rewrite !Qgtb_lt. intros H. eapply Qlt_trans; [|exact H]. done. }
  rewrite <- (Qgtb_lt memoryPercent 90), <- (Qgtb_false memoryPercent 75),
    <- (Qgtb_false systemPercent 85),
    <- (Qgtb_false 50 (CacheStats.hitRate cacheStats)), Hslow.
  change (Qgtb 50 (CacheStats.hitRate cacheStats))
    with (Qltb (CacheStats.hitRate cacheStats) 50).
  clear Hslow Hperf.
  destruct (Qgtb memoryPercent 90);
    destruct (Qgtb memoryPercent 75);
    destruct (Qgtb systemPercent 85);
    destruct (Qltb (CacheStats.hitRate cacheStats) 50);
    destruct (Qltb (StatsCollector.operationsPerSecond perf) 10
              && (100 <? hitCount (CacheEngine.stats engine)
                         + missCount (CacheEngine.stats engine)));
    cbn; intuition (try discriminate; try congruence).
Qed.

Lemma health_verdict_witness :
  StatsCollector.status
    (fst (StatsCollector.getHealthStatus 2000
            {| StatsCollector.heapUsed := 50; StatsCollector.heapTotal := 100 |}
            (CacheEngine.new defaultConfig (Some LRU) 1000)
            (StatsCollector.new Config.defaults 1000)))
  ≠ StatsCollector.healthy.
Proof.
  refine (proj1 (proj2 (proj2 (proj2
    (health_verdict 2000
       {| StatsCollector.heapUsed := 50; StatsCollector.heapTotal := 100 |}
       (CacheEngine.new defaultConfig (Some LRU) 1000)
       (StatsCollector.new Config.defaults 1000) _ _))) _)).
  - vm_compute. reflexivity.
  - vm_compute. reflexivity.
  - vm_compute. reflexivity.
Defined.

(** * The batch lookup of the HTTP layer *)

Section Batch.

Import CacheController.

Lemma lookupAll_spec keys :
  ∀ engine,
    store_wf (CacheEngine.store engine) →
    let r := lookupAll keys engine in
    map r_key (fst r) = map fst keys
    ∧ store_wf (CacheEngine.store (snd r))
    ∧ hitCount (CacheEngine.stats (snd r)) + missCount (CacheEngine.stats (snd r))
      = hitCount (CacheEngine.stats engine)
        + missCount (CacheEngine.stats engine) + Z.of_nat (List.length keys)
    ∧ counters_le (CacheEngine.stats engine) (CacheEngine.stats (snd r))
    ∧ evictionCount (CacheEngine.stats (snd r))
      = evictionCount (CacheEngine.stats engine)
    ∧ Z.of_nat (List.length (List.filter found (fst r)))
      ≤ hitCount (CacheEngine.stats (snd r))
        - hitCount (CacheEngine.stats engine).
Proof.
  induction keys as [|[k now] keys IH]; intros engine Hwf.
  - simpl. split; [done|]. split; [done|]. split; [lia|].
    split; [apply counters_le_refl|]. split; [done|lia].
  - cbn [lookupAll].
    pose proof (get_keeps engine Hwf k now) as (Hw1 & Hle1 & Hsum1 & Hev1).
    assert (fst (CacheEngine.get k now engine) ≠ VNull →
            hitCount (CacheEngine.stats (snd (CacheEngine.get k now engine)))
            = hitCount (CacheEngine.stats engine) + 1) as Hhit.
    { unfold CacheEngine.get.
      destruct (JsMap.get k (CacheEngine.store engine)) as [entry|];
        [|by simpl].
      destruct (Entry.isExpired entry now).
      - destruct (CacheEngine.delete k engine). by simpl.
      - by simpl. }
    destruct (CacheEngine.get k now engine) as [v engine1]. simpl in *.
    specialize (IH engine1 Hw1). simpl in IH.
    destruct (lookupAll keys engine1) as [results engine2]. simpl in *.
    destruct IH as (I1 & I2 & I3 & I4 & I5 & I6).
    split; [by rewrite I1|]. split; [done|]. split; [lia|].
    split; [unfold counters_le in *; lia|]. split; [lia|].
    destruct Hle1 as (Hh & _).
    destruct v; simpl; try (specialize (Hhit ltac:(done))); lia.
Qed.

End Batch.

(** X25. batchGet over an array of keys answers with one result per requested
    key, in order, and with found + missed = total = the number of keys.
    It runs one get per key, so hitCount + missCount grows by total; found
    is at most the number of hits (a stored null counts as a hit but is
    reported as not found), and evictionCount is unchanged. *)
Theorem batchGet_counts_every_key (keys : list (string * Z))
    (engine : CacheEngine.t) :
  store_wf (CacheEngine.store engine) →
  let r := CacheController.batchGet keys engine in
  let data := fst r in
  let stats' := CacheEngine.stats (snd r) in
  map CacheController.r_key (CacheController.results data) = map fst keys
  ∧ CacheController.total data = Z.of_nat (List.length keys)
  ∧ CacheController.foundCount data + CacheController.missed data
    = CacheController.total data
  ∧ 0 ≤ CacheController.foundCount data ≤ CacheController.total data
  ∧ hitCount stats' + missCount stats'
    = hitCount (CacheEngine.stats engine) + missCount (CacheEngine.stats engine)
      + CacheController.total data
  ∧ CacheController.foundCount data
    ≤ hitCount stats' - hitCount (CacheEngine.stats engine)
  ∧ evictionCount stats' = evictionCount (CacheEngine.stats engine).
Proof.
  intros Hwf r data stats'. subst r data stats'.
  unfold CacheController.batchGet.
  pose proof (lookupAll_spec keys engine Hwf) as H.
  destruct (CacheController.lookupAll keys engine) as [results engine'].
  simpl in *. destruct H as (H1 & _ & H3 & H4 & H5 & H6).
  split; [done|]. split; [done|]. split; [lia|].
  split.
  { split; [lia|].
    pose proof (List.filter_length_le CacheController.found results) as Hf.
    apply (f_equal (@List.length _)) in H1. rewrite !length_map in H1. lia. }
  split; [done|]. split; [done|]. done.
Qed.

(** * Agreement between the operations *)

(** X26. On a store as the engine builds it (no key twice, each entry under
    its own key), has(k) is true exactly when keys() lists k, and a key
    for which get returns a value other than null is listed by keys().
    has(k) changes nothing when it returns true, and keys() lists no key
    twice. *)
Theorem has_agrees_with_keys (k : string) (now : Z) (e : CacheEngine.t) :
  store_wf (CacheEngine.store e) →
  (fst (CacheEngine.has k now e) = true ↔ In k (CacheEngine.keys now e))
  ∧ (fst (CacheEngine.get k now e) ≠ VNull → In k (CacheEngine.keys now e))
  ∧ (fst (CacheEngine.has k now e) = true → snd (CacheEngine.has k now e) = e)
  ∧ List.NoDup (CacheEngine.keys now e).
Proof.
  intros [Hnd Hkeys].
  assert (In k (CacheEngine.keys now e) ↔
          ∃ entry, JsMap.get k (CacheEngine.store e) = Some entry
                   ∧ Entry.isExpired entry now = false) as Hin.
  { unfold CacheEngine.keys. rewrite in_map_iff. split.
    - intros ([k' entry] & Hk & Hf). simpl in Hk. subst k'.
      apply list_elem_of_In, list_elem_of_filter in Hf as [Hlive Hf].
      simpl in Hlive. apply list_elem_of_In in Hf.
      exists entry. split; [by apply In_get_NoDup|].
      by destruct (Entry.isExpired entry now).
    - intros (entry & Hget & Hlive). exists (k, entry). split; [done|].
      apply list_elem_of_In, list_elem_of_filter. simpl. rewrite Hlive.
      split; [done|]. by apply list_elem_of_In, get_Some_In. }
  split; [|split; [|split]].
  - rewrite Hin. unfold CacheEngine.has.
    destruct (JsMap.get k (CacheEngine.store e)) as [entry|] eqn:Hget.
    + destruct (Entry.isExpired entry now) eqn:Hx.
      * destruct (CacheEngine.delete k e). simpl.
        split; [done|]. intros (entry' & [= <-] & ?). congruence.
      * simpl. split; [|done]. intros _. by exists entry.
    + simpl. split; [done|]. by intros (entry' & ? & _).
  - rewrite Hin. unfold CacheEngine.get.
    destruct (JsMap.get k (CacheEngine.store e)) as [entry|] eqn:Hget;
      [|by simpl].
    destruct (Entry.isExpired entry now) eqn:Hx.
    + by destruct (CacheEngine.delete k e).
    + intros _. by exists entry.
  - unfold CacheEngine.has.
    destruct (JsMap.get k (CacheEngine.store e)) as [entry|]; [|done].
    destruct (Entry.isExpired entry now); [|done].
    by destruct (CacheEngine.delete k e).
  - unfold CacheEngine.keys, JsMap.t. clear Hkeys Hin.
    induction (CacheEngine.store e) as [|[k' entry] m IH]; [constructor|].
    inversion Hnd as [|? ? Hnot Hnd']; subst.
    rewrite filter_cons. simpl.
    destruct (Entry.isExpired entry now); simpl; [by apply IH|].
    constructor; [|by apply IH].
    intros Hin. apply Hnot. apply in_map_iff in Hin as ([k0 e0] & Hk & Hf).
    simpl in Hk. subst k0. apply list_elem_of_In, list_elem_of_filter in Hf
      as [_ Hf]. apply list_elem_of_In in Hf.
    change k' with (fst (k', e0)). by apply in_map.
Qed.

(** The sum of two doubles is a double: past 2^53 an increment by 1 is
    lost. *)
Example increment_past_2_53_is_lost :
  Double.add_int (2 ^ 53) 1 = 2 ^ 53
  ∧ Double.add_int (2 ^ 53 - 1) 1 = 2 ^ 53
  ∧ Double.add_int (2 ^ 53) 2 = 2 ^ 53 + 2.
Proof. vm_compute. done. Qed.


(** ** Store and bookkeeping in step *)

Section Covers.

Lemma covers_onRemove_ne s k k' :
  k' ≠ k → covers s k' → covers (onRemove s k) k'.
Proof.
  intros Hne [Hp|Ht]; [left; by rewrite policy_onRemove|].
  right. destruct s as [u|s|s|s]; simpl in *.
  - done.
  - by apply In_remove_first_ne.
  - by rewrite lookup_delete_ne.
  - by apply In_remove_first_ne.
Qed.

Lemma covers_onInsert_same s k entry :
  covers (onInsert s k entry) k.
Proof.
  destruct s as [u|s|s|s]; [by left|right..]; simpl.
  - apply in_or_app. right. by left.
  - by rewrite lookup_insert_eq.
  - apply in_or_app. right. by left.
Qed.

Lemma covers_onInsert_other s k k' entry :
  covers s k' → covers (onInsert s k entry) k'.
Proof.
  intros [Hp|Ht]; [left; by rewrite policy_onInsert|].
  right. destruct s as [u|s|s|s]; simpl in *.
  - done.
  - apply in_or_app. by left.
  - destruct (decide (k = k')) as [->|Hne];
      [by rewrite lookup_insert_eq|by rewrite lookup_insert_ne].
  - apply in_or_app. by left.
Qed.

Lemma covers_onAccess s k k' entry :
  covers s k' → covers (onAccess s k entry) k'.
Proof.
  intros [Hp|Ht]; [left; by rewrite policy_onAccess|].
  right. destruct s as [u|s|s|s]; simpl in *.
  - done.
  - apply in_or_app. destruct (decide (k' = k)) as [->|Hne].
    + right. by left.
    + left. by apply In_remove_first_ne.
  - destruct (decide (k = k')) as [->|Hne];
      [by rewrite lookup_insert_eq|by rewrite lookup_insert_ne].
  - done.
Qed.

Lemma first_live_keeps order entries k :
  JsMap.has k entries = true → In k order →
  In k (snd (first_live order entries)).
Proof.
  intros Hk Hin.
  destruct (first_live_spec order entries) as (stale & Hord & Hst & _).
  rewrite Hord in Hin. apply in_app_or in Hin as [Hin|Hin]; [|done].
  rewrite List.Forall_forall in Hst. apply Hst in Hin. congruence.
Qed.

Lemma covers_selectVictim s entries k :
  JsMap.has k entries = true → covers s k →
  covers (snd (selectVictim s entries)) k.
Proof.
  intros Hk [Hp|Ht]; [left; by rewrite policy_selectVictim|].
  right. destruct s as [u|s|s|s]; simpl in *.
  - done.
  - unfold LRUStrategy.selectVictim.
    pose proof (first_live_keeps (LRUStrategy.accessOrder s) entries k Hk Ht).
    by destruct (first_live _ _).
  - done.
  - unfold FIFOStrategy.selectVictim.
    pose proof (first_live_keeps (FIFOStrategy.insertionOrder s) entries k Hk Ht).
    by destruct (first_live _ _).
Qed.

Lemma first_live_finds order entries k :
  JsMap.has k entries = true → In k order →
  ∃ v, fst (first_live order entries) = Some v.
Proof.
  intros Hk Hin.
  destruct (first_live_spec order entries) as (stale & Hord & Hst & Hres).
  destruct (fst (first_live order entries)) as [v|]; [by exists v|].
  rewrite Hres, app_nil_r in Hord. subst stale.
  rewrite List.Forall_forall in Hst. apply Hst in Hin. congruence.
Qed.

Lemma selectVictim_finds s entries k :
  policy_of s ≠ NONE →
  JsMap.has k entries = true → covers s k →
  ∃ v, fst (selectVictim s entries) = Some v.
Proof.
  intros Hp Hk [Hn|Ht]; [done|].
  destruct s as [u|s|s|s]; cbn [tracked policy_of] in *.
  - done.
  - destruct (first_live_finds (LRUStrategy.accessOrder s) entries k Hk Ht)
      as [v Hv].
    exists v. simpl. unfold LRUStrategy.selectVictim.
    by destruct (first_live _ _).
  - destruct entries as [|ke entries]; [done|].
    destruct (lfu_selectVictim_min s (ke :: entries)) as (v & e & Hv & _);
      [done|].
    exists v. cbn [selectVictim strat_selectVictim LFU_ops]. by rewrite Hv.
  - destruct (first_live_finds (FIFOStrategy.insertionOrder s) entries k Hk Ht)
      as [v Hv].
    exists v. simpl. unfold FIFOStrategy.selectVictim.
    by destruct (first_live _ _).
Qed.

End Covers.

Section Sync.

Import CacheEngine.

Lemma has_set_inv {V} (m : JsMap.t V) k k' v :
  JsMap.has k' (JsMap.set k v m) = true → k' = k ∨ JsMap.has k' m = true.
Proof.
  intros H. destruct (decide (k = k')) as [->|Hne]; [by left|right].
  unfold JsMap.has in *. by rewrite get_set_ne in H.
Qed.

Lemma has_remove_inv {V} (m : JsMap.t V) k k' :
  JsMap.has k' (JsMap.remove k m) = true → k' ≠ k ∧ JsMap.has k' m = true.
Proof.
  intros H. destruct (decide (k = k')) as [->|Hne].
  - by rewrite has_remove in H.
  - split; [congruence|]. unfold JsMap.has in *. by rewrite get_remove_ne in H.
Qed.

Lemma isValidKey_nonempty k : isValidKey k = true → k ≠ EmptyString.
Proof. intros H ->. discriminate H. Qed.

Lemma delete_has_inv k v e :
  JsMap.has k (store (snd (delete v e))) = true →
  k ≠ v ∧ JsMap.has k (store e) = true.
Proof.
  unfold delete, JsMap.delete.
  destruct (JsMap.has v (store e)); simpl; apply has_remove_inv.
Qed.

Lemma delete_covers k v e :
  k ≠ v → covers (evictionStrategy e) k →
  covers (evictionStrategy (snd (delete v e))) k.
Proof.
  intros Hne Hc. unfold delete, JsMap.delete.
  destruct (JsMap.has v (store e)); simpl; [|done].
  by apply covers_onRemove_ne.
Qed.

Lemma in_sync_delete k e : in_sync e → in_sync (snd (delete k e)).
Proof.
  intros Hs k' Hk'. apply delete_has_inv in Hk' as [Hne Hk'].
  destruct (Hs k' Hk') as [H1 H2]. split; [done|]. by apply delete_covers.
Qed.

Lemma in_sync_replace k entry e :
  in_sync e → JsMap.has k (store e) = true →
  in_sync (with_store (JsMap.set k entry (store e)) e).
Proof.
  intros Hs Hk k' Hk'. simpl in *.
  apply has_set_inv in Hk' as [->|Hk']; by apply Hs.
Qed.

Lemma in_sync_onAccess k entry e :
  in_sync e → in_sync (with_strategy (onAccess (evictionStrategy e) k entry) e).
Proof.
  intros Hs k' Hk'. simpl in *. destruct (Hs k' Hk') as [H1 H2].
  split; [done|]. by apply covers_onAccess.
Qed.

Lemma in_sync_with_stats c e : in_sync e → in_sync (with_stats c e).
Proof. done. Qed.

Lemma in_sync_get k now e : in_sync e → in_sync (snd (get k now e)).
Proof.
  intros Hs. unfold get.
  destruct (JsMap.get k (store e)) as [entry|] eqn:Hget; [|done].
  destruct (Entry.isExpired entry now).
  - pose proof (in_sync_delete k e Hs) as Hd.
    by destruct (delete k e) as [b e1].
  - simpl. apply in_sync_with_stats.
    apply (in_sync_onAccess k _ (with_store _ e)).
    apply in_sync_replace; [done|]. unfold JsMap.has. by rewrite Hget.
Qed.

Lemma in_sync_has k now e : in_sync e → in_sync (snd (has k now e)).
Proof.
  intros Hs. unfold has.
  destruct (JsMap.get k (store e)) as [entry|] eqn:Hget; [|done].
  destruct (Entry.isExpired entry now); [|done].
  pose proof (in_sync_delete k e Hs) as Hd.
  by destruct (delete k e) as [b e1].
Qed.

Lemma in_sync_updateTTL k newTtl now e :
  in_sync e → in_sync (snd (updateTTL k newTtl now e)).
Proof.
  intros Hs. unfold updateTTL.
  destruct (JsMap.get k (store e)) as [entry|] eqn:Hget; [|done].
  destruct (Entry.isExpired entry now); [done|]. simpl.
  apply in_sync_replace; [done|]. unfold JsMap.has. by rewrite Hget.
Qed.

Lemma in_sync_increment k delta now e :
  in_sync e → in_sync (snd (increment k delta now e)).
Proof.
  intros Hs. unfold increment.
  destruct (JsMap.get k (store e)) as [entry|] eqn:Hget; [|done].
  destruct (Entry.isExpired entry now); [done|].
  destruct (value entry); try done. simpl.
  apply (in_sync_onAccess k _ (with_store _ e)).
  apply in_sync_replace; [done|]. unfold JsMap.has. by rewrite Hget.
Qed.

Lemma in_sync_sweep ks e :
  in_sync e → in_sync (fold_left (λ acc k, snd (delete k acc)) ks e).
Proof.
  revert e. induction ks as [|k ks IH]; intros e Hs; simpl; [done|].
  apply IH. by apply in_sync_delete.
Qed.

Lemma in_sync_cleanupExpired now e :
  in_sync e → in_sync (snd (cleanupExpired now e)).
Proof.
  intros Hs. unfold cleanupExpired.
  destruct (0 <? _); simpl; [apply in_sync_with_stats|]; by apply in_sync_sweep.
Qed.

Lemma evictLoop_has_inv fuel m ev e k :
  store_wf (store e) →
  JsMap.has k (store (snd (evictLoop fuel m ev e))) = true →
  JsMap.has k (store e) = true.
Proof.
  intros Hwf. pose proof (evictLoop_spec fuel m ev e Hwf) as H. cbv zeta in H.
  destruct H as (_ & _ & _ & _ & _ & _ & _ & Hsub).
  unfold JsMap.has.
  destruct (JsMap.get k (store (snd (evictLoop fuel m ev e)))) as [entry|] eqn:E;
    [|done].
  by rewrite (Hsub _ _ E).
Qed.

Lemma evictLoop_covers fuel m ev e k :
  store_wf (store e) →
  JsMap.has k (store (snd (evictLoop fuel m ev e))) = true →
  covers (evictionStrategy e) k →
  covers (evictionStrategy (snd (evictLoop fuel m ev e))) k.
Proof.
  revert ev e. induction fuel as [|fuel IH]; intros ev e Hwf; simpl; [done|].
  destruct ((ev <? m) && shouldEvict e); [|done].
  pose proof (covers_selectVictim (evictionStrategy e) (store e) k) as Hsel.
  destruct (selectVictim (evictionStrategy e) (store e)) as [victimKey s].
  simpl in Hsel.
  destruct victimKey as [[|c rest]|]; simpl; try (intros; by apply Hsel).
  pose proof (delete_has_inv k (String c rest) (with_strategy s e)) as Hinv.
  pose proof (delete_covers k (String c rest) (with_strategy s e)) as Hcov.
  pose proof (delete_keeps (with_strategy s e) Hwf (String c rest)) as [Hwf2 _].
  destruct (delete (String c rest) (with_strategy s e)) as [deleted e2].
  simpl in *. intros Hk Hc.
  destruct deleted.
  - apply IH; [done|done|].
    apply evictLoop_has_inv in Hk; [|done]. simpl in Hk.
    destruct (Hinv Hk) as [Hne Hk0]. apply Hcov; [done|]. by apply Hsel.
  - apply IH; [done|done|].
    apply evictLoop_has_inv in Hk; [|done].
    destruct (Hinv Hk) as [Hne Hk0]. apply Hcov; [done|]. by apply Hsel.
Qed.

Lemma evictEntries_has_inv e k :
  store_wf (store e) →
  JsMap.has k (store (snd (evictEntries e))) = true →
  JsMap.has k (store e) = true.
Proof.
  intros Hwf. unfold evictEntries.
  pose proof (evictLoop_has_inv
                (Z.to_nat (ceil_div (JsMap.size (store e)) 10))
                (ceil_div (JsMap.size (store e)) 10) 0 e k Hwf) as H.
  by destruct (evictLoop _ _ _ _).
Qed.

Lemma evictEntries_covers e k :
  store_wf (store e) →
  JsMap.has k (store (snd (evictEntries e))) = true →
  covers (evictionStrategy e) k →
  covers (evictionStrategy (snd (evictEntries e))) k.
Proof.
  intros Hwf. unfold evictEntries.
  pose proof (evictLoop_covers
                (Z.to_nat (ceil_div (JsMap.size (store e)) 10))
                (ceil_div (JsMap.size (store e)) 10) 0 e k Hwf) as H.
  by destruct (evictLoop _ _ _ _).
Qed.

Lemma in_sync_evictEntries e :
  store_wf (store e) → in_sync e → in_sync (snd (evictEntries e)).
Proof.
  intros Hwf Hs k Hk.
  pose proof (evictEntries_has_inv e k Hwf Hk) as Hk0.
  destruct (Hs k Hk0) as [H1 H2]. split; [done|].
  by apply evictEntries_covers.
Qed.

(** Inserting [k] into an engine whose other keys are covered. *)
Lemma in_sync_insert k entry e :
  k ≠ EmptyString →
  (∀ k', k' ≠ k → JsMap.has k' (store e) = true →
         k' ≠ EmptyString ∧ covers (evictionStrategy e) k') →
  in_sync
    (with_strategy
       (onInsert (evictionStrategy e) k entry)
       (with_store (JsMap.set k entry (store e)) e)).
Proof.
  intros Hk Hs k' Hk'. simpl in *.
  destruct (decide (k' = k)) as [->|Hne].
  - split; [done|]. apply covers_onInsert_same.
  - apply has_set_inv in Hk' as [?|Hk']; [done|].
    destruct (Hs k' Hne Hk') as [H1 H2]. split; [done|].
    by apply covers_onInsert_other.
Qed.

Lemma in_sync_set k v options now e :
  store_wf (store e) → in_sync e →
  fst (set k v options now e) = true
  ∨ JsMap.get k (store e) = None
  ∨ overwrite options ≠ Some true →
  in_sync (snd (set k v options now e)).
Proof.
  intros Hwf Hs Hcase.
  destruct (isValidKey k) eqn:Hvalid; [|unfold set; by rewrite Hvalid].
  assert ((JsMap.get k (store e) = None ∨ overwrite options = Some true)
          ∨ set k v options now e = (false, e)) as [Hov|Heq].
  { unfold set. rewrite Hvalid. simpl.
    destruct (JsMap.get k (store e)); [|left; by left].
    destruct (overwrite options) as [[|]|]; simpl;
      [left; by right|by right|by right]. }
  2: by rewrite Heq.
  rewrite (set_unfold k v options now e Hvalid Hov) in *. cbv zeta in *.
  assert (Hwf1 : store_wf (store (unregistered k e)))
    by by rewrite unregistered_store.
  assert (Hs1 : ∀ k', k' ≠ k → JsMap.has k' (store (unregistered k e)) = true →
                k' ≠ EmptyString
                ∧ covers (evictionStrategy (unregistered k e)) k').
  { intros k' Hne Hk'. rewrite unregistered_store in Hk'.
    destruct (Hs k' Hk') as [H1 H2]. split; [done|].
    unfold unregistered. destruct (defined _); simpl; [|done].
    by apply covers_onRemove_ne. }
  destruct (shouldEvict (unregistered k e)) eqn:Hse.
  - pose proof (evictEntries_has_inv (unregistered k e)) as Hinv.
    pose proof (evictEntries_covers (unregistered k e)) as Hcov.
    destruct (evictEntries (unregistered k e)) as [room e2] eqn:Hev.
    simpl in *. destruct room; simpl in *.
    + apply in_sync_insert; [by apply isValidKey_nonempty|].
      intros k' Hne Hk'. destruct (Hs1 k' Hne (Hinv k' Hwf1 Hk')) as [H1 H2].
      split; [done|]. by apply Hcov.
    + destruct Hcase as [Hf|[Hnone|Hno]]; [done| |].
      * assert (unregistered k e = e) as Heq
          by (unfold unregistered; by rewrite Hnone).
        rewrite Heq in *.
        intros k' Hk'. destruct (Hs k' (Hinv k' Hwf Hk')) as [H1 H2].
        split; [done|]. by apply Hcov.
      * destruct Hov as [Hnone|Hyes]; [|done].
        assert (unregistered k e = e) as Heq
          by (unfold unregistered; by rewrite Hnone).
        rewrite Heq in *.
        intros k' Hk'. destruct (Hs k' (Hinv k' Hwf Hk')) as [H1 H2].
        split; [done|]. by apply Hcov.
  - simpl. apply in_sync_insert; [by apply isValidKey_nonempty|done].
Qed.

Lemma evictEntries_succeeds e k0 :
  store_wf (store e) →
  (∀ k, JsMap.has k (store e) = true → k ≠ EmptyString) →
  JsMap.has k0 (store e) = true → covers (evictionStrategy e) k0 →
  shouldEvict e = true →
  fst (evictEntries e) = true.
Proof.
  intros Hwf Hne Hk0 Hc0 Hse. unfold evictEntries.
  assert (1 ≤ ceil_div (JsMap.size (store e)) 10) as Hc.
  { assert (1 ≤ JsMap.size (store e)) as Hsz.
    { unfold JsMap.size. destruct (store e); [done|]. simpl. lia. }
    pose proof (ceil_div_10_bounds (JsMap.size (store e))). lia. }
  destruct (Z.to_nat (ceil_div (JsMap.size (store e)) 10)) as [|fuel] eqn:Hfuel;
    [lia|].
  cbn [evictLoop]. rewrite Hse.
  destruct (Z.ltb_spec 0 (ceil_div (JsMap.size (store e)) 10)); [|lia].
  cbn [andb].
  assert (policy_of (evictionStrategy e) ≠ NONE) as Hp.
  { intros Hp. unfold shouldEvict in Hse.
    rewrite shouldEvict_of_policy, Hp in Hse. done. }
  destruct (selectVictim_finds _ _ _ Hp Hk0 Hc0) as [v Hv].
  destruct (selectVictim (evictionStrategy e) (store e)) as [vk s] eqn:Hsel.
  simpl in Hv. subst vk.
  pose proof (selectVictim_in_store _ _ _ _ Hsel) as Hin.
  pose proof (Hne v Hin) as Hv.
  destruct v as [|ch rest]; [done|].
  pose proof (delete_victim e _ s Hsel) as Hdel.
  pose proof (delete_keeps (with_strategy s e) Hwf (String ch rest)) as [Hwf2 _].
  destruct (delete (String ch rest) (with_strategy s e)) as [deleted e2].
  simpl in Hdel, Hwf2. subst deleted.
  pose proof (evictLoop_spec fuel (ceil_div (JsMap.size (store e)) 10) (0 + 1)
                (with_stats (bump_eviction (stats e2)) e2) Hwf2) as Hsp.
  cbv zeta in Hsp. destruct Hsp as (Hge & _).
  destruct (evictLoop _ _ _ _) as [ev e']. simpl in *.
  destruct (Z.ltb_spec 0 ev); [done|lia].
Qed.

End Sync.

(** X28. In a new engine every stored key is a non-empty string that the
    strategy's bookkeeping mentions (no bookkeeping is needed under NONE).
    get, delete, has, clear, cleanupExpired, updateTTL and increment keep
    this, and so does set whenever it returns true, the key is new, or
    overwrite is not true; only a refused overwrite can leave a stored key
    that the strategy no longer mentions. *)
Theorem bookkeeping_stays_in_sync :
  (∀ cfg policy now, in_sync (CacheEngine.new cfg policy now))
  ∧ ∀ e : CacheEngine.t,
      store_wf (CacheEngine.store e) →
      in_sync e →
      ∀ k v options now delta newTtl,
        (fst (CacheEngine.set k v options now e) = true
         ∨ JsMap.get k (CacheEngine.store e) = None
         ∨ overwrite options ≠ Some true →
         in_sync (snd (CacheEngine.set k v options now e)))
        ∧ in_sync (snd (CacheEngine.get k now e))
        ∧ in_sync (snd (CacheEngine.delete k e))
        ∧ in_sync (snd (CacheEngine.has k now e))
        ∧ in_sync (CacheEngine.clear e)
        ∧ in_sync (snd (CacheEngine.cleanupExpired now e))
        ∧ in_sync (snd (CacheEngine.updateTTL k newTtl now e))
        ∧ in_sync (snd (CacheEngine.increment k delta now e)).
Proof.
  split; [by intros cfg policy now k|].
  intros e Hwf Hs k v options now delta newTtl.
  split; [by apply in_sync_set|].
  split; [by apply in_sync_get|].
  split; [by apply in_sync_delete|].
  split; [by apply in_sync_has|].
  split; [by intros k'|].
  split; [by apply in_sync_cleanupExpired|].
  split; [by apply in_sync_updateTTL|].
  by apply in_sync_increment.
Qed.

(** X29. While every stored key is a non-empty string mentioned by the
    strategy's bookkeeping and the ceiling is positive, set with a valid
    key is never refused for memory when the key is new, nor when it
    overwrites (overwrite: true) and the store holds at least one other
    key: the eviction pass finds a victim, set returns true and the value
    is stored. *)
Theorem set_in_sync_is_refused_only_without_a_victim (k : string) (v : Value)
    (options : CacheSetOptions) (now : Z) (e : CacheEngine.t) :
  store_wf (CacheEngine.store e) →
  in_sync e →
  (0 < maxMemoryMB (CacheEngine.config e))%Q →
  CacheEngine.isValidKey k = true →
  JsMap.get k (CacheEngine.store e) = None
  ∨ (overwrite options = Some true
     ∧ ∃ k', k' ≠ k ∧ JsMap.has k' (CacheEngine.store e) = true) →
  fst (CacheEngine.set k v options now e) = true
  ∧ (value <$> JsMap.get k
                 (CacheEngine.store (snd (CacheEngine.set k v options now e))))
    = Some v.
Proof.
  intros Hwf Hs Hmax Hvalid Hcase.
  assert (JsMap.get k (CacheEngine.store e) = None
          ∨ overwrite options = Some true) as Hov by tauto.
  rewrite (set_unfold k v options now e Hvalid Hov). cbv zeta.
  destruct (CacheEngine.shouldEvict (CacheEngine.unregistered k e)) eqn:Hse.
  - assert (fst (CacheEngine.evictEntries (CacheEngine.unregistered k e))
            = true) as Hroom.
    { assert (∃ k0, k0 ≠ k ∧ JsMap.has k0 (CacheEngine.store e) = true)
        as (k0 & Hne & Hk0).
      { destruct Hcase as [Hnone|[_ Hex]]; [|done].
        destruct (CacheEngine.store e) as [|[k0 e0] m] eqn:Hst.
        - exfalso.
          assert (CacheEngine.unregistered k e = e) as Heq
            by (unfold CacheEngine.unregistered; by rewrite Hst).
          rewrite Heq, (shouldEvict_empty e Hst Hmax) in Hse. done.
        - exists k0. split.
          + intros ->. simpl in Hnone. by rewrite String.eqb_refl in Hnone.
          + unfold JsMap.has. simpl. by rewrite String.eqb_refl. }
      apply (evictEntries_succeeds _ k0).
      - by rewrite unregistered_store.
      - intros k1. rewrite unregistered_store. intros Hk1. by apply Hs.
      - by rewrite unregistered_store.
      - destruct (Hs k0 Hk0) as [_ Hc].
        unfold CacheEngine.unregistered. destruct (defined _); simpl; [|done].
        by apply covers_onRemove_ne.
      - done. }
    destruct (CacheEngine.evictEntries _) as [room e2]. simpl in Hroom.
    subst room. simpl. split; [done|]. by rewrite get_set_eq.
  - simpl. split; [done|]. by rewrite get_set_eq.
Qed.

(** ** What the statistics count *)

Lemma cleanupExpired_count now e :
  fst (CacheEngine.cleanupExpired now e)
  = Z.of_nat
      (List.length
         (filter (λ ke, Entry.isExpired (snd ke) now) (CacheEngine.store e))).
Proof.
  unfold CacheEngine.cleanupExpired. rewrite length_map.
  by destruct (0 <? _).
Qed.

Lemma keys_length now e :
  List.length (CacheEngine.keys now e)
  = List.length (live_entries now (CacheEngine.store e)).
Proof. unfold CacheEngine.keys, live_entries. by rewrite length_map. Qed.

(** X30. getStats changes nothing, and its totalKeys counts expired entries
    that have not been removed yet: totalKeys is the number of keys that
    keys() lists plus the number cleanupExpired would remove at that
    instant, and the two agree after a sweep. memoryUsageBytes is at least
    64 bytes per counted key. *)
Theorem totalKeys_counts_unswept_entries (now : Z) (e : CacheEngine.t) :
  let s := fst (CacheEngine.getStats now e) in
  let live := Z.of_nat (List.length (CacheEngine.keys now e)) in
  snd (CacheEngine.getStats now e) = e
  ∧ CacheStats.totalKeys s = live + fst (CacheEngine.cleanupExpired now e)
  ∧ 0 ≤ fst (CacheEngine.cleanupExpired now e)
  ∧ 64 * CacheStats.totalKeys s ≤ CacheStats.memoryUsageBytes s
  ∧ (store_wf (CacheEngine.store e) →
     CacheStats.totalKeys
       (fst (CacheEngine.getStats now
               (snd (CacheEngine.cleanupExpired now e))))
     = live).
Proof.
  cbv zeta. rewrite cleanupExpired_count, keys_length.
  pose proof (length_expired_live now (CacheEngine.store e)) as Hlen.
  split; [done|].
  split; [cbn [CacheEngine.getStats fst CacheStats.totalKeys];
          unfold JsMap.size; rewrite <- Hlen, Nat2Z.inj_add; apply Z.add_comm|].
  split; [apply Nat2Z.is_nonneg|].
  split; [apply usage_lower_bound|].
  intros Hwf. cbn [CacheEngine.getStats fst CacheStats.totalKeys].
  by rewrite (cleanup_store now e Hwf).
Qed.

(** * Concrete instances *)

(** Well-formedness of a closed store, by evaluation. *)
Ltac wf_by_computation :=
  vm_compute;
  split;
  [ repeat (constructor; [simpl; intuition discriminate|]); constructor
  | repeat constructor ].

Lemma remaining_ttl_matches_expiry_witness :
  Entry.isExpired (mkEntry "counter" (VNumber 10) 1000 (Some 2000) 1000 0) 1500
  = false
  ∧ ∃ r,
      Entry.getRemainingTTL
        (mkEntry "counter" (VNumber 10) 1000 (Some 2000) 1000 0) 1500 = Some r
      ∧ 1 ≤ r ∧ 1000 * (r - 1) < 2000 - 1500 ≤ 1000 * r.
Proof.
  refine (proj1 (proj2
    (remaining_ttl_matches_expiry
       (mkEntry "counter" (VNumber 10) 1000 (Some 2000) 1000 0) 2000 1500 _))
    _).
  - reflexivity.
  - lia.
Defined.

Lemma evictEntries_bounded_witness :
  JsMap.size (CacheEngine.store (snd (CacheEngine.evictEntries Samples.full)))
  = JsMap.size (CacheEngine.store Samples.full)
    - (evictionCount
         (CacheEngine.stats (snd (CacheEngine.evictEntries Samples.full)))
       - evictionCount (CacheEngine.stats Samples.full)).
Proof.
  pose proof (evictEntries_bounded Samples.full) as H. cbv zeta in H.
  refine (proj1 (proj2 (proj2 (H _)))).
  wf_by_computation.
Defined.

Lemma cleanupExpired_removes_exactly_the_expired_witness :
  CacheEngine.store (snd (CacheEngine.cleanupExpired 5000 MoreSamples.mixed))
  = live_entries 5000 (CacheEngine.store MoreSamples.mixed).
Proof.
  pose proof (cleanupExpired_removes_exactly_the_expired 5000 MoreSamples.mixed)
    as H. cbv zeta in H.
  refine (proj1 (H _)). wf_by_computation.
Defined.

Lemma cleanupExpired_twice_witness :
  CacheEngine.cleanupExpired 5000
    (snd (CacheEngine.cleanupExpired 5000 MoreSamples.mixed))
  = (0, snd (CacheEngine.cleanupExpired 5000 MoreSamples.mixed)).
Proof.
  apply (cleanupExpired_twice 5000 MoreSamples.mixed). wf_by_computation.
Defined.

Lemma store_shape_is_invariant_witness :
  store_wf
    (CacheEngine.store
       (snd (CacheEngine.updateTTL "key1" 60 1500 Samples.one_key))).
Proof.
  assert (Hwf : store_wf (CacheEngine.store Samples.one_key))
    by wf_by_computation.
  destruct (proj2 store_shape_is_invariant Samples.one_key Hwf
              "key1" VNull noOptions 1500 1 60)
    as (_ & _ & _ & _ & _ & _ & H & _).
  exact H.
Defined.

Lemma counters_never_decrease_witness :
  counters_le (CacheEngine.stats Samples.one_key)
    (CacheEngine.stats (snd (CacheEngine.get "key1" 1500 Samples.one_key))).
Proof.
  assert (Hwf : store_wf (CacheEngine.store Samples.one_key))
    by wf_by_computation.
  destruct (counters_never_decrease Samples.one_key Hwf
              "key1" VNull noOptions 1500 1 60) as (_ & H & _).
  exact H.
Defined.

Lemma none_policy_never_refuses_for_memory_witness :
  fst (CacheEngine.set "a" (VString Samples.sixtyFour) noOptions 1000
         MoreSamples.unbounded) = true.
Proof.
  pose proof (none_policy_never_refuses_for_memory "a"
                (VString Samples.sixtyFour) noOptions 1000
                MoreSamples.unbounded) as H. cbv zeta in H.
  refine (proj1 (H _ _ _)).
  - reflexivity.
  - vm_compute. reflexivity.
  - left. reflexivity.
Defined.

Lemma set_without_eviction_changes_one_key_witness :
  JsMap.get "key1"
    (CacheEngine.store
       (snd (CacheEngine.set "key2" (VString "value2") noOptions 1500
               Samples.one_key)))
  = JsMap.get "key1" (CacheEngine.store Samples.one_key).
Proof.
  pose proof (set_without_eviction_changes_one_key "key2" (VString "value2")
                noOptions 1500 Samples.one_key) as H. cbv zeta in H.
  refine (proj1 (H _ _ _) "key1" _).
  - vm_compute. reflexivity.
  - left. vm_compute. reflexivity.
  - vm_compute. reflexivity.
  - discriminate.
Defined.

Lemma first_set_always_fits_witness :
  fst (CacheEngine.set "a" (VString Samples.sixtyFour) noOptions 1000
         (CacheEngine.new Samples.tinyConfig (Some LRU) 1000)) = true.
Proof.
  refine (proj1 (first_set_always_fits "a" (VString Samples.sixtyFour)
                   noOptions 1000
                   (CacheEngine.new Samples.tinyConfig (Some LRU) 1000)
                   _ _ _)).
  - reflexivity.
  - vm_compute. reflexivity.
  - vm_compute. reflexivity.
Defined.

Lemma performCleanup_accounts_for_the_run_witness :
  CleanupWorker.expiredKeysRemoved
    (fst (fst (CleanupWorker.performCleanup 5000 5003 MoreSamples.mixed
                 (CleanupWorker.new Config.defaults))))
  = JsMap.size (CacheEngine.store MoreSamples.mixed)
    - JsMap.size
        (CacheEngine.store
           (snd (fst (CleanupWorker.performCleanup 5000 5003 MoreSamples.mixed
                        (CleanupWorker.new Config.defaults))))).
Proof.
  pose proof (performCleanup_accounts_for_the_run 5000 5003 MoreSamples.mixed
                (CleanupWorker.new Config.defaults)) as H. cbv zeta in H.
  refine (proj1 (proj2 (proj2 (proj2 (H _ _))))).
  - wf_by_computation.
  - vm_compute. discriminate.
Defined.

Lemma nextRunIn_is_within_one_interval_witness :
  CleanupWorker.s_nextRunIn
    (CleanupWorker.getStats 7000 (CleanupWorker.new Config.defaults)) = 0.
Proof.
  refine (proj1 (proj2
    (nextRunIn_is_within_one_interval 7000
       (CleanupWorker.new Config.defaults) _ _)) _).
  - vm_compute. discriminate.
  - vm_compute. discriminate.
  - reflexivity.
Defined.

Lemma batchGet_counts_every_key_witness :
  CacheController.foundCount
    (fst (CacheController.batchGet
            [("key1", 1500); ("nonexistent", 1501); ("key1", 1502)]
            Samples.one_key))
  + CacheController.missed
      (fst (CacheController.batchGet
              [("key1", 1500); ("nonexistent", 1501); ("key1", 1502)]
              Samples.one_key))
  = CacheController.total
      (fst (CacheController.batchGet
              [("key1", 1500); ("nonexistent", 1501); ("key1", 1502)]
              Samples.one_key)).
Proof.
  pose proof (batchGet_counts_every_key
                [("key1", 1500); ("nonexistent", 1501); ("key1", 1502)]
                Samples.one_key) as H. cbv zeta in H.
  refine (proj1 (proj2 (proj2 (H _)))). wf_by_computation.
Defined.

Lemma has_agrees_with_keys_witness :
  fst (CacheEngine.has "keep" 5000 MoreSamples.mixed) = true
  ↔ In "keep" (CacheEngine.keys 5000 MoreSamples.mixed).
Proof.
  refine (proj1 (has_agrees_with_keys "keep" 5000 MoreSamples.mixed _)).
  wf_by_computation.
Defined.


Lemma bookkeeping_stays_in_sync_witness :
  CacheEngine.shouldEvict Samples.full = true
  ∧ in_sync
      (snd (CacheEngine.set "b" (VString "value") noOptions 1500 Samples.full))
  ∧ in_sync (snd (CacheEngine.get "a" 1500 Samples.full)).
Proof.
  assert (Hwf : store_wf (CacheEngine.store Samples.full))
    by wf_by_computation.
  assert (Hs : in_sync Samples.full).
  { unfold Samples.full. apply in_sync_set.
    - wf_by_computation.
    - intros k Hk. discriminate Hk.
    - right. left. reflexivity. }
  destruct bookkeeping_stays_in_sync as [_ Hops].
  destruct (Hops Samples.full Hwf Hs "b" (VString "value") noOptions 1500 1 60)
    as (Hset & _).
  destruct (Hops Samples.full Hwf Hs "a" VNull noOptions 1500 1 60)
    as (_ & Hget & _).
  split; [vm_compute; reflexivity|]. split; [|exact Hget].
  apply Hset. right. left. vm_compute. reflexivity.
Defined.

Lemma set_in_sync_is_refused_only_without_a_victim_witness :
  CacheEngine.shouldEvict Samples.full = true
  ∧ fst (CacheEngine.set "b" (VString "value") noOptions 1500 Samples.full)
    = true.
Proof.
  split; [vm_compute; reflexivity|].
  refine (proj1 (set_in_sync_is_refused_only_without_a_victim "b"
                   (VString "value") noOptions 1500 Samples.full
                   _ _ _ _ _)).
  - wf_by_computation.
  - unfold Samples.full. apply in_sync_set.
    + wf_by_computation.
    + intros k Hk. discriminate Hk.
    + right. left. reflexivity.
  - reflexivity.
  - vm_compute. reflexivity.
  - left. vm_compute. reflexivity.
Defined.
